(** * The GLASS example notebooks: catalogue reduction and spectrum checks

    The notebooks under [Glass/] drive the GLASS simulator shell by shell and
    contain, as code of their own, (a) the reduction of each batch of galaxies
    into per-pixel count and shear maps (argsort / unique / split), (b) the
    binning of galaxies into a Cartesian cube (linspace / searchsorted /
    unique), (c) the comparison of the measured spectrum with theory
    (noise level, mixing matrix, convergence-to-shear factor), (d) the
    redshift distributions and their trapezoidal integrals, (e) the
    tomographic bins: masks, bin ids, the catalogue and its histograms, and
    (f) the mean lensing fields weighted by the galaxy density of the shells.

    Arrays are lists read with [!!]; an out-of-range index is Python's
    IndexError and is modelled by [None].  Indices are natural numbers: the
    pixel and bin indices of the notebooks are never negative, so numpy's
    wrap-around of negative indices does not occur.  Real-valued quantities
    of the analysis cells and of the cube are modelled in [R]; integer
    arrays keep their width, with the wrap-around of their arithmetic, and a
    division of Python floats raises at a zero divisor.  The shear
    accumulator and the mean fields are generic in their value type (classes
    [Accum] and [Arith]) so that the same embedding runs on exact values and
    on binary64 floats.

    The GLASS library itself (field generation, [MultiPlaneConvergence],
    [shear_from_convergence], galaxy sampling) is not part of the notebooks;
    its results enter as inputs: the pixel index and the shear of every
    galaxy, the redshift and angles of every galaxy, the bins of
    [equal_dens_zbins], and the field and the galaxy density of every
    shell. *)

From Stdlib Require Import Reals Lra Lia ZArith.
From Stdlib Require Import Floats.
From stdpp Require Import base list sorting.

(** ** Values that can be accumulated *)

(** The two operations the reduction uses on map values: the zero an array is
    initialised with ([np.zeros]) and the addition of [+=] and [np.sum]. *)
Class Accum (V : Type) := { azero : V; aadd : V → V → V }.

(** Exact arithmetic: addition is a commutative monoid. *)
Class AccumLaws (V : Type) `{Accum V} : Prop := {
  aadd_comm : ∀ x y : V, aadd x y = aadd y x;
  aadd_assoc : ∀ x y z : V, aadd x (aadd y z) = aadd (aadd x y) z;
  aadd_zero_l : ∀ x : V, aadd azero x = x
}.

#[export] Instance Z_accum : Accum Z := {| azero := 0%Z; aadd := Z.add |}.
#[export] Instance R_accum : Accum R := {| azero := 0%R; aadd := Rplus |}.
#[export] Instance float_accum : Accum float :=
  {| azero := 0%float; aadd := PrimFloat.add |}.

(** A complex number is its pair of components; complex addition is
    componentwise. *)
#[export] Instance complex_accum {V} `{Accum V} : Accum (V * V) :=
  {| azero := (azero, azero);
     aadd := λ x y, (aadd x.1 y.1, aadd x.2 y.2) |}.

#[export] Instance accum_inhabited {V} `{Accum V} : Inhabited V := populate azero.

(** The further operations of the mean-field cell: the product of a weight
    and a field value ([*]), the final division ([/=]) and the order in
    which two values are compared. *)
Class Arith (V : Type) := {
  amul : V → V → V;
  adiv : V → V → V;
  ale : V → V → Prop
}.

(** Exact arithmetic: an ordered field, as far as the mean fields need it. *)
Class ArithLaws (V : Type) `{Accum V} `{Arith V} : Prop := {
  arith_accum_laws :: AccumLaws V;
  amul_comm : ∀ x y : V, amul x y = amul y x;
  amul_assoc : ∀ x y z : V, amul x (amul y z) = amul (amul x y) z;
  amul_aadd_distr : ∀ x y z : V, amul x (aadd y z) = aadd (amul x y) (amul x z);
  amul_azero : ∀ x : V, amul x azero = azero;
  adiv_amul : ∀ x y : V, y ≠ azero → adiv (amul x y) y = x;
  amul_adiv : ∀ x y : V, y ≠ azero → amul (adiv x y) y = x;
  ale_refl : ∀ x : V, ale x x;
  ale_aadd : ∀ x x' y y' : V, ale x x' → ale y y' → ale (aadd x y) (aadd x' y');
  ale_amul : ∀ w x y : V, ale azero w → ale x y → ale (amul w x) (amul w y);
  ale_adiv : ∀ n x y : V,
    ale azero n → n ≠ azero → ale x y → ale (adiv x n) (adiv y n)
}.

#[export] Instance R_arith : Arith R :=
  {| amul := Rmult; adiv := Rdiv; ale := Rle |}.
#[export] Instance float_arith : Arith float :=
  {| amul := PrimFloat.mul; adiv := PrimFloat.div;
     ale := λ x y, PrimFloat.leb x y = true |}.

(** ** The numpy operations the notebooks call *)

Module np.

Section arrays.
Context {A : Type}.

(** [arr[idx]] with an integer index array. *)
Definition getitem (arr : list A) (idx : list nat) : option (list A) :=
  mapM (λ i, arr !! i) idx.

(** [arr[idx] = vals], element by element; a repeated index keeps the last
    value written. *)
Definition setitem (arr : list A) (idx : list nat) (vals : list A) : list A :=
  foldl (λ a iv, <[iv.1 := iv.2]> a) arr (zip idx vals).

(** Broadcasting of a one-dimensional operand to length [n]: the operand has
    length [n] already, or it has length one and is repeated. *)
Definition broadcast_to (n : nat) (vals : list A) : option (list A) :=
  if decide (length vals = n) then Some vals
  else match vals with
       | [v] => Some (replicate n v)
       | _ => None
       end.

(** [arr[idx] += vals]: read [arr[idx]], add, write back. *)
Definition iadd (add : A → A → A) (arr : list A) (idx : list nat)
    (vals : list A) : option (list A) :=
  old ← getitem arr idx;
  vs ← broadcast_to (length idx) vals;
  Some (setitem arr idx (zip_with add old vs)).

(** [np.split(a, idx)]: the sections [a[:i1]], [a[i1:i2]], ..., [a[ik:]]. *)
Fixpoint split_from (a : list A) (prev : nat) (idx : list nat) : list (list A) :=
  match idx with
  | [] => [drop prev a]
  | i :: idx' => take (i - prev) (drop prev a) :: split_from a i idx'
  end.

Definition split (a : list A) (idx : list nat) : list (list A) :=
  split_from a 0 idx.
End arrays.

(** Index of the first occurrence of [v] in [l]. *)
Fixpoint index_of (v : nat) (l : list nat) : nat :=
  match l with
  | [] => 0
  | x :: l' => if decide (x = v) then 0 else S (index_of v l')
  end.

(** Number of occurrences of [v] in [l]. *)
Definition count_of (v : nat) (l : list nat) : nat :=
  length (filter (λ x, x = v) l).

(** [np.unique(x, return_index=True, return_counts=True)]: the sorted distinct
    values, the index of the first occurrence of each in [x], and the number
    of times each occurs. *)
Definition unique (x : list nat) : list nat * list nat * list nat :=
  let u := remove_dups (merge_sort (≤) x) in
  (u, (λ v, index_of v x) <$> u, (λ v, count_of v x) <$> u).

(** The order of two positions of [a] by their keys. *)
Definition key_le (a : list nat) : relation nat := λ i j, a !!! i ≤ a !!! j.

#[export] Instance key_le_dec (a : list nat) : RelDecision (key_le a) :=
  λ i j, decide (a !!! i ≤ a !!! j).

(** [np.argsort(a)]: indices that sort [a].  numpy's default sort is not
    stable, so which of two equal keys comes first is not specified; the
    theorems of this file hold for every permutation that sorts (see
    [sorts]), and this function is the one that runs the examples. *)
Definition argsort (a : list nat) : list nat :=
  merge_sort (key_le a) (seq 0 (length a)).

(** [s] is a possible result of [np.argsort(a)]. *)
Definition sorts (a : list nat) (s : list nat) : Prop :=
  s ≡ₚ seq 0 (length a) ∧ StronglySorted (≤) ((λ i, a !!! i) <$> s).

(** [np.sum(l)]: the elements added from the left, starting from zero.
    (numpy adds sections of eight or more elements in blocks; with exact
    addition the sum is the same, and the binary64 examples of this file have
    shorter sections.) *)
Definition sum {V} `{Accum V} (l : list V) : V := foldl aadd azero l.

(** [np.unique(cols, axis=1, return_counts=True)] on an array whose columns
    are index triples: the distinct columns in lexicographic order and the
    number of times each occurs. *)
Definition column := (nat * nat * nat)%type.

Definition col_le (a b : column) : Prop :=
  a.1.1 < b.1.1 ∨
  (a.1.1 = b.1.1 ∧ (a.1.2 < b.1.2 ∨ (a.1.2 = b.1.2 ∧ a.2 ≤ b.2))).

#[export] Instance col_le_dec : RelDecision col_le :=
  λ a b, decide (a.1.1 < b.1.1 ∨
    (a.1.1 = b.1.1 ∧ (a.1.2 < b.1.2 ∨ (a.1.2 = b.1.2 ∧ a.2 ≤ b.2)))).

Definition unique_columns (cols : list column) : list column * list nat :=
  let u := remove_dups (merge_sort col_le cols) in
  (u, (λ v, length (filter (λ c, c = v) cols)) <$> u).

(** [np.searchsorted(a, v)] with the default [side='left'], for sorted [a]:
    the first index [i] with [v <= a[i]], or [len(a)] when there is none. *)
Section searching.
Context {A : Type} {lt : relation A} `{!RelDecision lt}.

Fixpoint searchsorted (a : list A) (v : A) : nat :=
  match a with
  | [] => 0
  | x :: a' => if decide (lt x v) then S (searchsorted a' v) else 0
  end.
End searching.

(** [np.arange(n)]. *)
Definition arange (n : nat) : list Z := Z.of_nat <$> seq 0 n.

(** [np.linspace(start, stop, num)]: [num] evenly spaced samples,
    [start + i * step] with the last one set to [stop]. *)
Definition linspace (start stop : R) (num : nat) : list R :=
  let step := ((stop - start) / INR (num - 1))%R in
  <[num - 1 := stop]> ((λ i, (INR i * step + start)%R) <$> seq 0 num).

(** [np.eye(n, m)]. *)
Definition eye (n m : nat) : list (list R) :=
  (λ i, (λ j, if decide (i = j) then 1%R else 0%R) <$> seq 0 m) <$> seq 0 n.

(** An elementwise binary operation on one-dimensional arrays, with numpy's
    broadcasting of a length-one operand; other length mismatches raise. *)
Definition elementwise {A} (f : A → A → A) (x y : list A) : option (list A) :=
  if decide (length x = length y) then Some (zip_with f x y)
  else match x, y with
       | [a], _ => Some (f a <$> y)
       | _, [b] => Some ((λ a, f a b) <$> x)
       | _, _ => None
       end.

(** [m @ v] for a matrix given by its rows. *)
Definition dot (x y : list R) : R := foldr Rplus 0%R (zip_with Rmult x y).

Definition matvec (m : list (list R)) (v : list R) : option (list R) :=
  if decide (Forall (λ row, length row = length v) m)
  then Some ((λ row, dot row v) <$> m)
  else None.

(** Indexing a three-dimensional array with three index arrays, given as a
    list of index triples: [cube[i, j, k]] and [cube[i, j, k] += vals]. *)
Section cubes.
Context {A : Type}.

Definition lookup3 (cube : list (list (list A))) (ijk : column) : option A :=
  plane ← cube !! ijk.1.1; row ← plane !! ijk.1.2; row !! ijk.2.

Definition getitem3 (cube : list (list (list A))) (idx : list column)
    : option (list A) :=
  mapM (lookup3 cube) idx.

Definition setitem3 (cube : list (list (list A))) (idx : list column)
    (vals : list A) : list (list (list A)) :=
  foldl (λ c iv, alter (alter (<[iv.1.2 := iv.2]>) iv.1.1.2) iv.1.1.1 c)
        cube (zip idx vals).

Definition iadd3 (add : A → A → A) (cube : list (list (list A)))
    (idx : list column) (vals : list A) : option (list (list (list A))) :=
  old ← getitem3 cube idx;
  vs ← broadcast_to (length idx) vals;
  Some (setitem3 cube idx (zip_with add old vs)).
End cubes.

(** [np.diff(x)]: [x[1:] - x[:-1]]. *)
Definition diff (x : list R) : list R := zip_with Rminus (tail x) x.

(** [np.trapz(y, x)], the composite trapezoidal rule:
    [(d * (y[1:] + y[:-1]) / 2.0).sum()] with [d = np.diff(x)].  The product
    broadcasts, so arrays of different lengths raise unless one of the two
    factors has a single entry. *)
Definition trapz (y x : list R) : option R :=
  terms ← elementwise Rmult (diff x) (zip_with Rplus (tail y) y);
  Some (sum ((λ t, (t / 2)%R) <$> terms)).

(** [arr[mask]] with a boolean mask: the entries where the mask is true, in
    order.  A mask of another length is an IndexError. *)
Definition getitem_mask {A} (arr : list A) (mask : list bool) : option (list A) :=
  if decide (length mask = length arr)
  then Some (filter (λ xb, xb.2 = true) (zip arr mask)).*1
  else None.

(** [np.min(a)] and [np.max(a)] of a flat array; numpy raises a ValueError on
    an empty one. *)
Definition min (a : list Z) : option Z :=
  match a with
  | [] => None
  | x :: a' => Some (foldl Z.min x a')
  end.

Definition max (a : list Z) : option Z :=
  match a with
  | [] => None
  | x :: a' => Some (foldl Z.max x a')
  end.

(** [np.unique(a)] of a flat array, the sorted distinct values, and
    [np.digitize(x, bins)] with the default [right=False] for increasing
    [bins] (which is what [np.unique] returns): the number of edges that are
    not above [x], that is the [i] with [bins[i-1] <= x < bins[i]]. *)
Section binning.
Context {A : Type} `{EqDecision A} {le : relation A} `{!RelDecision le}.

Definition unique_values (a : list A) : list A :=
  remove_dups (merge_sort le a).

Definition digitize (x : A) (bins : list A) : nat :=
  searchsorted (lt:=le) bins x.
End binning.

(** Integer arrays hold signed integers of a fixed width [w], and their
    arithmetic wraps around silently: an operation whose exact result is
    [n] stores [wrap w n].  For [np.arange] of a Python int the width is
    that of numpy's default integer: 64 bits, or 32 bits where the
    platform's C long has 32 bits. *)
Definition wrap (w n : Z) : Z :=
  ((n + 2 ^ (w - 1)) mod 2 ^ w - 2 ^ (w - 1))%Z.

End np.

(** ** Python scalars *)

Module py.

(** [x / y] on Python floats: a zero divisor raises ZeroDivisionError. *)
Definition truediv (x y : R) : option R :=
  if Req_dec_T y 0 then None else Some (x / y)%R.

End py.

#[export] Instance Rlt_decision : RelDecision Rlt := Rlt_dec.

(** ** Galaxy shear notebook: reduction of a batch into the pixel maps *)

Module GalaxyShear.

Section reduction.
Context {V : Type} `{Accum V}.

(** The two running maps of the simulation cell: [num], the galaxy count per
    pixel, and [she], the sum of shears per pixel.  [num] is a float array
    in the notebook; it only ever holds sums of integer counts, which
    binary64 represents exactly below 2^53, so its entries are integers
    here. *)
Record maps := Maps { num : list Z; she : list V }.

(** [num = np.zeros(npix)], [she = np.zeros(npix, dtype=complex)]. *)
Definition zeros (npix : nat) : maps :=
  {| num := replicate npix 0%Z; she := replicate npix azero |}.

(** The body of the inner loop after [gal_pix] and [gal_she] are known, with
    [s] standing for the result of [np.argsort(gal_pix)]:
<<
    pix, start, count = np.unique(gal_pix[s], return_index=True, return_counts=True)
    num[pix] += count
    she[pix] += list(map(np.sum, np.split(gal_she[s], start[1:])))
>> *)
Definition reduce_with (s : list nat) (m : maps)
    (gal_pix : list nat) (gal_she : list V) : option maps :=
  sorted_pix ← np.getitem gal_pix s;
  sorted_she ← np.getitem gal_she s;
  let '(pix, start, count) := np.unique sorted_pix in
  num' ← np.iadd Z.add (num m) pix (Z.of_nat <$> count);
  she' ← np.iadd aadd (she m) pix (np.sum <$> np.split sorted_she (tail start));
  Some {| num := num'; she := she' |}.

Definition reduce (m : maps) (gal_pix : list nat) (gal_she : list V) : option maps :=
  reduce_with (np.argsort gal_pix) m gal_pix gal_she.

(** A batch given as a list of (pixel, shear) points. *)
Definition reduce_points (m : maps) (pts : list (nat * V)) : option maps :=
  reduce m pts.*1 pts.*2.

(** The batches of the whole simulation, reduced one after the other into
    the same maps. *)
Fixpoint reduce_all (m : maps) (batches : list (list (nat * V))) : option maps :=
  match batches with
  | [] => Some m
  | b :: bs => m' ← reduce_points m b; reduce_all m' bs
  end.

(** The naive linear scan: each point is added to its pixel, one at a
    time. *)
Definition add_point (m : maps) (pt : nat * V) : option maps :=
  n ← num m !! pt.1;
  x ← she m !! pt.1;
  Some {| num := <[pt.1 := (n + 1)%Z]> (num m);
          she := <[pt.1 := aadd x pt.2]> (she m) |}.

Fixpoint linear_scan (m : maps) (pts : list (nat * V)) : option maps :=
  match pts with
  | [] => Some m
  | pt :: pts' => m' ← add_point m pt; linear_scan m' pts'
  end.

(** The points of a batch that fall into pixel [p], in arrival order, and
    their contribution to the pixel: how many they are and the sum of their
    values. *)
Definition in_pixel (p : nat) (pts : list (nat * V)) : list (nat * V) :=
  filter (λ pt, pt.1 = p) pts.

Definition pixel_count (p : nat) (pts : list (nat * V)) : Z :=
  Z.of_nat (length (in_pixel p pts)).

Definition pixel_sum (p : nat) (pts : list (nat * V)) : V :=
  foldr aadd azero (in_pixel p pts).*2.

(** The maps with the contribution of a set of points added to every
    pixel. *)
Definition add_aggregate (m : maps) (pts : list (nat * V)) : maps :=
  {| num := imap (λ p c, (c + pixel_count p pts)%Z) (num m);
     she := imap (λ p x, aadd x (pixel_sum p pts)) (she m) |}.

(** Every point of the batch has a pixel of both maps. *)
Definition in_range (m : maps) (pts : list (nat * V)) : Prop :=
  Forall (λ pt, pt.1 < length (num m) ∧ pt.1 < length (she m)) pts.

(** The invariant of the two maps: they have the same pixels, counts are
    not negative, and a pixel without galaxies has no shear. *)
Definition coupled (m : maps) : Prop :=
  length (num m) = length (she m) ∧
  ∀ p c, num m !! p = Some c →
    (0 ≤ c)%Z ∧ (c = 0%Z → she m !! p = Some azero).
End reduction.

Arguments maps : clear implicits.

(** The binary64 values nearest to 0.1, 0.2 and 0.3, for examples with
    floating-point shears. *)
Definition f01 : float := 0x1.999999999999ap-4%float.
Definition f02 : float := 0x1.999999999999ap-3%float.
Definition f03 : float := 0x1.3333333333333p-2%float.

(** *** The analysis cell *)

(** [nbar = ARCMIN2_SPHERE/npix*n_arcmin2] is the expected number of galaxies
    in each pixel, a Python float; it enters the definitions below as the
    parameter [nbar]. *)

(** [she /= nbar; num /= nbar]: both maps divided by the expected number of
    galaxies per pixel. *)
Definition normalise (nbar : R) (m : maps (R * R)) : list R * list (R * R) :=
  ((λ c, (IZR c / nbar)%R) <$> num m,
   (λ z, (z.1 / nbar, z.2 / nbar)%R) <$> she m).

(** [fl = (l+2)*(l+1)*l*(l-1)/np.clip(l**2*(l+1)**2, 1, None)] at one
    multipole.  [l = np.arange(lmax+1)] is an integer array, so the numerator
    and the argument of [np.clip] are computed in integers of the width [w]
    of the array, every operation wrapping around; [np.clip(x, 1, None)] is
    the maximum of [x] and 1; the division is the true division of the two
    integers, whose result is a float (a real number here). *)
Definition fl_num (w l : Z) : Z :=
  np.wrap w
    (np.wrap w (np.wrap w (np.wrap w (l + 2) * np.wrap w (l + 1)) * l)
     * np.wrap w (l - 1)).

Definition fl_den (w l : Z) : Z :=
  Z.max
    (np.wrap w (np.wrap w (l ^ 2) * np.wrap w (np.wrap w (l + 1) ^ 2))) 1.

Definition fl_at (w l : Z) : R := (IZR (fl_num w l) / IZR (fl_den w l))%R.

Definition fl (w : Z) (lmax : nat) : list R :=
  fl_at w <$> np.arange (S lmax).

(** [nl = 4*np.pi/(nbar*npix)*sigma_e**2 * (l >= 2)].  The quotient
    [4*np.pi/(nbar*npix)] is one of Python floats: it is computed once,
    before the array enters, and raises ZeroDivisionError when
    [nbar*npix] is zero. *)
Definition nl_at (q sigma_e : R) (l : Z) : R :=
  (q * sigma_e ^ 2 * (if decide (2 ≤ l)%Z then 1 else 0))%R.

Definition nl (nbar : R) (npix : nat) (sigma_e : R) (lmax : nat)
    : option (list R) :=
  q ← py.truediv (4 * PI) (nbar * INR npix);
  Some (nl_at q sigma_e <$> np.arange (S lmax)).

(** [mm[:k, :] = 0] and [mm[:, :k] = 0]. *)
Definition zero_rows (k : nat) (m : list (list R)) : list (list R) :=
  imap (λ i row, if decide (i < k) then (λ _, 0%R) <$> row else row) m.

Definition zero_cols (k : nat) (m : list (list R)) : list (list R) :=
  (λ row, imap (λ j x, if decide (j < k) then 0%R else x) row) <$> m.

(** [mm = (1 - 1/(nbar*npix))*np.eye(lmax+1, lmax+1) + (l+1/2)/(nbar*npix)]
    followed by [mm[:2, :] = mm[:, :2] = 0].  The quotient [1/(nbar*npix)] is
    evaluated first, on Python floats: it raises ZeroDivisionError when
    [nbar*npix] is zero.  The one-dimensional second term is broadcast over
    the rows: it is added to every row. *)
Definition mm (nbar : R) (npix : nat) (lmax : nat) : option (list (list R)) :=
  inv ← py.truediv 1 (nbar * INR npix);
  let scaled_eye :=
    (λ row, (λ x, ((1 - inv) * x)%R) <$> row) <$> np.eye (S lmax) (S lmax) in
  let term := (λ l, ((IZR l + 1 / 2) / (nbar * INR npix))%R)
                <$> np.arange (S lmax) in
  Some (zero_cols 2
          (zero_rows 2 ((λ row, zip_with Rplus row term) <$> scaled_eye))).

(** The two curves of the final plot: [cls[1] - nl] and
    [pw**2 * mm@(fl*theory_cls['W1xW1'])], where [*] and [@] associate to the
    left. *)
Definition simulation (cls1 nl : list R) : option (list R) :=
  np.elementwise Rminus cls1 nl.

Definition expectation (pw : list R) (mm : list (list R))
    (fl theory : list R) : option (list R) :=
  pwmm ← mapM (np.elementwise Rmult ((λ x, (x ^ 2)%R) <$> pw)) mm;
  ft ← np.elementwise Rmult fl theory;
  np.matvec pwmm ft.

(** *** The galaxy redshift distribution *)

(** [dndz = np.exp(-(z - 0.5)**2/(0.1)**2)] on the redshift grid [z]. *)
Definition gaussian (z : R) : R := exp (- (z - 1 / 2) ^ 2 / (1 / 10) ^ 2).

Definition dndz (z : list R) : list R := gaussian <$> z.

End GalaxyShear.

(** ** Galaxy distribution notebook: the cube of galaxy counts *)

Module GalaxyDensity.

Definition deg2rad (x : R) : R := (x * (PI / 180))%R.

(** [zcub = np.linspace(-zb[-1], zb[-1], 21)], with [zmax] for [zb[-1]]. *)
Definition zcub (zmax : R) : list R := np.linspace (- zmax) zmax 21.

(** [cube = np.zeros((zcub.size-1,)*3)]. *)
Definition cube_zeros (zmax : R) : list (list (list Z)) :=
  let n := length (zcub zmax) - 1 in
  replicate n (replicate n (replicate n 0%Z)).

(** A galaxy is its redshift, longitude and latitude (degrees). *)
Definition galaxy := (R * R * R)%type.

(** [z1], [z2], [z3] of one galaxy. *)
Definition cartesian (g : galaxy) : R * R * R :=
  let '(gal_z, gal_lon, gal_lat) := g in
  ((gal_z * cos (deg2rad gal_lon) * cos (deg2rad gal_lat))%R,
   (gal_z * sin (deg2rad gal_lon) * cos (deg2rad gal_lat))%R,
   (gal_z * sin (deg2rad gal_lat))%R).

(** The column of [np.searchsorted(zcub[1:], [z1, z2, z3])] that belongs to
    one galaxy. *)
Definition cell (zmax : R) (g : galaxy) : np.column :=
  let '(z1, z2, z3) := cartesian g in
  (np.searchsorted (lt:=Rlt) (tail (zcub zmax)) z1,
   np.searchsorted (lt:=Rlt) (tail (zcub zmax)) z2,
   np.searchsorted (lt:=Rlt) (tail (zcub zmax)) z3).

(** The body of the inner loop:
<<
    (i, j, k), c = np.unique(np.searchsorted(zcub[1:], [z1, z2, z3]), axis=1, return_counts=True)
    cube[i, j, k] += c
>>
    The galaxies of the batch are the input.  (The notebook binds [i] here,
    which is also the variable of the outer loop over the shells; the
    sampling of the galaxies, where the outer [i] is read, is not part of
    this function.) *)
Definition add_to_cube (zmax : R) (cube : list (list (list Z)))
    (gals : list galaxy) : option (list (list (list Z))) :=
  let '(ijk, c) := np.unique_columns (cell zmax <$> gals) in
  np.iadd3 Z.add cube ijk (Z.of_nat <$> c).

(** All batches of the simulation, one after the other. *)
Fixpoint add_all (zmax : R) (cube : list (list (list Z)))
    (batches : list (list galaxy)) : option (list (list (list Z))) :=
  match batches with
  | [] => Some cube
  | b :: bs => cube' ← add_to_cube zmax cube b; add_all zmax cube' bs
  end.

(** A cube with [n] cells along each axis. *)
Definition cubic (n : nat) (cube : list (list (list Z))) : Prop :=
  length cube = n ∧
  Forall (λ plane, length plane = n ∧ Forall (λ row, length row = n) plane) cube.


(** An index triple within a cube of [n] cells along each axis. *)
Definition in_cube (n : nat) (ijk : np.column) : Prop :=
  ijk.1.1 < n ∧ ijk.1.2 < n ∧ ijk.2 < n.

(** The number of galaxies of a batch that fall into cell [ijk]. *)
Definition cell_count (zmax : R) (ijk : np.column) (gals : list galaxy) : nat :=
  length (filter (λ g, cell zmax g = ijk) gals).

(** [z = (zcub[:-1] + zcub[1:])/2]: the positions of the grid cells along
    one axis. *)
Definition centres (zmax : R) : list R :=
  (λ s, (s / 2)%R) <$>
    zip_with Rplus (take (length (zcub zmax) - 1) (zcub zmax))
                   (tail (zcub zmax)).

(** The colour scale of the plot: [vmin=np.min(cube[cube > 0])] and
    [vmax=np.max(cube)].  A boolean mask on the whole cube selects from its
    entries in row-major order. *)
Definition flat (cube : list (list (list Z))) : list Z := concat (concat cube).

Definition vmin (cube : list (list (list Z))) : option Z :=
  np.min (filter (λ c, (0 < c)%Z) (flat cube)).

Definition vmax (cube : list (list (list Z))) : option Z :=
  np.max (flat cube).

End GalaxyDensity.

(** ** Tomographic redshift bins *)

#[export] Instance Rle_decision : RelDecision Rle := Rle_dec.
#[export] Instance R_eq_decision : EqDecision R := Req_dec_T.

Module Tomography.

(** *** Photometric-redshift notebook *)

(** The sample of one histogram, [ztrue[(z1 <= zphot) & (zphot < z2)]]. *)
Definition bin_mask (z1 z2 : R) (zphot : list R) : list bool :=
  (λ p, bool_decide (z1 <= p)%R && bool_decide (p < z2)%R) <$> zphot.

Definition bin_sample (z1 z2 : R) (ztrue zphot : list R) : option (list R) :=
  np.getitem_mask ztrue (bin_mask z1 z2 zphot).

(** The samples of all histograms of the loop
    [for (z1, z2), nz in zip(zbins, tomo_nz)]. *)
Definition histograms (zbins : list (R * R)) (tomo_nz : list (list R))
    (ztrue zphot : list R) : option (list (list R)) :=
  mapM (λ b, bin_sample b.1.1 b.1.2 ztrue zphot) (zip zbins tomo_nz).

(** *** Stage-IV galaxies notebook *)

(** [np.unique(zbins)]: the bin edges, from the flattened list of bins. *)
Definition edges (zbins : list (R * R)) : list R :=
  np.unique_values (le:=Rle) (zbins ≫= λ b, [b.1; b.2]).

(** [gal_zbin = np.digitize(gal_phz, np.unique(zbins)) - 1]. *)
Definition zbin_of (zbins : list (R * R)) (phz : R) : Z :=
  (Z.of_nat (np.digitize (le:=Rle) phz (edges zbins)) - 1)%Z.

Definition gal_zbin (zbins : list (R * R)) (gal_phz : list R) : list Z :=
  zbin_of zbins <$> gal_phz.

(** A row of the catalogue. *)
Record row := Row {
  RA : R; DEC : R; Z_TRUE : R; PHZ : R; ZBIN : Z; G1 : R; G2 : R
}.

(** What one pass of the inner loop receives from GLASS: the number of
    galaxies, their positions, true and photometric redshifts, and their
    sheared ellipticities (complex numbers as pairs). *)
Record batch := Batch {
  gal_count : nat;
  gal_lon : list R; gal_lat : list R;
  gal_z : list R; gal_phz : list R;
  gal_she : list (R * R)
}.

(** The mini-catalogue of the new rows: [rows = np.empty(gal_count, ...)]
    followed by one assignment per column, each of which broadcasts its
    right-hand side to [gal_count] entries or raises. *)
Definition new_rows (zbins : list (R * R)) (b : batch) : option (list row) :=
  ra ← np.broadcast_to (gal_count b) (gal_lon b);
  dec ← np.broadcast_to (gal_count b) (gal_lat b);
  zt ← np.broadcast_to (gal_count b) (gal_z b);
  phz ← np.broadcast_to (gal_count b) (gal_phz b);
  zb ← np.broadcast_to (gal_count b) (gal_zbin zbins (gal_phz b));
  g1 ← np.broadcast_to (gal_count b) (gal_she b).*1;
  g2 ← np.broadcast_to (gal_count b) (gal_she b).*2;
  Some (zip_with (λ f x, f x) (zip_with (λ f x, f x) (zip_with (λ f x, f x)
         (zip_with (λ f x, f x) (zip_with (λ f x, f x)
         (zip_with Row ra dec) zt) phz) zb) g1) g2).

(** [catalogue = np.append(catalogue, rows)] over all passes of the loop. *)
Fixpoint build (zbins : list (R * R)) (catalogue : list row)
    (batches : list batch) : option (list row) :=
  match batches with
  | [] => Some catalogue
  | b :: bs => rows ← new_rows zbins b; build zbins (catalogue ++ rows) bs
  end.

(** [in_bin = (catalogue['ZBIN'] == i)] and the histogram sample
    [catalogue['Z_TRUE'][in_bin]]. *)
Definition in_bin (i : nat) (catalogue : list row) : list bool :=
  (λ r, bool_decide (ZBIN r = Z.of_nat i)) <$> catalogue.

Definition bin_ztrue (i : nat) (catalogue : list row) : option (list R) :=
  np.getitem_mask (Z_TRUE <$> catalogue) (in_bin i catalogue).

End Tomography.

(** ** Lensing notebook: the mean fields over the redshift distribution *)

Module MeanField.

Section mean.
Context {V : Type} `{Accum V} `{Arith V}.

(** [bar += x] on arrays: the right-hand side is broadcast to the shape of
    [bar], or the statement raises. *)
Definition iadd_array (bar x : list V) : option (list V) :=
  vs ← np.broadcast_to (length bar) x;
  Some (zip_with aadd bar vs).

(** The loop over the shells, [kappa_bar += ngal * kappa_i], for the shells
    given by their galaxy density [ngal] and their field [kappa_i]. *)
Fixpoint accumulate (bar : list V) (shells : list (V * list V))
    : option (list V) :=
  match shells with
  | [] => Some bar
  | s :: rest =>
      bar' ← iadd_array bar ((λ k, amul s.1 k) <$> s.2);
      accumulate bar' rest
  end.

(** [kappa_bar = np.zeros(npix)], the loop, and
    [kappa_bar /= np.sum(ngal)] with the overall galaxy density [ngal]
    (a scalar, of which [np.sum] is the value itself).  The values are
    generic: the same definition runs on exact reals and on binary64
    floats. *)
Definition mean_field (npix : nat) (shells : list (V * list V)) (ngal : V)
    : option (list V) :=
  bar ← accumulate (replicate npix azero) shells;
  Some ((λ x, adiv x ngal) <$> (bar : list V)).
End mean.

(** The redshift distribution of the lensing notebook and its integral:
    [z = np.linspace(0, 1, 101)], [dndz = np.exp(-(z - 0.5)**2/(0.1)**2)]
    (the formula of the galaxy-shear notebook) and, after the loop,
    [ngal = np.trapz(dndz, z)]. *)
Definition z : list R := np.linspace 0 1 101.

Definition dndz : list R := GalaxyShear.dndz z.

Definition ngal : option R := np.trapz dndz z.

End MeanField.

(** ** Instances *)

(** Integers, reals and complex numbers over them are added exactly. *)
#[export] Instance Z_accum_laws : AccumLaws Z.
Proof. split; simpl; intros; lia. Qed.

#[export] Instance R_accum_laws : AccumLaws R.
Proof. split; simpl; intros; lra. Qed.

(** The reals are an ordered field. *)
#[export] Instance R_arith_laws : ArithLaws R.
Proof.
  split; simpl.
  - exact R_accum_laws.
  - intros; lra.
  - intros; lra.
  - intros; lra.
  - intros; lra.
  - intros x y Hy. unfold Rdiv. rewrite Rmult_assoc, Rinv_r by exact Hy. lra.
  - intros x y Hy. unfold Rdiv. rewrite Rmult_assoc, Rinv_l by exact Hy. lra.
  - intros; lra.
  - intros; lra.
  - intros w x y Hw Hxy. apply Rmult_le_compat_l; assumption.
  - intros n x y Hn Hn0 Hxy. unfold Rdiv. apply Rmult_le_compat_r; [|exact Hxy].
    apply Rlt_le, Rinv_0_lt_compat. lra.
Qed.

#[export] Instance complex_accum_laws {V} `{AccumLaws V} : AccumLaws (V * V).
Proof.
  split; simpl.
  - intros [] []; simpl. f_equal; apply aadd_comm.
  - intros [] [] []; simpl. f_equal; apply aadd_assoc.
  - intros []; simpl. f_equal; apply aadd_zero_l.
Qed.

(** The orders used for sorting and searching. *)
#[export] Instance key_le_transitive (a : list nat) : Transitive (np.key_le a).
Proof. unfold np.key_le. intros i j k ??. lia. Qed.

#[export] Instance key_le_total (a : list nat) : Total (np.key_le a).
Proof. unfold np.key_le. intros i j. lia. Qed.

#[export] Instance Rlt_strict_order : StrictOrder Rlt.
Proof.
  split.
  - intros x Hx. by apply Rlt_irrefl in Hx.
  - intros x y z. apply Rlt_trans.
Qed.

#[export] Instance Rle_transitive : Transitive Rle.
Proof. intros x y z. apply Rle_trans. Qed.

#[export] Instance Rle_total : Total Rle.
Proof. intros x y. destruct (Rle_dec x y); [by left|right; lra]. Qed.

#[export] Instance Rlt_antisymm : AntiSymm eq Rlt.
Proof. intros x y ??. lra. Qed.

(** * Properties *)

(** ** Index arrays *)

Section array_facts.
Context {A : Type}.
Implicit Types (arr vals : list A) (idx : list nat).

Lemma getitem_nil arr : np.getitem arr [] = Some [].
Proof. reflexivity. Qed.

Lemma getitem_cons arr i idx :
  np.getitem arr (i :: idx) =
  x ← arr !! i; xs ← np.getitem arr idx; Some (x :: xs).
Proof. reflexivity. Qed.

Lemma getitem_length arr idx xs :
  np.getitem arr idx = Some xs → length xs = length idx.
Proof. intros E. symmetry. exact (length_mapM _ _ _ E). Qed.

Lemma getitem_in_range arr idx :
  Forall (λ i, i < length arr) idx → is_Some (np.getitem arr idx).
Proof.
  induction 1 as [|i idx Hi _ [xs IH]]; [by eexists|].
  destruct (lookup_lt_is_Some_2 arr i Hi) as [x Hx].
  exists (x :: xs). by rewrite getitem_cons, Hx, IH.
Qed.

Lemma getitem_out_of_range arr idx :
  ¬ Forall (λ i, i < length arr) idx → np.getitem arr idx = None.
Proof.
  intros Hn. destruct (np.getitem arr idx) as [xs|] eqn:E; [|done].
  destruct Hn. apply mapM_Some_1 in E.
  induction E as [|i x idx xs Hx _ IH]; constructor; [|done].
  by eapply lookup_lt_Some.
Qed.

Lemma getitem_lookup_total `{Inhabited A} arr idx xs :
  np.getitem arr idx = Some xs → xs = (λ i, arr !!! i) <$> idx.
Proof.
  intros E. apply mapM_Some_1 in E.
  induction E as [|i x idx xs Hx _ IH]; [done|].
  simpl. f_equal; [|done]. by rewrite (list_lookup_total_correct _ _ _ Hx).
Qed.

Lemma getitem_insert_notin arr idx i x :
  i ∉ idx → np.getitem (<[i:=x]> arr) idx = np.getitem arr idx.
Proof.
  induction idx as [|j idx IH]; [done|].
  intros Hi. apply not_elem_of_cons in Hi as [Hij Hi].
  rewrite !getitem_cons, IH by done.
  by rewrite list_lookup_insert_ne.
Qed.

Lemma setitem_length arr idx vals :
  length (np.setitem arr idx vals) = length arr.
Proof.
  unfold np.setitem. revert arr vals.
  induction idx as [|i idx IH]; intros arr [|v vals]; simpl; try done.
  by rewrite IH, length_insert.
Qed.

Lemma setitem_lookup_notin arr idx vals p :
  p ∉ idx → np.setitem arr idx vals !! p = arr !! p.
Proof.
  unfold np.setitem. revert arr vals.
  induction idx as [|i idx IH]; intros arr [|v vals] Hp; simpl; try done.
  apply not_elem_of_cons in Hp as [Hpi Hp].
  rewrite IH by done. by rewrite list_lookup_insert_ne.
Qed.

Lemma broadcast_to_same n vals :
  length vals = n → np.broadcast_to n vals = Some vals.
Proof. intros E. unfold np.broadcast_to. by rewrite decide_True. Qed.

(** With as many values as indices, [arr[idx] += vals] needs no
    broadcasting. *)
Lemma iadd_same_length add arr idx vals :
  length vals = length idx →
  np.iadd add arr idx vals =
  old ← np.getitem arr idx; Some (np.setitem arr idx (zip_with add old vals)).
Proof.
  intros E. unfold np.iadd. destruct (np.getitem arr idx); simpl; [|done].
  by rewrite broadcast_to_same.
Qed.

Lemma iadd_nil add arr vals :
  length vals ≤ 1 → np.iadd add arr [] vals = Some arr.
Proof.
  intros Hl. unfold np.iadd. simpl.
  destruct vals as [|v [|??]]; simpl in *; try lia; reflexivity.
Qed.

Lemma iadd_out_of_range add arr idx vals :
  ¬ Forall (λ i, i < length arr) idx → np.iadd add arr idx vals = None.
Proof.
  intros Hn. unfold np.iadd. by rewrite getitem_out_of_range.
Qed.

Lemma iadd_length add arr idx vals arr' :
  np.iadd add arr idx vals = Some arr' → length arr' = length arr.
Proof.
  unfold np.iadd. intros E.
  destruct (np.getitem arr idx); simpl in E; [|done].
  destruct (np.broadcast_to _ _); simpl in E; [|done].
  injection E as <-. apply setitem_length.
Qed.

(** Pixels that are not indexed keep their value. *)
Lemma iadd_lookup_notin add arr idx vals arr' p :
  np.iadd add arr idx vals = Some arr' → p ∉ idx → arr' !! p = arr !! p.
Proof.
  unfold np.iadd. intros E Hp.
  destruct (np.getitem arr idx); simpl in E; [|done].
  destruct (np.broadcast_to _ _); simpl in E; [|done].
  injection E as <-. by apply setitem_lookup_notin.
Qed.

Lemma iadd_cons add arr i idx v vals a :
  length vals = length idx → i ∉ idx → arr !! i = Some a →
  np.iadd add arr (i :: idx) (v :: vals) =
  np.iadd add (<[i := add a v]> arr) idx vals.
Proof.
  intros El Hi Ha.
  rewrite !iadd_same_length by (simpl; congruence).
  rewrite getitem_cons, Ha, getitem_insert_notin by done. simpl.
  destruct (np.getitem arr idx) as [old|]; simpl; done.
Qed.

(** With distinct indices, every indexed pixel receives exactly its own
    increment. *)
Lemma iadd_fmap add arr idx (f : nat → A) :
  NoDup idx → Forall (λ i, i < length arr) idx →
  np.iadd add arr idx (f <$> idx) =
  Some (imap (λ p x, if decide (p ∈ idx) then add x (f p) else x) arr).
Proof.
  intros Hnd. revert arr.
  induction Hnd as [|i idx Hi Hnd IH]; intros arr Hr.
  - rewrite iadd_nil by (simpl; lia). f_equal.
    apply list_eq. intros p. rewrite list_lookup_imap.
    by destruct (arr !! p).
  - apply Forall_cons in Hr as [Hri Hr].
    destruct (lookup_lt_is_Some_2 arr i Hri) as [a Ha].
    rewrite fmap_cons, (iadd_cons _ _ _ _ _ _ a) by (by rewrite ?length_fmap).
    rewrite IH by (by rewrite length_insert). f_equal.
    apply list_eq. intros p. rewrite !list_lookup_imap.
    destruct (decide (p = i)) as [->|Hpi].
    + rewrite list_lookup_insert_eq, Ha by done. simpl.
      rewrite decide_False by done.
      by rewrite decide_True by apply list_elem_of_here.
    + rewrite list_lookup_insert_ne by done.
      destruct (arr !! p); simpl; [|done]. f_equal.
      destruct (decide (p ∈ idx)).
      * by rewrite decide_True by (by apply list_elem_of_further).
      * rewrite decide_False; [done|]. by intros [?|?]%elem_of_cons.
Qed.

Lemma split_from_length (a : list A) prev idx :
  length (np.split_from a prev idx) = S (length idx).
Proof. revert prev. induction idx; intros; simpl; [done|]. by rewrite IHidx. Qed.
End array_facts.

(** ** Sorted keys: what [np.unique] and [np.split] compute *)

Import GalaxyShear.

Section sorted_facts.
Context {V : Type}.
Implicit Types (sp : list (nat * V)) (p k : nat).

Local Abbreviation below p sp := (filter (λ pt : nat * V, pt.1 < p) sp).
Local Abbreviation above p sp := (filter (λ pt : nat * V, p < pt.1) sp).

Lemma filter_none {A} (P : A → Prop) `{∀ x, Decision (P x)} (l : list A) :
  Forall (λ x, ¬ P x) l → filter P l = [].
Proof.
  induction 1 as [|x l Hx _ IH]; [done|]. by rewrite filter_cons_False.
Qed.

(** A list sorted by key is its keys below [p], then the points of pixel
    [p], then the keys above. *)
Lemma sorted_three_way sp p :
  StronglySorted (≤) sp.*1 →
  sp = below p sp ++ in_pixel p sp ++ above p sp.
Proof.
  unfold in_pixel.
  induction sp as [|[k v] sp IH]; [done|].
  rewrite fmap_cons. intros [Hs Hall]%StronglySorted_inv.
  apply (proj1 (Forall_fmap fst _ sp)) in Hall. specialize (IH Hs).
  assert (Forall (λ pt : nat * V, k ≤ pt.1) sp) as Hall'
    by (eapply Forall_impl; [exact Hall|]; by intros []).
  rewrite !filter_cons. simpl.
  destruct (decide (k < p)), (decide (k = p)), (decide (p < k)); try lia.
  - simpl. by f_equal.
  - rewrite (filter_none (λ pt, pt.1 < p)) in IH |- *; simpl.
    + by f_equal.
    + eapply Forall_impl; [exact Hall'|]. simpl. intros; lia.
    + eapply Forall_impl; [exact Hall'|]. simpl. intros; lia.
  - rewrite (filter_none (λ pt, pt.1 < p)) in IH |- *; simpl.
    + rewrite (filter_none (λ pt, pt.1 = p)) in IH |- *; simpl.
      * by f_equal.
      * eapply Forall_impl; [exact Hall'|]. simpl. intros; lia.
      * eapply Forall_impl; [exact Hall'|]. simpl. intros; lia.
    + eapply Forall_impl; [exact Hall'|]. simpl. intros; lia.
    + eapply Forall_impl; [exact Hall'|]. simpl. intros; lia.
Qed.

Lemma values_three_way sp p :
  StronglySorted (≤) sp.*1 →
  sp.*2 = (below p sp).*2 ++ (in_pixel p sp).*2 ++ (above p sp).*2.
Proof.
  intros Hs. rewrite <-!fmap_app. f_equal. by apply sorted_three_way.
Qed.

(** In a sorted list the first occurrence of a key comes right after the
    smaller keys. *)
Lemma index_of_sorted (x : list nat) p :
  StronglySorted (≤) x → p ∈ x →
  np.index_of p x = length (filter (λ k, k < p) x).
Proof.
  induction x as [|k x IH]; [by intros _ ?%not_elem_of_nil|].
  intros [Hs Hall]%StronglySorted_inv Hp. simpl.
  rewrite filter_cons. destruct (decide (k = p)) as [->|Hkp].
  - rewrite decide_False by lia. rewrite filter_none; [done|].
    eapply Forall_impl; [exact Hall|]. simpl. intros; lia.
  - apply elem_of_cons in Hp as [?|Hp]; [congruence|].
    rewrite Forall_forall in Hall. specialize (Hall _ Hp).
    rewrite decide_True by lia. simpl. f_equal. by apply IH.
Qed.

Lemma length_below sp p :
  length (filter (λ k, k < p) sp.*1) = length (below p sp).
Proof.
  induction sp as [|[k v] sp IH]; [done|].
  rewrite fmap_cons, !filter_cons. simpl.
  destruct (decide (k < p)); simpl; by rewrite IH.
Qed.

(** The sections cut by [np.split] at the first occurrences of the distinct
    keys are the pixels' points. *)
Lemma split_from_sorted sp u0 us :
  StronglySorted (≤) sp.*1 →
  StronglySorted lt (u0 :: us) →
  (∀ k, k ∈ sp.*1 → u0 ≤ k → k ∈ u0 :: us) →
  np.split_from sp.*2 (length (below u0 sp))
                ((λ v, length (below v sp)) <$> us) =
  (λ p, (in_pixel p sp).*2) <$> (u0 :: us).
Proof.
  intros Hs. revert u0. induction us as [|u1 us IH]; intros u0 Hu Hk.
  - simpl. f_equal.
    rewrite (values_three_way sp u0 Hs).
    rewrite (filter_none (λ pt, u0 < pt.1)).
    + by rewrite fmap_nil, app_nil_r, <-(length_fmap snd), drop_app_length.
    + apply Forall_forall. intros [k v] Hin Hlt. simpl in Hlt.
      assert (k ∈ [u0]) as Hk0.
      { apply Hk; [|lia]. apply list_elem_of_fmap. by exists (k, v). }
      apply list_elem_of_singleton in Hk0. lia.
  - apply StronglySorted_inv in Hu as [Hu Hall].
    assert (u0 < u1) as H01 by (by apply Forall_cons in Hall as [? _]).
    assert (∀ k, k ∈ sp.*1 → u1 ≤ k → k ∈ u1 :: us) as Hk1.
    { intros k Hin Hle.
      destruct (proj1 (elem_of_cons _ _ _) (Hk k Hin ltac:(lia))) as [->|?];
        [lia|done]. }
    assert (∀ k, k ∈ sp.*1 → u0 < k → u1 ≤ k) as Hgap.
    { intros k Hin Hlt.
      destruct (proj1 (elem_of_cons _ _ _) (Hk k Hin ltac:(lia))) as [->|Hin'];
        [lia|].
      apply StronglySorted_inv in Hu as [_ Hall1].
      apply elem_of_cons in Hin' as [->|Hin']; [lia|].
      rewrite Forall_forall in Hall1. specialize (Hall1 _ Hin'). lia. }
    assert (below u1 sp = below u0 sp ++ in_pixel u0 sp) as Hb.
    { rewrite (sorted_three_way sp u0 Hs) at 1.
      rewrite !filter_app.
      rewrite (list_filter_filter_r (λ pt, pt.1 < u1) (λ pt, pt.1 < u0))
        by (intros; lia).
      unfold in_pixel.
      rewrite (list_filter_filter_r (λ pt, pt.1 < u1) (λ pt, pt.1 = u0))
        by (intros; lia).
      rewrite (filter_none (λ pt, pt.1 < u1)); [by rewrite app_nil_r|].
      apply Forall_forall. intros [k v] [Hlt Hin]%list_elem_of_filter Hlt1.
      simpl in *. assert (u1 ≤ k); [|lia].
      apply Hgap; [|done]. apply list_elem_of_fmap. by exists (k, v). }
    rewrite fmap_cons. simpl np.split_from. rewrite (fmap_cons _ u0).
    f_equal.
    + rewrite Hb, length_app.
      replace (length (below u0 sp) + length (in_pixel u0 sp) -
               length (below u0 sp)) with (length (in_pixel u0 sp)) by lia.
      rewrite (values_three_way sp u0 Hs).
      rewrite <-!(length_fmap snd (below u0 sp)), drop_app_length.
      by rewrite <-(length_fmap snd (in_pixel u0 sp)), take_app_length.
    + by apply IH.
Qed.
End sorted_facts.

Section unique_facts.
Implicit Types (x u : list nat).

Lemma merge_sort_sorted x :
  StronglySorted (≤) x → merge_sort (≤) x = x.
Proof.
  intros Hs. apply (StronglySorted_unique (≤)); [|done|].
  - apply StronglySorted_merge_sort; apply _.
  - apply merge_sort_Permutation.
Qed.

Lemma remove_dups_sorted x :
  StronglySorted (≤) x → StronglySorted lt (remove_dups x).
Proof.
  induction x as [|k x IH]; [constructor|].
  intros [Hs Hall]%StronglySorted_inv. simpl.
  destruct (decide_rel _ k x) as [Hin|Hin]; [by apply IH|].
  constructor; [by apply IH|].
  apply Forall_forall. intros y Hy. rewrite elem_of_remove_dups in Hy.
  rewrite Forall_forall in Hall. specialize (Hall _ Hy).
  assert (y ≠ k) by congruence. lia.
Qed.

Lemma unique_sorted x :
  StronglySorted (≤) x →
  np.unique x =
  (remove_dups x, (λ v, np.index_of v x) <$> remove_dups x,
   (λ v, np.count_of v x) <$> remove_dups x).
Proof. intros Hs. unfold np.unique. by rewrite merge_sort_sorted. Qed.
End unique_facts.

(** ** The reduction of one batch, in closed form *)

Section reduce_facts.
Context {V : Type} `{Accum V}.
Implicit Types (m : maps V) (pts sp : list (nat * V)) (s : list nat).

Lemma getitem_fmap {A B} (f : A → B) (l : list A) s :
  np.getitem (f <$> l) s = fmap (M:=list) f <$> np.getitem l s.
Proof.
  induction s as [|i s IH]; [done|].
  rewrite !getitem_cons, list_lookup_fmap, IH.
  destruct (l !! i); simpl; [|done]. by destruct (np.getitem l s).
Qed.

Lemma count_of_keys sp p :
  np.count_of p sp.*1 = length (in_pixel p sp).
Proof.
  unfold np.count_of, in_pixel.
  induction sp as [|[k v] sp IH]; [done|].
  rewrite fmap_cons, !filter_cons. simpl.
  destruct (decide (k = p)); simpl; by rewrite IH.
Qed.

Lemma in_pixel_absent sp p : p ∉ sp.*1 → in_pixel p sp = [].
Proof.
  intros Hp. apply filter_none, Forall_forall.
  intros [k v] Hin ?. simpl in *. subst k.
  apply Hp, list_elem_of_fmap. by exists (p, v).
Qed.

Lemma in_pixel_present sp p : p ∈ sp.*1 → 0 < length (in_pixel p sp).
Proof.
  intros ([k v] & -> & Hin)%list_elem_of_fmap.
  assert ((k, v) ∈ in_pixel (k, v).1 sp) as Hin'
    by (by apply list_elem_of_filter).
  destruct (in_pixel _ sp); [by apply not_elem_of_nil in Hin'|simpl; lia].
Qed.

(** The sections handed to [np.sum], for keys already sorted. *)
Lemma split_sections sp :
  StronglySorted (≤) sp.*1 → sp ≠ [] →
  np.split sp.*2 (tail ((λ v, np.index_of v sp.*1) <$> remove_dups sp.*1)) =
  (λ p, (in_pixel p sp).*2) <$> remove_dups sp.*1.
Proof.
  intros Hs Hne.
  pose proof (remove_dups_sorted _ Hs) as Hu.
  assert (∀ k, k ∈ sp.*1 → k ∈ remove_dups sp.*1) as Hall
    by (intros; by apply elem_of_remove_dups).
  destruct (remove_dups sp.*1) as [|u0 us] eqn:Eu.
  { destruct sp as [|[k v] sp]; [done|].
    by destruct (not_elem_of_nil k); apply Hall, list_elem_of_here. }
  rewrite fmap_cons. simpl tail. unfold np.split.
  assert (length (filter (λ pt : nat * V, pt.1 < u0) sp) = 0) as E0.
  { rewrite filter_none; [done|]. apply Forall_forall.
    intros [k v] Hin. simpl.
    assert (k ∈ u0 :: us) as [->|Hk]%elem_of_cons
      by (apply Hall, list_elem_of_fmap; by exists (k, v)); [lia|].
    apply StronglySorted_inv in Hu as [_ Hlt].
    rewrite Forall_forall in Hlt. specialize (Hlt _ Hk). lia. }
  rewrite <-E0 at 1.
  rewrite <-(split_from_sorted sp u0 us Hs Hu) by (intros; by apply Hall).
  f_equal. apply Forall_fmap_ext_1, Forall_forall. intros v Hv.
  rewrite <-length_below. apply index_of_sorted; [done|].
  apply elem_of_remove_dups. rewrite Eu. by apply list_elem_of_further.
Qed.

Lemma imap_id {A} (l : list A) : imap (λ _ x, x) l = l.
Proof.
  apply list_eq. intros i. rewrite list_lookup_imap. by destruct (l !! i).
Qed.

(** What one pass of the loop body does to the maps, when [s] sorts the
    batch into [sp]. *)
Lemma reduce_with_sorted s m pts sp :
  np.getitem pts s = Some sp →
  StronglySorted (≤) sp.*1 →
  in_range m sp →
  reduce_with s m pts.*1 pts.*2 =
  Some {| num := imap (λ p c, (c + pixel_count p sp)%Z) (num m);
          she := imap (λ p x, if decide (p ∈ sp.*1)
                              then aadd x (np.sum (in_pixel p sp).*2)
                              else x) (she m) |}.
Proof.
  intros Hg Hs Hr. unfold reduce_with.
  rewrite !getitem_fmap, Hg. simpl.
  rewrite !(merge_sort_sorted _ Hs).
  assert (NoDup (remove_dups sp.*1)) as Hnd by apply NoDup_remove_dups.
  assert (Forall (λ i, i < length (num m)) (remove_dups sp.*1) ∧
          Forall (λ i, i < length (she m)) (remove_dups sp.*1)) as [Hrn Hrs].
  { unfold in_range in Hr. rewrite Forall_forall in Hr.
    split; apply Forall_forall; intros p Hp;
      rewrite elem_of_remove_dups in Hp;
      apply list_elem_of_fmap in Hp as ([k v] & -> & Hin);
      by destruct (Hr _ Hin). }
  rewrite <-list_fmap_compose, (iadd_fmap Z.add) by done. simpl.
  destruct (decide (sp = [])) as [->|Hne].
  - simpl. f_equal. f_equal; [|by rewrite imap_id].
    apply imap_ext. intros p c _. unfold pixel_count. simpl. lia.
  - rewrite (split_sections sp Hs Hne), <-list_fmap_compose.
    rewrite (iadd_fmap aadd) by done. simpl.
    f_equal. f_equal.
    + apply imap_ext. intros p c _. simpl.
      unfold pixel_count. rewrite <-count_of_keys.
      destruct (decide (p ∈ remove_dups sp.*1)) as [|Hn]; [done|].
      rewrite elem_of_remove_dups in Hn.
      rewrite count_of_keys, in_pixel_absent by done. simpl. lia.
    + apply imap_ext. intros p x _. simpl.
      destruct (decide (p ∈ remove_dups sp.*1)) as [Hp|Hn].
      * rewrite elem_of_remove_dups in Hp. by rewrite decide_True.
      * rewrite elem_of_remove_dups in Hn. by rewrite decide_False.
Qed.

(** A point outside the maps is an IndexError. *)
Lemma reduce_with_out_of_range s m pts sp :
  np.getitem pts s = Some sp →
  StronglySorted (≤) sp.*1 →
  ¬ in_range m sp →
  reduce_with s m pts.*1 pts.*2 = None.
Proof.
  intros Hg Hs Hr. unfold reduce_with.
  rewrite !getitem_fmap, Hg. simpl.
  rewrite !(merge_sort_sorted _ Hs).
  destruct (decide (Forall (λ i, i < length (num m)) (remove_dups sp.*1)))
    as [Hrn|Hrn];
    [|rewrite (iadd_out_of_range Z.add (num m)) by done; reflexivity].
  destruct (np.iadd Z.add _ _ _); simpl; [|done].
  rewrite (iadd_out_of_range aadd (she m)); [reflexivity|].
  intros Hrs. apply Hr, Forall_forall. intros [k v] Hin.
  rewrite Forall_forall in Hrn, Hrs.
  assert (k ∈ remove_dups sp.*1) as Hk.
  { apply elem_of_remove_dups, list_elem_of_fmap. by exists (k, v). }
  split; simpl; auto.
Qed.
End reduce_facts.

(** ** Sorting permutations *)

Section sorting_facts.
Context {A : Type} `{Inhabited A}.

Lemma fmap_lookup_total_seq (l : list A) :
  (λ i, l !!! i) <$> seq 0 (length l) = l.
Proof.
  apply list_eq. intros i. rewrite list_lookup_fmap.
  destruct (decide (i < length l)) as [Hi|Hi].
  - rewrite lookup_seq_lt by done. simpl.
    by rewrite <-list_lookup_lookup_total_lt.
  - rewrite lookup_seq_ge, lookup_ge_None_2 by lia. done.
Qed.

Lemma getitem_total (l : list A) (s : list nat) :
  Forall (λ i, i < length l) s →
  np.getitem l s = Some ((λ i, l !!! i) <$> s).
Proof.
  intros Hs. destruct (getitem_in_range l s Hs) as [xs E].
  by rewrite E, (getitem_lookup_total _ _ _ E).
Qed.

(** Indexing with a permutation of all positions succeeds and permutes. *)
Lemma getitem_permutation (l : list A) (s : list nat) :
  s ≡ₚ seq 0 (length l) →
  ∃ l', np.getitem l s = Some l' ∧ l' ≡ₚ l.
Proof.
  intros Hp. exists ((λ i, l !!! i) <$> s). split.
  - apply getitem_total, Forall_forall. intros i Hi.
    rewrite Hp in Hi. apply elem_of_seq in Hi. lia.
  - rewrite Hp. by rewrite fmap_lookup_total_seq.
Qed.
End sorting_facts.

(** The model's [np.argsort] returns a permutation that sorts. *)
Lemma argsort_sorts (a : list nat) : np.sorts a (np.argsort a).
Proof.
  split.
  - apply merge_sort_Permutation.
  - apply (StronglySorted_fmap _ (np.key_le a)); [done|].
    apply StronglySorted_merge_sort; apply _.
Qed.

(** Indexing a batch with a permutation that sorts its pixels gives the same
    points, sorted by pixel. *)
Lemma sorts_getitem {V} `{Accum V} (s : list nat) (pts : list (nat * V)) :
  np.sorts pts.*1 s →
  ∃ sp, np.getitem pts s = Some sp ∧ sp ≡ₚ pts ∧ StronglySorted (≤) sp.*1.
Proof.
  intros [Hperm Hsorted]. rewrite length_fmap in Hperm.
  destruct (getitem_permutation pts s Hperm) as (sp & Hg & Hsp).
  exists sp. split_and!; [done..|].
  pose proof (getitem_lookup_total _ _ _ Hg) as ->.
  rewrite <-list_fmap_compose.
  erewrite (Forall_fmap_ext_1 _ (λ i, pts.*1 !!! i)); [done|].
  apply Forall_forall. intros i Hi. simpl.
  rewrite (list_lookup_total_fmap fst pts i); [done|].
  rewrite Hperm in Hi. apply elem_of_seq in Hi. lia.
Qed.

(** ** Exact sums *)

Section exact_sums.
Context {V : Type} `{AccumLaws V}.
Implicit Types (m : maps V) (pts sp : list (nat * V)) (s : list nat).

Lemma aadd_zero_r (x : V) : aadd x azero = x.
Proof. by rewrite aadd_comm, aadd_zero_l. Qed.

Lemma foldl_aadd (a : V) (l : list V) :
  foldl aadd a l = aadd a (foldr aadd azero l).
Proof.
  revert a. induction l as [|x l IH]; intros a; simpl.
  - by rewrite aadd_zero_r.
  - by rewrite IH, aadd_assoc.
Qed.

(** [np.sum] computes the sum, whatever the order of the additions. *)
Lemma np_sum_foldr (l : list V) : np.sum l = foldr aadd azero l.
Proof. unfold np.sum. by rewrite foldl_aadd, aadd_zero_l. Qed.

Lemma foldr_aadd_permutation (l l' : list V) :
  l ≡ₚ l' → foldr aadd azero l = foldr aadd azero l'.
Proof.
  induction 1 as [|x l l' _ IH|x y l|l l' l'' _ IH1 _ IH2]; simpl.
  - done.
  - by rewrite IH.
  - by rewrite !aadd_assoc, (aadd_comm y x).
  - by rewrite IH1.
Qed.

Lemma in_pixel_permutation p pts pts' :
  pts ≡ₚ pts' → in_pixel p pts ≡ₚ in_pixel p pts'.
Proof. intros Hp. unfold in_pixel. by rewrite Hp. Qed.

Lemma pixel_count_permutation p pts pts' :
  pts ≡ₚ pts' → pixel_count p pts = pixel_count p pts'.
Proof.
  intros Hp. unfold pixel_count.
  by rewrite (Permutation_length (in_pixel_permutation p _ _ Hp)).
Qed.

Lemma pixel_sum_permutation p pts pts' :
  pts ≡ₚ pts' → pixel_sum p pts = pixel_sum p pts'.
Proof.
  intros Hp. unfold pixel_sum. apply foldr_aadd_permutation.
  by rewrite (in_pixel_permutation p _ _ Hp).
Qed.

Lemma add_aggregate_permutation m pts pts' :
  pts ≡ₚ pts' → add_aggregate m pts = add_aggregate m pts'.
Proof.
  intros Hp. unfold add_aggregate. f_equal; apply imap_ext; intros p x _.
  - by rewrite (pixel_count_permutation p _ _ Hp).
  - by rewrite (pixel_sum_permutation p _ _ Hp).
Qed.

Lemma in_range_permutation m pts pts' :
  pts ≡ₚ pts' → in_range m pts ↔ in_range m pts'.
Proof. intros Hp. unfold in_range. by rewrite Hp. Qed.

(** The loop body with any sorting permutation adds the aggregate of the
    batch, or raises when a pixel is out of range. *)
Lemma reduce_with_sorts s m pts :
  np.sorts pts.*1 s →
  reduce_with s m pts.*1 pts.*2 =
  if decide (in_range m pts) then Some (add_aggregate m pts) else None.
Proof.
  intros Hsorts.
  destruct (sorts_getitem s pts Hsorts) as (sp & Hg & Hsp & Hs).
  destruct (decide (in_range m pts)) as [Hr|Hr].
  - rewrite (reduce_with_sorted s m pts sp Hg Hs)
      by (by apply (in_range_permutation m sp pts)).
    rewrite <-(add_aggregate_permutation m sp pts Hsp).
    unfold add_aggregate. f_equal. f_equal.
    apply imap_ext. intros p x _. simpl.
    unfold pixel_sum. rewrite <-np_sum_foldr.
    destruct (decide (p ∈ sp.*1)) as [|Hn]; [done|].
    rewrite in_pixel_absent by done. simpl. by rewrite aadd_zero_r.
  - apply (reduce_with_out_of_range s m pts sp Hg Hs).
    by rewrite (in_range_permutation m sp pts).
Qed.
End exact_sums.

(** ** The naive linear scan, in closed form *)

Section scan_facts.
Context {V : Type} `{Accum V}.
Implicit Types (m : maps V) (pts : list (nat * V)).

Lemma in_pixel_cons p q (v : V) pts :
  in_pixel q ((p, v) :: pts) =
  if decide (p = q) then (p, v) :: in_pixel q pts else in_pixel q pts.
Proof. unfold in_pixel. by rewrite filter_cons. Qed.

Lemma in_range_cons m p (v : V) pts :
  in_range m ((p, v) :: pts) ↔
  (p < length (num m) ∧ p < length (she m)) ∧ in_range m pts.
Proof. unfold in_range. by rewrite Forall_cons. Qed.

Lemma in_range_insert m p (n : Z) (x : V) pts :
  in_range {| num := <[p:=n]> (num m); she := <[p:=x]> (she m) |} pts ↔
  in_range m pts.
Proof. unfold in_range. simpl. by rewrite !length_insert. Qed.

Lemma linear_scan_app m b1 b2 :
  linear_scan m (b1 ++ b2) = m' ← linear_scan m b1; linear_scan m' b2.
Proof.
  revert m. induction b1 as [|pt b1 IH]; intros m; simpl; [done|].
  destruct (add_point m pt) as [m1|]; simpl; [apply IH|done].
Qed.

(** Each pixel receives one count per point and the values of its points,
    added from the left in arrival order. *)
Lemma linear_scan_closed m pts :
  linear_scan m pts =
  if decide (in_range m pts)
  then Some {| num := imap (λ p c, (c + pixel_count p pts)%Z) (num m);
               she := imap (λ p x, foldl aadd x (in_pixel p pts).*2) (she m) |}
  else None.
Proof.
  revert m. induction pts as [|[p v] pts IH]; intros m.
  - cbn [linear_scan]. rewrite decide_True by constructor. f_equal.
    destruct m as [n s]. simpl. f_equal.
    + rewrite <-(imap_id n) at 1. apply imap_ext. intros; simpl.
      unfold pixel_count. simpl. lia.
    + by rewrite imap_id.
  - simpl linear_scan. unfold add_point. simpl.
    destruct (num m !! p) as [n|] eqn:En; simpl.
    2:{ rewrite decide_False; [done|]. rewrite in_range_cons.
        apply lookup_ge_None in En. lia. }
    destruct (she m !! p) as [x|] eqn:Ex; simpl.
    2:{ rewrite decide_False; [done|]. rewrite in_range_cons.
        apply lookup_ge_None in Ex. lia. }
    pose proof (lookup_lt_Some _ _ _ En) as Hn.
    pose proof (lookup_lt_Some _ _ _ Ex) as Hx.
    rewrite IH. simpl.
    destruct (decide (in_range _ pts)) as [Hr|Hr];
      rewrite in_range_insert in Hr.
    2:{ rewrite decide_False; [done|]. rewrite in_range_cons. tauto. }
    rewrite decide_True by (by rewrite in_range_cons). f_equal. f_equal.
    + apply list_eq. intros q. rewrite !list_lookup_imap.
      unfold pixel_count. rewrite in_pixel_cons.
      destruct (decide (p = q)) as [<-|Hpq].
      * rewrite list_lookup_insert_eq, En by done. simpl. f_equal. lia.
      * by rewrite list_lookup_insert_ne by done.
    + apply list_eq. intros q. rewrite !list_lookup_imap.
      rewrite in_pixel_cons.
      destruct (decide (p = q)) as [<-|Hpq].
      * by rewrite list_lookup_insert_eq, Ex by done.
      * by rewrite list_lookup_insert_ne by done.
Qed.
End scan_facts.

Section scan_exact.
Context {V : Type} `{AccumLaws V}.
Implicit Types (m : maps V) (pts : list (nat * V)).

Lemma linear_scan_aggregate m pts :
  linear_scan m pts =
  if decide (in_range m pts) then Some (add_aggregate m pts) else None.
Proof.
  rewrite linear_scan_closed. destruct (decide (in_range m pts)); [|done].
  unfold add_aggregate, pixel_sum. f_equal. f_equal.
  apply imap_ext. intros p x _. apply foldl_aadd.
Qed.

Lemma reduce_with_linear_scan s m pts :
  np.sorts pts.*1 s → reduce_with s m pts.*1 pts.*2 = linear_scan m pts.
Proof.
  intros Hs. by rewrite (reduce_with_sorts s m pts Hs), linear_scan_aggregate.
Qed.

Lemma reduce_points_linear_scan m pts :
  reduce_points m pts = linear_scan m pts.
Proof. apply reduce_with_linear_scan, argsort_sorts. Qed.

Lemma linear_scan_permutation m pts pts' :
  pts ≡ₚ pts' → linear_scan m pts = linear_scan m pts'.
Proof.
  intros Hp. rewrite !linear_scan_aggregate.
  rewrite (add_aggregate_permutation m pts pts' Hp).
  destruct (decide (in_range m pts)) as [Hr|Hr].
  - by rewrite decide_True by (by apply (in_range_permutation m pts pts')).
  - rewrite decide_False; [done|].
    by rewrite <-(in_range_permutation m pts pts').
Qed.
End scan_exact.

(** ** What holds for every value type, exact or not *)

Section any_values.
Context {V : Type} `{Accum V}.
Implicit Types (m : maps V) (pts sp : list (nat * V)) (s : list nat).

(** A successful pass of the loop body, for any sorting permutation. *)
Lemma reduce_with_Some s m pts m' :
  np.sorts pts.*1 s →
  reduce_with s m pts.*1 pts.*2 = Some m' →
  ∃ sp, sp ≡ₚ pts ∧ in_range m sp ∧
    m' = {| num := imap (λ p c, (c + pixel_count p sp)%Z) (num m);
            she := imap (λ p x, if decide (p ∈ sp.*1)
                                then aadd x (np.sum (in_pixel p sp).*2)
                                else x) (she m) |}.
Proof.
  intros Hsorts E.
  destruct (sorts_getitem s pts Hsorts) as (sp & Hg & Hsp & Hs).
  exists sp. split; [done|].
  destruct (decide (in_range m sp)) as [Hr|Hr].
  - rewrite (reduce_with_sorted s m pts sp Hg Hs Hr) in E.
    by injection E as <-.
  - by rewrite (reduce_with_out_of_range s m pts sp Hg Hs Hr) in E.
Qed.

(** The counts do not depend on how values are added. *)
Lemma reduce_with_counts s m pts :
  np.sorts pts.*1 s →
  num <$> reduce_with s m pts.*1 pts.*2 = num <$> linear_scan m pts.
Proof.
  intros Hs. rewrite linear_scan_closed.
  destruct (reduce_with s m pts.*1 pts.*2) as [m'|] eqn:E.
  - destruct (reduce_with_Some s m pts m' Hs E) as (sp & Hsp & Hr & ->).
    rewrite decide_True.
    2:{ unfold in_range in *. by rewrite <-Hsp. }
    simpl. f_equal. apply imap_ext. intros p c _.
    unfold pixel_count, in_pixel. by rewrite Hsp.
  - destruct (decide (in_range m pts)) as [Hr|Hr]; [|done].
    destruct (sorts_getitem s pts Hs) as (sp & Hg & Hsp & Hs').
    rewrite (reduce_with_sorted s m pts sp Hg Hs') in E; [done|].
    unfold in_range in *. by rewrite Hsp.
Qed.

Lemma coupled_zeros npix : coupled (zeros npix).
Proof.
  split; simpl; [by rewrite !length_replicate|].
  intros p c [-> Hp]%lookup_replicate. split; [done|].
  intros _. by apply lookup_replicate.
Qed.

Lemma coupled_reduce_points m pts m' :
  coupled m → reduce_points m pts = Some m' → coupled m'.
Proof.
  intros [Hlen Hinv] E.
  destruct (reduce_with_Some _ m pts m' (argsort_sorts _) E)
    as (sp & Hsp & Hr & ->).
  split; simpl; [by rewrite !length_imap|].
  intros p c' (c & Hc & ->)%list_lookup_imap_Some.
  destruct (Hinv p c Hc) as [Hc0 Hz].
  assert (0 ≤ pixel_count p sp)%Z as Hn by (unfold pixel_count; lia).
  split; [lia|]. intros Hsum.
  assert (c = 0%Z) as -> by lia.
  rewrite list_lookup_imap, (Hz eq_refl). simpl.
  rewrite decide_False; [done|]. intros Hin%in_pixel_present.
  unfold pixel_count in Hsum. lia.
Qed.

Lemma coupled_reduce_all m batches m' :
  coupled m → reduce_all m batches = Some m' → coupled m'.
Proof.
  revert m. induction batches as [|b bs IH]; intros m Hm E; simpl in E.
  - by injection E as <-.
  - destruct (reduce_points m b) as [m1|] eqn:E1; simpl in E; [|done].
    eapply IH; [|done]. by eapply coupled_reduce_points.
Qed.

(** The reduction is total on batches whose pixels exist. *)
Lemma reduce_points_in_range m pts :
  in_range m pts → is_Some (reduce_points m pts).
Proof.
  intros Hr. unfold reduce_points, reduce.
  destruct (sorts_getitem _ pts (argsort_sorts pts.*1))
    as (sp & Hg & Hsp & Hs).
  rewrite (reduce_with_sorted _ m pts sp Hg Hs); [by eexists|].
  unfold in_range in *. by rewrite Hsp.
Qed.
End any_values.

(** ** The analysis cell *)

Section analysis_facts.
Implicit Types (v x y : list R) (n i j k : nat).

Lemma lookup_arange n i : i < n → np.arange n !! i = Some (Z.of_nat i).
Proof.
  intros Hi. unfold np.arange.
  by rewrite list_lookup_fmap, lookup_seq_lt.
Qed.

Lemma lookup_arange_Some n i l : np.arange n !! i = Some l → l = Z.of_nat i.
Proof.
  unfold np.arange. rewrite list_lookup_fmap.
  destruct (seq 0 n !! i) as [j|] eqn:E; [|done].
  apply lookup_seq in E as [-> _]. simpl. congruence.
Qed.

Lemma elementwise_same_length {A} (f : A → A → A) (a b : list A) :
  length a = length b → np.elementwise f a b = Some (zip_with f a b).
Proof. intros E. unfold np.elementwise. by rewrite decide_True. Qed.

Lemma zip_with_minus_zeros v :
  zip_with Rminus v (replicate (length v) 0%R) = v.
Proof. induction v as [|a v IH]; simpl; [done|]. rewrite IH. f_equal. lra. Qed.

Lemma zip_with_mult_ones v :
  zip_with Rmult (replicate (length v) 1%R) v = v.
Proof. induction v as [|a v IH]; simpl; [done|]. rewrite IH. f_equal. lra. Qed.

(** The product of row [i] of the identity with a vector picks entry [i]. *)
Lemma dot_eye_row v k i :
  np.dot ((λ j, if decide (i = j) then 1%R else 0%R) <$> seq k (length v)) v =
  if decide (k ≤ i) then default 0%R (v !! (i - k)) else 0%R.
Proof.
  revert k. induction v as [|a v IH]; intros k.
  - simpl. by destruct (decide (k ≤ i)).
  - simpl. unfold np.dot in *. simpl. rewrite IH.
    destruct (decide (i = k)) as [->|Hik].
    + rewrite decide_False, decide_True by lia.
      replace (k - k) with 0 by lia. simpl. lra.
    + destruct (decide (k ≤ i)).
      * rewrite decide_True by lia.
        replace (i - k) with (S (i - S k)) by lia. simpl. lra.
      * rewrite decide_False by lia. lra.
Qed.

Lemma eye_rows n m row :
  row ∈ np.eye n m → length row = m.
Proof.
  unfold np.eye. intros (i & -> & _)%list_elem_of_fmap.
  by rewrite length_fmap, length_seq.
Qed.

(** [np.eye(n, n) @ v] is [v]. *)
Lemma matvec_eye v :
  np.matvec (np.eye (length v) (length v)) v = Some v.
Proof.
  unfold np.matvec. rewrite decide_True.
  2:{ apply Forall_forall. intros row. apply eye_rows. }
  f_equal. unfold np.eye. rewrite <-list_fmap_compose.
  apply list_eq. intros i. rewrite list_lookup_fmap.
  destruct (decide (i < length v)) as [Hi|Hi].
  - rewrite lookup_seq_lt by done. simpl. rewrite dot_eye_row.
    rewrite decide_True by lia. replace (i - 0) with i by lia.
    by destruct (lookup_lt_is_Some_2 v i Hi) as [a ->].
  - rewrite lookup_seq_ge, lookup_ge_None_2 by lia. done.
Qed.

(** Entries of the noise level and of the mixing matrix below [l = 2]. *)
Lemma nl_at_low q sigma_e (l : Z) :
  (l < 2)%Z → nl_at q sigma_e l = 0%R.
Proof. intros Hl. unfold nl_at. rewrite decide_False by lia. lra. Qed.

(** The Python quotient raises exactly at a zero divisor. *)
Lemma truediv_Some (a b : R) :
  b ≠ 0%R → py.truediv a b = Some (a / b)%R.
Proof. intros Hb. unfold py.truediv. by destruct (Req_dec_T b 0). Qed.

Lemma truediv_None (a b : R) : py.truediv a b = None ↔ b = 0%R.
Proof. unfold py.truediv. by destruct (Req_dec_T b 0). Qed.

Lemma zero_rows_lookup k (m : list (list R)) i row j a :
  zero_rows k m !! i = Some row → row !! j = Some a → i < k → a = 0%R.
Proof.
  unfold zero_rows. intros (r & Hr & ->)%list_lookup_imap_Some Hj Hi.
  rewrite decide_True in Hj by done. rewrite list_lookup_fmap in Hj.
  destruct (r !! j); simpl in Hj; congruence.
Qed.

Lemma zero_cols_lookup k (m : list (list R)) i row j a :
  zero_cols k m !! i = Some row → row !! j = Some a →
  (j < k → a = 0%R) ∧
  (k ≤ j → ∃ r, m !! i = Some r ∧ r !! j = Some a).
Proof.
  unfold zero_cols. rewrite list_lookup_fmap.
  destruct (m !! i) as [r|] eqn:Er; simpl; [|done].
  intros [= <-] (b & Hb & ->)%list_lookup_imap_Some. split.
  - intros Hj. by rewrite decide_True.
  - intros Hj. rewrite decide_False by lia. by exists r.
Qed.
End analysis_facts.

(** ** The convergence-to-shear factor *)

Section shear_facts.
Lemma wrap_0 w : np.wrap w 0 = 0%Z.
Proof.
  unfold np.wrap. rewrite Z.add_0_l.
  destruct (decide (0 < w)%Z) as [Hw|Hw].
  - rewrite Z.mod_small; [lia|]. split; [apply Z.pow_nonneg; lia|].
    apply Z.pow_lt_mono_r; lia.
  - rewrite (Z.pow_neg_r 2 (w - 1)) by lia. rewrite Zmod_0_l. lia.
Qed.

(** A value that fits the width is stored as it is. *)
Lemma wrap_small w n :
  (0 < w)%Z → (- 2 ^ (w - 1) ≤ n < 2 ^ (w - 1))%Z → np.wrap w n = n.
Proof.
  intros Hw Hn. unfold np.wrap.
  assert (2 ^ w = 2 * 2 ^ (w - 1))%Z as E.
  { rewrite <-Z.pow_succ_r by lia. f_equal. lia. }
  rewrite Z.mod_small; lia.
Qed.

Lemma fl_at_0 w : fl_at w 0 = 0%R.
Proof.
  unfold fl_at, fl_num. rewrite Z.mul_0_r, wrap_0, Z.mul_0_l, wrap_0.
  unfold Rdiv. lra.
Qed.

Lemma fl_at_1 w : fl_at w 1 = 0%R.
Proof.
  unfold fl_at, fl_num. change (1 - 1)%Z with 0%Z.
  rewrite wrap_0, Z.mul_0_r, wrap_0. unfold Rdiv. lra.
Qed.
End shear_facts.

(** ** [np.searchsorted] *)

Section searchsorted_facts.
Context {A : Type} {lt : relation A} `{!RelDecision lt}.
Implicit Types (a : list A) (v x : A) (i j : nat).

Lemma searchsorted_le_length a v : np.searchsorted (lt:=lt) a v ≤ length a.
Proof.
  induction a as [|x a IH]; simpl; [done|].
  destruct (decide (lt x v)); lia.
Qed.

(** The result is at most the position of any element that is not below
    [v]. *)
Lemma searchsorted_le_index a v i x :
  a !! i = Some x → ¬ lt x v → np.searchsorted (lt:=lt) a v ≤ i.
Proof.
  revert i. induction a as [|y a IH]; intros i Hi Hx; [done|]. simpl.
  destruct i as [|i]; simpl in Hi.
  - injection Hi as ->. rewrite decide_False by done. lia.
  - destruct (decide (lt y v)); [|lia].
    apply le_n_S. by apply IH.
Qed.

(** Everything before the result is below [v], and the element at the
    result is not: the bin found is the first one with
    [not (upper_edge < v)]. *)
Lemma searchsorted_spec a v :
  (∀ j x, j < np.searchsorted (lt:=lt) a v → a !! j = Some x → lt x v) ∧
  (∀ x, a !! np.searchsorted (lt:=lt) a v = Some x → ¬ lt x v).
Proof.
  induction a as [|y a [IH1 IH2]]; simpl; [by split|].
  destruct (decide (lt y v)) as [Hy|Hy]; split.
  - intros [|j] x Hj Hx; simpl in Hx; [congruence|].
    apply (IH1 j); [lia|done].
  - intros x Hx. simpl in Hx. by apply IH2.
  - intros j x Hj. lia.
  - intros x [= <-]. done.
Qed.

(** On strictly increasing edges, a value equal to an edge is found at the
    position of that edge. *)
Lemma searchsorted_at_edge `{!StrictOrder lt} a i e :
  StronglySorted lt a → a !! i = Some e → np.searchsorted (lt:=lt) a e = i.
Proof.
  intros Hs. revert i. induction Hs as [|x a Hs IH Hall]; intros i Hi; [done|].
  simpl. destruct i as [|i]; simpl in Hi.
  - injection Hi as ->. rewrite decide_False; [done|]. apply irreflexivity, _.
  - rewrite Forall_forall in Hall.
    rewrite decide_True by (by eapply Hall, list_elem_of_lookup_2).
    f_equal. by apply IH.
Qed.
End searchsorted_facts.

(** ** The grid of the cube *)

Section grid_facts.
Import GalaxyDensity.
Implicit Types (zmax : R) (i : nat).

Lemma StronglySorted_seq j n : StronglySorted Nat.lt (seq j n).
Proof.
  revert j. induction n as [|n IH]; intros j; simpl; constructor; [apply IH|].
  apply Forall_forall. intros k Hk%elem_of_seq. lia.
Qed.

(** The edges in closed form: edge [i] of 21 is [zmax * (i / 10 - 1)]. *)
Lemma zcub_closed zmax :
  zcub zmax = (λ i, (zmax * (INR i / 10 - 1))%R) <$> seq 0 21.
Proof.
  unfold zcub, np.linspace.
  replace (INR (21 - 1)) with 20%R by (simpl; lra).
  apply list_eq. intros i.
  destruct (decide (i = 20)) as [->|Hi].
  - rewrite list_lookup_insert_eq by (rewrite length_fmap, length_seq; simpl; lia).
    rewrite list_lookup_fmap. simpl. f_equal. lra.
  - rewrite list_lookup_insert_ne by done.
    rewrite !list_lookup_fmap. destruct (seq 0 21 !! i); simpl; [|done].
    f_equal. lra.
Qed.

Lemma zcub_length zmax : length (zcub zmax) = 21.
Proof. by rewrite zcub_closed, length_fmap, length_seq. Qed.

Lemma zcub_lookup zmax i :
  i < 21 → zcub zmax !! i = Some (zmax * (INR i / 10 - 1))%R.
Proof.
  intros Hi. by rewrite zcub_closed, list_lookup_fmap, lookup_seq_lt.
Qed.

Lemma zcub_last zmax : zcub zmax !! 20 = Some zmax.
Proof.
  unfold zcub, np.linspace.
  by rewrite list_lookup_insert_eq by (rewrite length_fmap, length_seq; simpl; lia).
Qed.

Lemma zcub_increasing zmax :
  (0 < zmax)%R → StronglySorted Rlt (zcub zmax).
Proof.
  intros Hz. rewrite zcub_closed.
  apply (StronglySorted_fmap _ Nat.lt); [|apply StronglySorted_seq].
  intros i j Hij. apply lt_INR in Hij. nra.
Qed.

Lemma StronglySorted_tail {A} (R : relation A) (l : list A) :
  StronglySorted R l → StronglySorted R (tail l).
Proof. destruct l; [done|]. by intros [? _]%StronglySorted_inv. Qed.

(** A coordinate that does not exceed the last edge falls in one of the 20
    bins. *)
Lemma searchsorted_upper_edges zmax (v : R) :
  (v <= zmax)%R → np.searchsorted (lt:=Rlt) (tail (zcub zmax)) v < 20.
Proof.
  intros Hv.
  assert (np.searchsorted (lt:=Rlt) (tail (zcub zmax)) v ≤ 19); [|lia].
  apply (searchsorted_le_index _ _ _ zmax); [|lra].
  rewrite lookup_tail. apply zcub_last.
Qed.

(** The Cartesian coordinates are within the redshift of the galaxy. *)
Lemma cartesian_bounds (gal_z gal_lon gal_lat zmax : R) :
  (0 <= gal_z <= zmax)%R →
  let '(z1, z2, z3) := cartesian (gal_z, gal_lon, gal_lat) in
  (- zmax <= z1 <= zmax)%R ∧ (- zmax <= z2 <= zmax)%R ∧
  (- zmax <= z3 <= zmax)%R.
Proof.
  intros Hz. simpl.
  pose proof (COS_bound (deg2rad gal_lon)) as Hc1.
  pose proof (SIN_bound (deg2rad gal_lon)) as Hs1.
  pose proof (COS_bound (deg2rad gal_lat)) as Hc2.
  pose proof (SIN_bound (deg2rad gal_lat)) as Hs2.
  set (c1 := cos (deg2rad gal_lon)) in *.
  set (s1 := sin (deg2rad gal_lon)) in *.
  set (c2 := cos (deg2rad gal_lat)) in *.
  set (s2 := sin (deg2rad gal_lat)) in *.
  assert (-1 <= c1 * c2 <= 1)%R as Hcc by nra.
  assert (-1 <= s1 * c2 <= 1)%R as Hsc by nra.
  rewrite !Rmult_assoc.
  split_and!; nra.
Qed.
End grid_facts.

(** ** The cube *)

Section cube_facts.
Import GalaxyDensity.
Implicit Types (cube : list (list (list Z))) (idx : list np.column) (n : nat).

Lemma cubic_zeros zmax : cubic 20 (cube_zeros zmax).
Proof.
  unfold cube_zeros. rewrite zcub_length. simpl Nat.sub.
  split; [by rewrite length_replicate|].
  apply Forall_replicate.
  split; [by rewrite length_replicate|].
  apply Forall_replicate. by rewrite length_replicate.
Qed.

Lemma lookup3_in_cube n cube ijk :
  cubic n cube → in_cube n ijk → is_Some (np.lookup3 cube ijk).
Proof.
  intros [Hlen Hall] (Hi & Hj & Hk). unfold np.lookup3.
  destruct (lookup_lt_is_Some_2 cube ijk.1.1) as [plane Hp]; [lia|].
  rewrite Hp. simpl. rewrite Forall_forall in Hall.
  destruct (Hall plane) as [Hlp Hrows]; [by eapply list_elem_of_lookup_2|].
  destruct (lookup_lt_is_Some_2 plane ijk.1.2) as [row Hr]; [lia|].
  rewrite Hr. simpl. rewrite Forall_forall in Hrows.
  apply lookup_lt_is_Some_2. rewrite (Hrows row); [done|].
  by eapply list_elem_of_lookup_2.
Qed.

Lemma getitem3_in_cube n cube idx :
  cubic n cube → Forall (in_cube n) idx → is_Some (np.getitem3 cube idx).
Proof.
  intros Hc Hall. unfold np.getitem3.
  induction Hall as [|ijk idx Hijk _ [xs IH]]; [by eexists|].
  destruct (lookup3_in_cube n cube ijk Hc Hijk) as [x Hx].
  exists (x :: xs). simpl. rewrite Hx. simpl. by rewrite IH.
Qed.

Lemma cubic_alter n cube i j k (v : Z) :
  cubic n cube → cubic n (alter (alter (<[k:=v]>) j) i cube).
Proof.
  intros [Hlen Hall]. split; [by rewrite length_alter|].
  apply Forall_alter; [done|].
  intros plane _ [Hlp Hrows]. split; [by rewrite length_alter|].
  apply Forall_alter; [done|].
  intros row _ Hrow. by rewrite length_insert.
Qed.

Lemma cubic_setitem3 n cube idx (vals : list Z) :
  cubic n cube → cubic n (np.setitem3 cube idx vals).
Proof.
  unfold np.setitem3. revert cube vals.
  induction idx as [|ijk idx IH]; intros cube [|v vals] Hc; simpl; try done.
  apply IH. by apply cubic_alter.
Qed.

Lemma unique_columns_spec (cols : list np.column) :
  let '(u, c) := np.unique_columns cols in
  (∀ ijk, ijk ∈ u ↔ ijk ∈ cols) ∧ NoDup u ∧ length c = length u.
Proof.
  unfold np.unique_columns. split_and!.
  - intros ijk. rewrite elem_of_remove_dups.
    by rewrite (merge_sort_Permutation np.col_le cols).
  - apply NoDup_remove_dups.
  - by rewrite length_fmap.
Qed.

(** One pass of the loop body stays within the cube when every galaxy's
    cell does. *)
Lemma add_to_cube_in_cube zmax cube gals :
  cubic 20 cube →
  Forall (λ g, in_cube 20 (cell zmax g)) gals →
  ∃ cube', add_to_cube zmax cube gals = Some cube' ∧ cubic 20 cube'.
Proof.
  intros Hc Hall. unfold add_to_cube.
  pose proof (unique_columns_spec (cell zmax <$> gals)) as Hu.
  destruct (np.unique_columns (cell zmax <$> gals)) as [u c].
  destruct Hu as (Hin & _ & Hlen).
  assert (Forall (in_cube 20) u) as Hu.
  { apply Forall_forall. intros ijk Hijk. apply Hin in Hijk.
    apply list_elem_of_fmap in Hijk as (g & -> & Hg).
    rewrite Forall_forall in Hall. by apply Hall. }
  destruct (getitem3_in_cube 20 cube u Hc Hu) as [old Hold].
  unfold np.iadd3. rewrite Hold. simpl.
  rewrite broadcast_to_same by (by rewrite length_fmap). simpl.
  eexists. split; [done|]. by apply cubic_setitem3.
Qed.
End cube_facts.

(** ** Counts, for every value type *)

Section count_facts.
Context {V : Type} `{Accum V}.
Implicit Types (m : maps V) (pts : list (nat * V)).

Lemma reduce_points_counts m pts :
  num <$> reduce_points m pts =
  if decide (in_range m pts)
  then Some (imap (λ p c, (c + pixel_count p pts)%Z) (num m))
  else None.
Proof.
  unfold reduce_points, reduce.
  rewrite (reduce_with_counts _ m pts (argsort_sorts _)), linear_scan_closed.
  by destruct (decide (in_range m pts)).
Qed.

Lemma reduce_points_lengths m pts m' :
  reduce_points m pts = Some m' →
  length (num m') = length (num m) ∧ length (she m') = length (she m).
Proof.
  intros E.
  destruct (reduce_with_Some _ m pts m' (argsort_sorts _) E)
    as (sp & _ & _ & ->).
  simpl. by rewrite !length_imap.
Qed.

Lemma pixel_count_app p (b1 b2 : list (nat * V)) :
  pixel_count p (b1 ++ b2) = (pixel_count p b1 + pixel_count p b2)%Z.
Proof.
  unfold pixel_count, in_pixel. rewrite filter_app, length_app. lia.
Qed.

Lemma reduce_points_counts_permutation m pts pts' :
  pts ≡ₚ pts' → num <$> reduce_points m pts = num <$> reduce_points m pts'.
Proof.
  intros Hp. rewrite !reduce_points_counts.
  destruct (decide (in_range m pts)) as [Hr|Hr].
  - rewrite decide_True by (unfold in_range in *; by rewrite <-Hp).
    f_equal. apply imap_ext. intros p c _.
    unfold pixel_count, in_pixel. by rewrite Hp.
  - rewrite decide_False; [done|]. unfold in_range in *. by rewrite <-Hp.
Qed.

Lemma reduce_points_counts_app m b1 b2 :
  num <$> reduce_points m (b1 ++ b2) =
  num <$> (m' ← reduce_points m b1; reduce_points m' b2).
Proof.
  rewrite reduce_points_counts.
  pose proof (reduce_points_counts m b1) as E1.
  destruct (reduce_points m b1) as [m1|] eqn:Em1; simpl in *.
  - destruct (decide (in_range m b1)) as [Hr1|]; [|done].
    injection E1 as E1.
    destruct (reduce_points_lengths m b1 m1 Em1) as [Hln Hls].
    rewrite reduce_points_counts.
    assert (in_range m1 b2 ↔ in_range m b2) as Hiff.
    { unfold in_range. by rewrite Hln, Hls. }
    destruct (decide (in_range m1 b2)) as [Hr2|Hr2].
    + rewrite decide_True
        by (unfold in_range in *; apply Forall_app; tauto).
      f_equal. rewrite E1. apply list_eq. intros p.
      rewrite !list_lookup_imap. destruct (num m !! p); simpl; [|done].
      f_equal. rewrite pixel_count_app. lia.
    + rewrite decide_False; [done|]. unfold in_range in *.
      rewrite Forall_app. tauto.
  - destruct (decide (in_range m b1)) as [|Hr1]; [done|].
    rewrite decide_False; [done|]. unfold in_range in *.
    rewrite Forall_app. tauto.
Qed.
End count_facts.

(** ** Totals of the maps *)

Section total_facts.
Context {V : Type} `{AccumLaws V}.

Implicit Types (m : maps V) (pts : list (nat * V)) (l : list V).

Lemma foldr_aadd_app l1 l2 :
  foldr aadd azero (l1 ++ l2) =
  aadd (foldr aadd azero l1) (foldr aadd azero l2).
Proof.
  induction l1 as [|x l1 IH]; simpl.
  - by rewrite aadd_zero_l.
  - by rewrite IH, aadd_assoc.
Qed.

Lemma aadd_swap (a b c d : V) :
  aadd (aadd a b) (aadd c d) = aadd (aadd a c) (aadd b d).
Proof.
  rewrite <-(aadd_assoc a b), (aadd_assoc b c), (aadd_comm b c).
  by rewrite <-(aadd_assoc c b), (aadd_assoc a c).
Qed.

(** Adding [f p] to every entry [p] adds the sum of [f] over the indices. *)
Lemma foldr_imap_aadd (f : nat → V) l :
  foldr aadd azero (imap (λ p x, aadd x (f p)) l) =
  aadd (foldr aadd azero l) (foldr aadd azero (f <$> seq 0 (length l))).
Proof.
  revert f. induction l as [|x l IH]; intros f; simpl.
  - by rewrite aadd_zero_l.
  - change (imap _ l) with (imap (λ p x, aadd x ((f ∘ S) p)) l).
    rewrite (IH (f ∘ S)), <-fmap_S_seq, <-list_fmap_compose.
    apply aadd_swap.
Qed.

Lemma pixel_sum_cons q (v : V) pts p :
  pixel_sum p ((q, v) :: pts) =
  if decide (q = p) then aadd v (pixel_sum p pts) else pixel_sum p pts.
Proof. unfold pixel_sum. rewrite in_pixel_cons. by destruct (decide _). Qed.

(** One more point in pixel [q] adds its value to the sum over the pixels,
    when [q] is one of them. *)
Lemma foldr_pixel_sum_cons q (v : V) pts k n :
  k ≤ q < k + n →
  foldr aadd azero ((λ p, pixel_sum p ((q, v) :: pts)) <$> seq k n) =
  aadd v (foldr aadd azero ((λ p, pixel_sum p pts) <$> seq k n)).
Proof.
  revert k. induction n as [|n IH]; intros k Hq; [lia|].
  simpl. rewrite pixel_sum_cons.
  destruct (decide (q = k)) as [->|Hne].
  - rewrite <-aadd_assoc. do 3 f_equal.
    apply list_fmap_ext. intros i p Hp. apply lookup_seq in Hp as [-> _].
    rewrite pixel_sum_cons. by destruct (decide (k = S k + i)); [lia|].
  - rewrite IH by lia. rewrite !aadd_assoc. f_equal. apply aadd_comm.
Qed.

Lemma foldr_pixel_sum pts n :
  Forall (λ pt, pt.1 < n) pts →
  foldr aadd azero ((λ p, pixel_sum p pts) <$> seq 0 n) =
  foldr aadd azero pts.*2.
Proof.
  induction 1 as [|[q v] pts Hq _ IH]; simpl.
  - induction (seq 0 n) as [|p ps IHp]; [done|].
    rewrite fmap_cons. cbn [foldr]. rewrite IHp. apply aadd_zero_l.
  - simpl in Hq. rewrite foldr_pixel_sum_cons by lia. by rewrite IH.
Qed.
End total_facts.

Section total_counts.
Context {V : Type} `{Accum V}.

Implicit Types (m : maps V) (pts : list (nat * V)).

Lemma pixel_count_cons q (v : V) pts p :
  pixel_count p ((q, v) :: pts) =
  if decide (q = p) then (1 + pixel_count p pts)%Z else pixel_count p pts.
Proof.
  unfold pixel_count. rewrite in_pixel_cons.
  destruct (decide _); simpl; lia.
Qed.

Lemma foldr_pixel_count_cons q (v : V) pts k n :
  k ≤ q < k + n →
  foldr Z.add 0%Z ((λ p, pixel_count p ((q, v) :: pts)) <$> seq k n) =
  (1 + foldr Z.add 0%Z ((λ p, pixel_count p pts) <$> seq k n))%Z.
Proof.
  revert k. induction n as [|n IH]; intros k Hq; [lia|].
  cbn [seq]. rewrite !fmap_cons. cbn [foldr]. rewrite pixel_count_cons.
  destruct (decide (q = k)) as [->|Hne].
  - rewrite <-Z.add_assoc. do 3 f_equal.
    apply list_fmap_ext. intros i p Hp. apply lookup_seq in Hp as [-> _].
    rewrite pixel_count_cons. by destruct (decide (k = S k + i)); [lia|].
  - rewrite IH by lia. lia.
Qed.

Lemma foldr_pixel_count pts n :
  Forall (λ pt, pt.1 < n) pts →
  foldr Z.add 0%Z ((λ p, pixel_count p pts) <$> seq 0 n) =
  Z.of_nat (length pts).
Proof.
  induction 1 as [|[q v] pts Hq _ IH].
  - induction (seq 0 n) as [|p ps IHp]; [done|].
    rewrite fmap_cons. cbn [foldr]. by rewrite IHp.
  - simpl in Hq. rewrite foldr_pixel_count_cons by lia. rewrite IH.
    simpl length. lia.
Qed.

(** A batch adds its number of points to the total of the count map. *)
Lemma reduce_points_count_total m pts m' :
  reduce_points m pts = Some m' →
  np.sum (num m') = (np.sum (num m) + Z.of_nat (length pts))%Z.
Proof.
  intros E. pose proof (reduce_points_counts m pts) as Hc.
  rewrite E in Hc. simpl in Hc.
  destruct (decide (in_range m pts)) as [Hin|]; [|done].
  injection Hc as ->. rewrite !np_sum_foldr.
  refine (eq_trans
    (foldr_imap_aadd (V:=Z) (λ p, pixel_count p pts) (num m)) _).
  apply (f_equal (Z.add _)).
  apply foldr_pixel_count. eapply Forall_impl; [exact Hin|].
  simpl. intros pt [? _]. done.
Qed.

Lemma reduce_all_count_total m batches m' :
  reduce_all m batches = Some m' →
  np.sum (num m') = (np.sum (num m) + Z.of_nat (length (concat batches)))%Z.
Proof.
  revert m. induction batches as [|b bs IH]; intros m E; simpl in E.
  - injection E as <-. simpl. lia.
  - destruct (reduce_points m b) as [m1|] eqn:E1; [|done]. simpl in E.
    rewrite (IH _ E), (reduce_points_count_total _ _ _ E1).
    simpl. rewrite length_app. lia.
Qed.

Lemma np_sum_replicate_zero n : np.sum (replicate n 0%Z) = 0%Z.
Proof.
  rewrite np_sum_foldr. induction n as [|n IH]; [done|].
  cbn [replicate foldr]. by rewrite IH.
Qed.
End total_counts.

Section total_shears.
Context {V : Type} `{AccumLaws V}.

Implicit Types (m : maps V) (pts : list (nat * V)).

(** With exact addition a batch adds the sum of its values to the total of
    the shear map. *)
Lemma reduce_points_shear_total m pts m' :
  reduce_points m pts = Some m' →
  np.sum (she m') = aadd (np.sum (she m)) (np.sum pts.*2).
Proof.
  rewrite reduce_points_linear_scan, linear_scan_aggregate.
  destruct (decide (in_range m pts)) as [Hin|]; [|done].
  intros [= <-]. rewrite !np_sum_foldr. simpl.
  rewrite (foldr_imap_aadd (λ p, pixel_sum p pts) (she m)). f_equal.
  apply foldr_pixel_sum. eapply Forall_impl; [exact Hin|].
  simpl. by intros pt [_ ?].
Qed.

Lemma reduce_all_shear_total m batches m' :
  reduce_all m batches = Some m' →
  np.sum (she m') = aadd (np.sum (she m)) (np.sum (concat batches).*2).
Proof.
  revert m. induction batches as [|b bs IH]; intros m E; simpl in E.
  - injection E as <-. simpl. rewrite (np_sum_foldr []). simpl.
    by rewrite aadd_zero_r.
  - destruct (reduce_points m b) as [m1|] eqn:E1; [|done]. simpl in E.
    rewrite (IH _ E), (reduce_points_shear_total _ _ _ E1).
    simpl. rewrite fmap_app, !(np_sum_foldr (_ ++ _)), foldr_aadd_app.
    by rewrite <-!np_sum_foldr, aadd_assoc.
Qed.

Lemma np_sum_replicate_azero n : np.sum (replicate n (azero : V)) = azero.
Proof.
  rewrite np_sum_foldr. induction n as [|n IH]; [done|].
  cbn [replicate foldr]. by rewrite IH, aadd_zero_l.
Qed.
End total_shears.

(** ** When the reduction raises *)

Section failure_facts.
Context {V : Type} `{Accum V}.

Implicit Types (m : maps V) (pts : list (nat * V)).

Lemma reduce_points_None m pts :
  reduce_points m pts = None ↔ ¬ in_range m pts.
Proof.
  pose proof (reduce_points_counts m pts) as Hc.
  destruct (decide (in_range m pts)) as [Hin|Hout].
  - destruct (reduce_points m pts); [|done]. split; [done|]. by intros [].
  - by destruct (reduce_points m pts).
Qed.

Lemma in_range_lengths m pts n :
  length (num m) = n → length (she m) = n →
  in_range m pts ↔ Forall (λ pt, pt.1 < n) pts.
Proof.
  intros <- Hs. unfold in_range. rewrite Hs.
  apply Forall_proper; [|done]. intros pt. lia.
Qed.

Lemma reduce_all_None m batches n :
  length (num m) = n → length (she m) = n →
  reduce_all m batches = None ↔ Exists (Exists (λ pt, n ≤ pt.1)) batches.
Proof.
  revert m. induction batches as [|b bs IH]; intros m Hn Hs; simpl.
  - split; [done|]. by intros ?%Exists_nil.
  - rewrite Exists_cons.
    destruct (reduce_points m b) as [m1|] eqn:E1; simpl.
    + destruct (reduce_points_lengths _ _ _ E1) as [Hn1 Hs1].
      rewrite (IH m1) by congruence.
      assert (in_range m b) as Hin.
      { destruct (decide (in_range m b)) as [|Hout]; [done|].
        apply reduce_points_None in Hout. congruence. }
      apply (in_range_lengths _ _ n Hn Hs) in Hin.
      split; [by right|]. intros [Hb|]; [|done].
      apply Exists_exists in Hb as (pt & Hpt & Hge).
      apply (proj1 (Forall_forall _ _) Hin) in Hpt. lia.
    + apply reduce_points_None in E1.
      rewrite (in_range_lengths _ _ n Hn Hs) in E1.
      split; [|done]. intros _. left.
      apply not_Forall_Exists in E1; [|apply _].
      eapply Exists_impl; [exact E1|]. simpl. intros; lia.
Qed.

Lemma getitem_take {A} (l : list A) (s : list nat) n :
  Forall (λ i, i < n) s → np.getitem (take n l) s = np.getitem l s.
Proof.
  induction 1 as [|i s Hi _ IH]; [done|].
  by rewrite !getitem_cons, IH, lookup_take_lt.
Qed.
End failure_facts.

(** ** Updates of the cube *)

Section cube_update_facts.
Context {A : Type}.

Implicit Types (cube : list (list (list A))) (idx : list np.column)
  (ijk : np.column) (vals : list A).

Lemma lookup3_alter cube i j k (v : A) ijk :
  np.lookup3 (alter (alter (<[k:=v]>) j) i cube) ijk =
  if decide (ijk = (i, j, k)) then (λ _, v) <$> np.lookup3 cube ijk
  else np.lookup3 cube ijk.
Proof.
  destruct ijk as [[i' j'] k']. unfold np.lookup3. cbn [fst snd].
  destruct (decide (i' = i)) as [->|Hi].
  - rewrite list_lookup_alter_eq. destruct (cube !! i) as [plane|]; simpl.
    + destruct (decide (j' = j)) as [->|Hj].
      * rewrite list_lookup_alter_eq. destruct (plane !! j) as [row|]; simpl.
        -- destruct (decide (k' = k)) as [->|Hk].
           ++ rewrite decide_True by done.
              destruct (row !! k) eqn:Hr; simpl.
              ** apply list_lookup_insert_eq. by eapply lookup_lt_Some.
              ** apply lookup_ge_None. rewrite length_insert.
                 by apply lookup_ge_None.
           ++ rewrite decide_False by congruence.
              by apply list_lookup_insert_ne.
        -- by destruct (decide _).
      * rewrite list_lookup_alter_ne by done.
        rewrite decide_False by congruence. done.
    + by destruct (decide _).
  - rewrite list_lookup_alter_ne by done.
    rewrite decide_False by congruence. done.
Qed.

Lemma setitem3_cons cube ijk idx (v : A) vals :
  np.setitem3 cube (ijk :: idx) (v :: vals) =
  np.setitem3 (alter (alter (<[ijk.2 := v]>) ijk.1.2) ijk.1.1 cube) idx vals.
Proof. done. Qed.

Lemma setitem3_lookup_notin cube idx vals ijk :
  ijk ∉ idx → np.lookup3 (np.setitem3 cube idx vals) ijk = np.lookup3 cube ijk.
Proof.
  revert cube vals. induction idx as [|[[i j] k] idx IH]; intros cube vals Hn.
  - done.
  - destruct vals as [|v vals]; [done|].
    apply not_elem_of_cons in Hn as [Hne Hn].
    rewrite setitem3_cons, IH by done. simpl.
    rewrite lookup3_alter. by rewrite decide_False.
Qed.

Lemma setitem3_lookup_in cube idx vals n ijk (v : A) :
  NoDup idx → idx !! n = Some ijk → vals !! n = Some v →
  np.lookup3 (np.setitem3 cube idx vals) ijk =
  (λ _, v) <$> np.lookup3 cube ijk.
Proof.
  revert cube vals n.
  induction idx as [|[[i j] k] idx IH]; intros cube vals n Hnd Hi Hv.
  - done.
  - destruct vals as [|v0 vals]; [done|].
    apply NoDup_cons in Hnd as [Hnotin Hnd]. rewrite setitem3_cons.
    destruct n as [|n]; simpl in Hi, Hv.
    + injection Hi as <-. injection Hv as ->.
      rewrite setitem3_lookup_notin by done. simpl.
      rewrite lookup3_alter. by rewrite decide_True.
    + rewrite (IH _ _ n) by done. simpl. rewrite lookup3_alter.
      rewrite decide_False; [done|]. intros ->.
      apply Hnotin. by eapply list_elem_of_lookup_2.
Qed.

Lemma getitem3_None cube idx :
  np.getitem3 cube idx = None ↔
  Exists (λ ijk, np.lookup3 cube ijk = None) idx.
Proof.
  induction idx as [|ijk idx IH].
  - split; [done|]. by intros ?%Exists_nil.
  - rewrite Exists_cons, <-IH. unfold np.getitem3. cbn [mapM].
    destruct (np.lookup3 cube ijk) as [x|]; simpl; [|by split; [left|]].
    destruct (mapM (np.lookup3 cube) idx); simpl.
    + split; [done|]. by intros [|].
    + split; [by right|done].
Qed.

Lemma getitem3_lookup cube idx old n ijk :
  np.getitem3 cube idx = Some old → idx !! n = Some ijk →
  old !! n = np.lookup3 cube ijk ∧ is_Some (np.lookup3 cube ijk).
Proof.
  unfold np.getitem3. intros Hm Hi. apply mapM_Some_1 in Hm.
  destruct (Forall2_lookup_l _ _ _ _ _ Hm Hi) as (x & Hx & Hl).
  rewrite Hx, Hl. eauto.
Qed.

(** [cube[i, j, k] += f(i, j, k)] on distinct index triples. *)
Lemma iadd3_lookup add cube idx (f : np.column → A) cube' ijk :
  NoDup idx →
  np.iadd3 add cube idx (f <$> idx) = Some cube' →
  np.lookup3 cube' ijk =
  (λ x, if decide (ijk ∈ idx) then add x (f ijk) else x)
    <$> np.lookup3 cube ijk.
Proof.
  intros Hnd. unfold np.iadd3.
  destruct (np.getitem3 cube idx) as [old|] eqn:Hold; [|done]. simpl.
  rewrite broadcast_to_same by apply length_fmap. simpl. intros [= <-].
  destruct (decide (ijk ∈ idx)) as [Hin|Hnotin].
  - apply list_elem_of_lookup_1 in Hin as [n Hn].
    destruct (getitem3_lookup _ _ _ _ _ Hold Hn) as [Ho [x Hx]].
    rewrite (setitem3_lookup_in _ _ _ n ijk (add x (f ijk))); [|done..|].
    + by rewrite Hx.
    + rewrite lookup_zip_with, Ho, Hx, list_lookup_fmap, Hn. done.
  - rewrite setitem3_lookup_notin by done.
    by destruct (np.lookup3 cube ijk).
Qed.

Lemma iadd3_None add cube idx vals :
  length vals = length idx →
  np.iadd3 add cube idx vals = None ↔
  Exists (λ ijk, np.lookup3 cube ijk = None) idx.
Proof.
  intros Hlen. rewrite <-getitem3_None. unfold np.iadd3.
  destruct (np.getitem3 cube idx); simpl; [|done].
  by rewrite broadcast_to_same.
Qed.
End cube_update_facts.

Section cube_count_facts.
Import GalaxyDensity.

Implicit Types (cube : list (list (list Z))) (ijk : np.column)
  (gals : list galaxy) (zmax : R).

Lemma cell_count_fmap zmax ijk gals :
  length (filter (λ c, c = ijk) (cell zmax <$> gals)) =
  cell_count zmax ijk gals.
Proof.
  unfold cell_count. induction gals as [|g gals IH]; [done|].
  rewrite fmap_cons, !filter_cons.
  destruct (decide (cell zmax g = ijk)); simpl; by rewrite IH.
Qed.

Lemma cell_count_absent zmax ijk gals :
  ijk ∉ cell zmax <$> gals → cell_count zmax ijk gals = 0.
Proof.
  intros Hn. rewrite <-cell_count_fmap.
  rewrite filter_none; [done|].
  apply Forall_forall. by intros c Hc ->.
Qed.

Lemma cell_count_app zmax ijk gals1 gals2 :
  cell_count zmax ijk (gals1 ++ gals2) =
  cell_count zmax ijk gals1 + cell_count zmax ijk gals2.
Proof. unfold cell_count. by rewrite filter_app, length_app. Qed.

(** One pass of the inner loop adds to every cell the number of galaxies of
    the batch that fall into it. *)
Lemma add_to_cube_lookup zmax cube gals cube' ijk :
  add_to_cube zmax cube gals = Some cube' →
  np.lookup3 cube' ijk =
  (λ c, (c + Z.of_nat (cell_count zmax ijk gals))%Z) <$> np.lookup3 cube ijk.
Proof.
  unfold add_to_cube.
  pose proof (unique_columns_spec (cell zmax <$> gals)) as Hu.
  unfold np.unique_columns in *. cbv zeta in *.
  set (u := remove_dups (merge_sort np.col_le (cell zmax <$> gals))) in *.
  destruct Hu as (Hel & Hnd & _).
  rewrite <-list_fmap_compose. intros E.
  rewrite (iadd3_lookup _ _ _ _ _ ijk Hnd E).
  destruct (np.lookup3 cube ijk) as [c|]; [|done]. simpl. f_equal.
  destruct (decide (ijk ∈ u)) as [|Hn]; simpl.
  - by rewrite cell_count_fmap.
  - rewrite cell_count_absent; [lia|]. by rewrite <-Hel.
Qed.

Lemma add_to_cube_None zmax cube gals :
  add_to_cube zmax cube gals = None ↔
  Exists (λ g, np.lookup3 cube (cell zmax g) = None) gals.
Proof.
  unfold add_to_cube.
  pose proof (unique_columns_spec (cell zmax <$> gals)) as Hu.
  unfold np.unique_columns in *. cbv zeta in *.
  set (u := remove_dups (merge_sort np.col_le (cell zmax <$> gals))) in *.
  destruct Hu as (Hel & Hnd & _).
  rewrite iadd3_None by by rewrite !length_fmap.
  rewrite !Exists_exists. split.
  - intros (ijk & Hin & Hnone). apply Hel in Hin.
    apply list_elem_of_fmap in Hin as (g & -> & Hg). eauto.
  - intros (g & Hg & Hnone). exists (cell zmax g). split; [|done].
    apply Hel. apply list_elem_of_fmap. eauto.
Qed.

Lemma add_all_lookup zmax cube batches cube' ijk :
  add_all zmax cube batches = Some cube' →
  np.lookup3 cube' ijk =
  (λ c, (c + Z.of_nat (cell_count zmax ijk (concat batches)))%Z)
    <$> np.lookup3 cube ijk.
Proof.
  revert cube. induction batches as [|b bs IH]; intros cube E; simpl in E.
  - injection E as <-. simpl. destruct (np.lookup3 cube ijk); simpl; [|done].
    f_equal. unfold cell_count. simpl. lia.
  - destruct (add_to_cube zmax cube b) as [cube1|] eqn:E1; [|done].
    simpl in E. rewrite (IH _ E), (add_to_cube_lookup _ _ _ _ ijk E1).
    destruct (np.lookup3 cube ijk); simpl; [|done].
    f_equal. rewrite cell_count_app. lia.
Qed.

Lemma add_all_None zmax cube batches :
  add_all zmax cube batches = None ↔
  Exists (λ g, np.lookup3 cube (cell zmax g) = None) (concat batches).
Proof.
  revert cube. induction batches as [|b bs IH]; intros cube; simpl.
  - split; [done|]. by intros ?%Exists_nil.
  - rewrite Exists_app.
    destruct (add_to_cube zmax cube b) as [cube1|] eqn:E1; simpl.
    + rewrite IH.
      assert (¬ Exists (λ g, np.lookup3 cube (cell zmax g) = None) b) as Hb.
      { intros Hb%add_to_cube_None. congruence. }
      assert (∀ g, np.lookup3 cube1 (cell zmax g) = None ↔
                   np.lookup3 cube (cell zmax g) = None) as Hsame.
      { intros g. rewrite (add_to_cube_lookup _ _ _ _ _ E1).
        by destruct (np.lookup3 cube (cell zmax g)). }
      split.
      * intros Hex. right. eapply Exists_impl; [exact Hex|].
        intros g. by rewrite Hsame.
      * intros [?|Hex]; [done|]. eapply Exists_impl; [exact Hex|].
        intros g. by rewrite Hsame.
    + apply add_to_cube_None in E1. split; [by left|done].
Qed.

Lemma lookup3_cube_zeros zmax ijk :
  in_cube 20 ijk → np.lookup3 (cube_zeros zmax) ijk = Some 0%Z.
Proof.
  destruct ijk as [[i j] k]. intros (Hi & Hj & Hk). simpl in *.
  unfold cube_zeros. rewrite zcub_length. unfold np.lookup3. simpl fst. simpl snd.
  change (21 - 1) with 20.
  rewrite (lookup_replicate_2 _ _ i) by done. cbn -[replicate].
  rewrite (lookup_replicate_2 _ _ j) by done. cbn -[replicate].
  by rewrite (lookup_replicate_2 _ _ k).
Qed.

Lemma lookup3_cubic_None n cube ijk :
  cubic n cube → np.lookup3 cube ijk = None ↔ ¬ in_cube n ijk.
Proof.
  intros Hc. split.
  - intros Hn Hin. destruct (lookup3_in_cube n cube ijk Hc Hin). congruence.
  - intros Hout. destruct Hc as [Hlen Hpl].
    destruct ijk as [[i j] k]. unfold np.lookup3, in_cube in *. simpl in *.
    destruct (cube !! i) as [plane|] eqn:Hi; simpl; [|done].
    apply lookup_lt_Some in Hi as Hi'.
    apply (proj1 (Forall_lookup _ _) Hpl) in Hi as [Hlp Hrows].
    destruct (plane !! j) as [row|] eqn:Hj; simpl; [|done].
    apply lookup_lt_Some in Hj as Hj'.
    apply (proj1 (Forall_lookup _ _) Hrows) in Hj.
    apply lookup_ge_None. lia.
Qed.
End cube_count_facts.

(** ** Bins of the grid *)

Section bin_facts.
Context {A : Type} {lt : relation A} `{!RelDecision lt}.

Implicit Types (a : list A) (v x : A) (i j : nat).

Lemma searchsorted_all a v :
  Forall (λ x, lt x v) a → np.searchsorted (lt:=lt) a v = length a.
Proof.
  induction 1 as [|x a Hx _ IH]; simpl; [done|].
  by rewrite decide_True, IH.
Qed.

Lemma searchsorted_head a x v :
  ¬ lt x v → np.searchsorted (lt:=lt) (x :: a) v = 0.
Proof. intros Hx. simpl. by rewrite decide_False. Qed.

(** The result of the search is determined by its two properties. *)
Lemma searchsorted_unique a v i x :
  (∀ j y, j < i → a !! j = Some y → lt y v) →
  a !! i = Some x → ¬ lt x v →
  np.searchsorted (lt:=lt) a v = i.
Proof.
  intros Hlow Hi Hx.
  pose proof (searchsorted_le_index a v i x Hi Hx) as Hle.
  destruct (decide (np.searchsorted (lt:=lt) a v = i)) as [|Hne]; [done|].
  assert (np.searchsorted (lt:=lt) a v < i) as Hlt by lia.
  destruct (lookup_lt_is_Some_2 a (np.searchsorted (lt:=lt) a v)) as [y Hy].
  { apply lookup_lt_Some in Hi. lia. }
  destruct (proj2 (searchsorted_spec a v) y Hy). by eapply Hlow.
Qed.
End bin_facts.

Section grid_cells.
Import GalaxyDensity.

Implicit Types (zmax : R) (i : nat) (cube : list (list (list Z))).

Lemma tail_zcub_lookup zmax i :
  i < 20 → tail (zcub zmax) !! i = Some (zmax * (INR (S i) / 10 - 1))%R.
Proof. intros Hi. rewrite lookup_tail. apply zcub_lookup. lia. Qed.

Lemma tail_zcub_length zmax : length (tail (zcub zmax)) = 20.
Proof.
  pose proof (zcub_length zmax). destruct (zcub zmax); simpl in *; lia.
Qed.

(** Beyond the last edge the search returns 20, one past the last cell. *)
Lemma searchsorted_beyond zmax (v : R) :
  (0 < zmax)%R → (zmax < v)%R →
  np.searchsorted (lt:=Rlt) (tail (zcub zmax)) v = 20.
Proof.
  intros Hz Hv. rewrite <-(tail_zcub_length zmax).
  apply searchsorted_all, Forall_lookup. intros i e He.
  apply lookup_lt_Some in He as Hi. rewrite tail_zcub_length in Hi.
  rewrite tail_zcub_lookup in He by done.
  assert (e = zmax * (INR (S i) / 10 - 1))%R as -> by congruence.
  pose proof (le_INR (S i) 20 ltac:(lia)) as Hle.
  replace (INR 20) with 20%R in Hle by (simpl; lra).
  set (x := INR (S i)) in *.
  assert (zmax * (x / 10 - 1) <= zmax * 1)%R
    by (apply Rmult_le_compat_l; lra).
  lra.
Qed.

(** At or below the first upper edge the search returns 0. *)
Lemma searchsorted_below zmax (v : R) :
  (v <= - zmax * (9 / 10))%R →
  np.searchsorted (lt:=Rlt) (tail (zcub zmax)) v = 0.
Proof.
  intros Hv. apply (searchsorted_unique _ _ 0 (zmax * (INR 1 / 10 - 1))%R).
  - intros; lia.
  - by apply tail_zcub_lookup; lia.
  - simpl. lra.
Qed.

Lemma cell_in_cube zmax (g : galaxy) :
  (0 <= g.1.1 <= zmax)%R → in_cube 20 (cell zmax g).
Proof.
  destruct g as [[gal_z gal_lon] gal_lat]. intros Hz.
  pose proof (cartesian_bounds gal_z gal_lon gal_lat zmax Hz) as Hb.
  unfold cell. revert Hb.
  destruct (cartesian (gal_z, gal_lon, gal_lat)) as [[z1 z2] z3].
  intros ([_ H1] & [_ H2] & [_ H3]).
  split_and!; simpl; by apply searchsorted_upper_edges.
Qed.

Lemma add_all_in_cube zmax cube (batches : list (list galaxy)) :
  cubic 20 cube →
  Forall (Forall (λ g : galaxy, (0 <= g.1.1 <= zmax)%R)) batches →
  ∃ cube', add_all zmax cube batches = Some cube' ∧ cubic 20 cube'.
Proof.
  intros Hc Hall. revert cube Hc.
  induction Hall as [|b bs Hb _ IH]; intros cube Hc; [by exists cube|].
  destruct (add_to_cube_in_cube zmax cube b Hc) as (cube1 & E1 & Hc1).
  { eapply Forall_impl; [exact Hb|]. apply cell_in_cube. }
  destruct (IH cube1 Hc1) as (cube' & E & Hc').
  exists cube'. simpl. by rewrite E1.
Qed.
End grid_cells.

Section centre_facts.
Import GalaxyDensity.

Implicit Types (zmax : R) (i : nat).

Lemma centres_lookup zmax i :
  i < 20 →
  centres zmax !! i =
  Some ((zmax * (INR i / 10 - 1) + zmax * (INR (S i) / 10 - 1)) / 2)%R.
Proof.
  intros Hi. unfold centres. rewrite zcub_length.
  rewrite list_lookup_fmap, lookup_zip_with.
  rewrite lookup_take_lt by lia. rewrite zcub_lookup by lia.
  cbn [mbind option_bind]. rewrite tail_zcub_lookup by done. done.
Qed.

Lemma centres_length zmax : length (centres zmax) = 20.
Proof.
  unfold centres.
  rewrite length_fmap, length_zip_with, length_take, zcub_length.
  rewrite tail_zcub_length. lia.
Qed.
End centre_facts.

(** ** The colour scale of the cube *)

Section scale_facts.
Import GalaxyDensity.

Implicit Types (cube : list (list (list Z))) (a : list Z) (x y : Z).

Lemma elem_of_concat {A} (x : A) (ls : list (list A)) :
  x ∈ concat ls ↔ ∃ l, x ∈ l ∧ l ∈ ls.
Proof.
  induction ls as [|l ls IH]; simpl.
  - split; [by intros ?%elem_of_nil|]. by intros (l & _ & ?%elem_of_nil).
  - rewrite elem_of_app, IH. split.
    + intros [Hx|(l' & Hx & Hl')].
      * exists l. split; [done|]. apply list_elem_of_here.
      * exists l'. split; [done|]. by apply list_elem_of_further.
    + intros (l' & Hx & Hl'). apply elem_of_cons in Hl' as [->|Hl'].
      * by left.
      * right. eauto.
Qed.

(** The entries of the flattened cube are the entries of its cells. *)
Lemma elem_of_flat cube x :
  x ∈ flat cube ↔ ∃ ijk, np.lookup3 cube ijk = Some x.
Proof.
  unfold flat. rewrite elem_of_concat. split.
  - intros (row & Hx & Hrow). apply elem_of_concat in Hrow as (plane & Hrow & Hplane).
    apply list_elem_of_lookup_1 in Hx as [k Hk].
    apply list_elem_of_lookup_1 in Hrow as [j Hj].
    apply list_elem_of_lookup_1 in Hplane as [i Hi].
    exists (i, j, k). unfold np.lookup3. simpl. rewrite Hi. simpl.
    rewrite Hj. done.
  - intros ([[i j] k] & Hl). unfold np.lookup3 in Hl. simpl in Hl.
    destruct (cube !! i) as [plane|] eqn:Hi; [|done]. simpl in Hl.
    destruct (plane !! j) as [row|] eqn:Hj; [|done]. simpl in Hl.
    exists row. split; [by eapply list_elem_of_lookup_2|].
    apply elem_of_concat. exists plane.
    split; by eapply list_elem_of_lookup_2.
Qed.

Lemma foldl_min_spec a x :
  foldl Z.min x a ∈ x :: a ∧ Forall (λ y, (foldl Z.min x a ≤ y)%Z) (x :: a).
Proof.
  revert x. induction a as [|y a IH]; intros x; simpl.
  - split; [apply list_elem_of_here|]. apply Forall_singleton. lia.
  - destruct (IH (Z.min x y)) as [Hin Hle].
    apply Forall_cons in Hle as [Hm Hle]. split.
    + apply elem_of_cons in Hin as [->|Hin].
      * destruct (Z.min_spec x y) as [[_ ->]|[_ ->]].
        -- apply list_elem_of_here.
        -- apply list_elem_of_further, list_elem_of_here.
      * by do 2 apply list_elem_of_further.
    + apply Forall_cons. split; [lia|]. apply Forall_cons. split; [lia|done].
Qed.

Lemma foldl_max_spec a x :
  foldl Z.max x a ∈ x :: a ∧ Forall (λ y, (y ≤ foldl Z.max x a)%Z) (x :: a).
Proof.
  revert x. induction a as [|y a IH]; intros x; simpl.
  - split; [apply list_elem_of_here|]. apply Forall_singleton. lia.
  - destruct (IH (Z.max x y)) as [Hin Hle].
    apply Forall_cons in Hle as [Hm Hle]. split.
    + apply elem_of_cons in Hin as [->|Hin].
      * destruct (Z.max_spec x y) as [[_ ->]|[_ ->]].
        -- apply list_elem_of_further, list_elem_of_here.
        -- apply list_elem_of_here.
      * by do 2 apply list_elem_of_further.
    + apply Forall_cons. split; [lia|]. apply Forall_cons. split; [lia|done].
Qed.

Lemma np_min_None a : np.min a = None ↔ a = [].
Proof. by destruct a. Qed.

Lemma np_min_Some a v :
  np.min a = Some v → v ∈ a ∧ Forall (λ y, (v ≤ y)%Z) a.
Proof.
  destruct a as [|x a]; [done|]. intros [= <-]. apply foldl_min_spec.
Qed.

Lemma np_max_Some a v :
  np.max a = Some v → v ∈ a ∧ Forall (λ y, (y ≤ v)%Z) a.
Proof.
  destruct a as [|x a]; [done|]. intros [= <-]. apply foldl_max_spec.
Qed.

Lemma cell_count_le zmax ijk (gals : list galaxy) :
  cell_count zmax ijk gals ≤ length gals.
Proof. unfold cell_count. apply length_filter. Qed.

Lemma cell_count_pos zmax (g : galaxy) (gals : list galaxy) :
  g ∈ gals → 0 < cell_count zmax (cell zmax g) gals.
Proof.
  intros Hg. unfold cell_count.
  assert (g ∈ filter (λ g', cell zmax g' = cell zmax g) gals) as Hin
    by by apply list_elem_of_filter.
  destruct (filter _ gals); [by apply elem_of_nil in Hin|simpl; lia].
Qed.
End scale_facts.

Section scale_counts.
Import GalaxyDensity.

Implicit Types (cube : list (list (list Z))) (zmax : R).

Lemma lookup3_cube_zeros_Some zmax ijk c :
  np.lookup3 (cube_zeros zmax) ijk = Some c → c = 0%Z.
Proof.
  intros Hl. assert (c ∈ flat (cube_zeros zmax)) as Hin.
  { apply elem_of_flat. eauto. }
  unfold flat, cube_zeros in Hin.
  apply elem_of_concat in Hin as (row & Hc & Hrow).
  apply elem_of_concat in Hrow as (plane & Hrow & Hplane).
  apply elem_of_replicate in Hplane as [-> _].
  apply elem_of_replicate in Hrow as [-> _].
  by apply elem_of_replicate in Hc as [-> _].
Qed.

(** After the loop every entry of the cube is the count of a cell. *)
Lemma flat_counts zmax batches cube' x :
  add_all zmax (cube_zeros zmax) batches = Some cube' →
  x ∈ flat cube' →
  ∃ ijk, x = Z.of_nat (cell_count zmax ijk (concat batches)).
Proof.
  intros E [ijk Hx]%elem_of_flat. exists ijk.
  rewrite (add_all_lookup _ _ _ _ ijk E) in Hx.
  destruct (np.lookup3 (cube_zeros zmax) ijk) as [c|] eqn:Hc; [|done].
  apply lookup3_cube_zeros_Some in Hc as ->. injection Hx as <-. lia.
Qed.

(** Every galaxy has been counted in a cell of the cube. *)
Lemma flat_galaxy zmax batches cube' (g : galaxy) :
  add_all zmax (cube_zeros zmax) batches = Some cube' →
  g ∈ concat batches →
  Z.of_nat (cell_count zmax (cell zmax g) (concat batches)) ∈ flat cube'.
Proof.
  intros E Hg. apply elem_of_flat. exists (cell zmax g).
  rewrite (add_all_lookup _ _ _ _ _ E).
  destruct (np.lookup3 (cube_zeros zmax) (cell zmax g)) as [c|] eqn:Hc.
  - apply lookup3_cube_zeros_Some in Hc as ->. done.
  - assert (add_all zmax (cube_zeros zmax) batches = None); [|congruence].
    apply add_all_None, Exists_exists. eauto.
Qed.
End scale_counts.

(** ** The trapezoidal rule *)

Section trapz_facts.
Implicit Types (x y xs ys : list R) (c : R).

Local Abbreviation trapz_sum y x :=
  (foldr Rplus 0%R ((λ t, (t / 2)%R) <$>
     zip_with Rmult (np.diff x) (zip_with Rplus (tail y) y))).

Lemma diff_length x : length (np.diff x) = length x - 1.
Proof.
  unfold np.diff. rewrite length_zip_with. destruct x; simpl; lia.
Qed.

(** On arrays of the same length the rule does not raise. *)
Lemma trapz_same_length y x :
  length y = length x → np.trapz y x = Some (trapz_sum y x).
Proof.
  intros Hlen. unfold np.trapz.
  rewrite elementwise_same_length.
  - simpl. by rewrite np_sum_foldr.
  - rewrite diff_length, length_zip_with. destruct y; simpl in *; lia.
Qed.

Lemma trapz_sum_cons (b0 b1 : R) ys (a0 a1 : R) xs :
  trapz_sum (b0 :: b1 :: ys) (a0 :: a1 :: xs) =
  ((a1 - a0) * (b1 + b0) / 2 + trapz_sum (b1 :: ys) (a1 :: xs))%R.
Proof. done. Qed.

(** A positive integrand on an increasing grid of at least two points has
    a positive integral. *)
Lemma trapz_sum_pos y x :
  length y = length x → 2 ≤ length x →
  StronglySorted Rlt x → Forall (λ d, (0 < d)%R) y →
  (0 < trapz_sum y x)%R.
Proof.
  revert x. induction y as [|b0 ys IH]; intros x Hlen H2 Hx Hy.
  - simpl in Hlen. lia.
  - destruct x as [|a0 [|a1 xs]]; [simpl in H2; lia..|].
    destruct ys as [|b1 ys]; [done|].
    rewrite trapz_sum_cons.
    apply Forall_cons in Hy as [Hy0 Hy].
    pose proof Hy as Hy'. apply Forall_cons in Hy' as [Hy1 _].
    apply StronglySorted_inv in Hx as [Hx Hx0].
    apply Forall_cons in Hx0 as [Hx01 _].
    assert (0 < (a1 - a0) * (b1 + b0) / 2)%R as Hterm.
    { apply Rdiv_lt_0_compat; [|lra]. apply Rmult_lt_0_compat; lra. }
    destruct xs as [|a2 xs].
    + destruct ys; [|done]. simpl. simpl in Hterm. lra.
    + specialize (IH (a1 :: a2 :: xs)).
      assert (0 < trapz_sum (b1 :: ys) (a1 :: a2 :: xs))%R; [|lra].
      apply IH; [simpl in *; lia|simpl; lia|done|done].
Qed.
End trapz_facts.

Section linspace_facts.
Implicit Types (start stop : R) (num i : nat).

Lemma linspace_length start stop num :
  length (np.linspace start stop num) = num.
Proof.
  unfold np.linspace. by rewrite length_insert, length_fmap, length_seq.
Qed.

Lemma linspace_head start stop num :
  2 ≤ num → head (np.linspace start stop num) = Some start.
Proof.
  intros Hn. rewrite head_lookup. unfold np.linspace. cbv zeta.
  rewrite list_lookup_insert_ne by lia.
  rewrite list_lookup_fmap, lookup_seq_lt by lia. simpl. f_equal. lra.
Qed.

Lemma linspace_last start stop num :
  1 ≤ num → last (np.linspace start stop num) = Some stop.
Proof.
  intros Hn. rewrite last_lookup, linspace_length.
  unfold np.linspace. cbv zeta.
  replace (Init.Nat.pred num) with (num - 1) by lia.
  apply list_lookup_insert_eq. rewrite length_fmap, length_seq. lia.
Qed.

(** In exact arithmetic the samples are [start + i * step] throughout: the
    last one is [stop] already. *)
Lemma linspace_closed start stop num :
  2 ≤ num →
  np.linspace start stop num =
  (λ i, (INR i * ((stop - start) / INR (num - 1)) + start)%R) <$> seq 0 num.
Proof.
  intros Hn. unfold np.linspace. cbv zeta. apply list_insert_id.
  rewrite list_lookup_fmap, lookup_seq_lt by lia. simpl. f_equal.
  assert (INR (num - 1) ≠ 0)%R by (apply not_0_INR; lia). by field.
Qed.

Lemma linspace_increasing start stop num :
  2 ≤ num → (start < stop)%R →
  StronglySorted Rlt (np.linspace start stop num).
Proof.
  intros Hn Hlt. rewrite linspace_closed by done.
  apply (StronglySorted_fmap _ Nat.lt); [|apply StronglySorted_seq].
  intros i j Hij. apply lt_INR in Hij.
  assert (0 < INR (num - 1))%R by (apply lt_0_INR; lia).
  assert (0 < (stop - start) / INR (num - 1))%R
    by (apply Rdiv_lt_0_compat; lra).
  nra.
Qed.
End linspace_facts.

(** ** The analysis cell *)

Section factor_facts.
Implicit Types (w l : Z).

(** No operation of [fl] wraps around as long as the argument of
    [np.clip], the largest of the intermediate values from l = 2 on, fits
    the width. *)
Lemma fl_no_wrap w l :
  (4 ≤ w)%Z → (0 ≤ l)%Z → (l ^ 2 * (l + 1) ^ 2 < 2 ^ (w - 1))%Z →
  fl_num w l = ((l + 2) * (l + 1) * l * (l - 1))%Z ∧
  fl_den w l = Z.max (l ^ 2 * (l + 1) ^ 2) 1.
Proof.
  intros Hw Hl Hd. unfold fl_num, fl_den. rewrite !Z.pow_2_r in *.
  set (B := (2 ^ (w - 1))%Z) in *.
  assert (8 ≤ B)%Z as HB.
  { unfold B. change 8%Z with (2 ^ 3)%Z. apply Z.pow_le_mono_r; lia. }
  assert (∀ n, (- B ≤ n < B)%Z → np.wrap w n = n) as Hs.
  { intros n Hn. apply wrap_small; [lia|done]. }
  assert ((- B ≤ l + 2 < B) ∧ (- B ≤ l + 1 < B) ∧ (- B ≤ l - 1 < B) ∧
          (- B ≤ (l + 2) * (l + 1) < B) ∧
          (- B ≤ (l + 2) * (l + 1) * l < B) ∧
          (- B ≤ (l + 2) * (l + 1) * l * (l - 1) < B) ∧
          (- B ≤ l * l < B) ∧ (- B ≤ (l + 1) * (l + 1) < B) ∧
          (- B ≤ l * l * ((l + 1) * (l + 1)) < B))%Z
    as (H1 & H2 & H3 & H4 & H5 & H6 & H7 & H8 & H9).
  { destruct (decide (l < 2)%Z) as [Hl2|Hl2].
    - assert (l = 0 ∨ l = 1)%Z as [-> | ->] by lia; lia.
    - set (t := (l * (l + 1))%Z).
      assert (6 ≤ t)%Z as Ht by (unfold t; nia).
      assert (l * l * ((l + 1) * (l + 1)) = t * t)%Z as Ed
        by (unfold t; ring).
      assert (2 * l + 2 ≤ t)%Z as Hlt by (unfold t; nia).
      assert (6 * t ≤ t * t)%Z as Htt by nia.
      assert ((l + 2) * (l + 1) = t + 2 * l + 2)%Z as E4
        by (unfold t; ring).
      assert ((l + 2) * (l + 1) * l * (l - 1) = t * t - 2 * t)%Z as E6
        by (unfold t; ring).
      assert (l * l = t - l)%Z as E7 by (unfold t; ring).
      assert ((l + 1) * (l + 1) = t + l + 1)%Z as E8 by (unfold t; ring).
      assert (0 ≤ (l + 2) * (l + 1) * l ≤ t * t)%Z as H5.
      { assert (t * t - (l + 2) * (l + 1) * l = t * (l * l - 2))%Z as ->%Z.sub_move_r
          by (unfold t; ring).
        assert (0 ≤ t * (l * l - 2))%Z by (apply Z.mul_nonneg_nonneg; nia).
        assert (0 ≤ (l + 2) * (l + 1) * l)%Z
          by (repeat apply Z.mul_nonneg_nonneg; lia).
        lia. }
      lia. }
  rewrite (Hs _ H1), (Hs _ H2), (Hs _ H4), (Hs _ H5), (Hs _ H3), (Hs _ H6).
  by rewrite (Hs _ H7), (Hs _ H8), (Hs _ H9).
Qed.

(** The argument of [np.clip] grows with the multipole. *)
Lemma fl_den_mono l L :
  (0 ≤ l ≤ L)%Z → (l ^ 2 * (l + 1) ^ 2 ≤ L ^ 2 * (L + 1) ^ 2)%Z.
Proof.
  intros Hl. apply Z.mul_le_mono_nonneg.
  - apply Z.pow_nonneg. lia.
  - apply Z.pow_le_mono_l. lia.
  - apply Z.pow_nonneg. lia.
  - apply Z.pow_le_mono_l. lia.
Qed.

(** From l = 1 on the clip of the denominator is inactive and the factor
    is (l+2)(l-1) / (l(l+1)). *)
Lemma fl_at_closed w l :
  (4 ≤ w)%Z → (1 ≤ l)%Z → (l ^ 2 * (l + 1) ^ 2 < 2 ^ (w - 1))%Z →
  fl_at w l = (1 - 2 / (IZR l * (IZR l + 1)))%R.
Proof.
  intros Hw Hl Hd. unfold fl_at.
  destruct (fl_no_wrap w l Hw ltac:(lia) Hd) as [-> ->].
  rewrite Z.max_l by nia.
  assert (IZR l ≠ 0)%R as H0 by (apply not_0_IZR; lia).
  assert (IZR l + 1 ≠ 0)%R as H1.
  { rewrite <-plus_IZR. apply not_0_IZR. lia. }
  replace ((l + 2) * (l + 1) * l * (l - 1))%Z
    with ((l * (l + 1)) * (l * (l + 1) - 2))%Z by ring.
  replace (l ^ 2 * (l + 1) ^ 2)%Z
    with ((l * (l + 1)) * (l * (l + 1)))%Z by ring.
  rewrite !mult_IZR, minus_IZR, !mult_IZR, !plus_IZR. by field.
Qed.

Lemma fl_at_range w l :
  (4 ≤ w)%Z → (0 ≤ l)%Z → (l ^ 2 * (l + 1) ^ 2 < 2 ^ (w - 1))%Z →
  (0 <= fl_at w l < 1)%R.
Proof.
  intros Hw Hl Hd. destruct (decide (l = 0%Z)) as [->|Hne].
  - rewrite fl_at_0. lra.
  - rewrite fl_at_closed by (done || lia).
    assert (1 <= IZR l)%R as H1 by (apply IZR_le; lia).
    assert (2 <= IZR l * (IZR l + 1))%R as H2 by nra.
    assert (0 < 2 / (IZR l * (IZR l + 1)) <= 1)%R; [|lra].
    split.
    + apply Rdiv_lt_0_compat; lra.
    + apply (Rmult_le_reg_r (IZR l * (IZR l + 1))); [lra|].
      unfold Rdiv. rewrite Rmult_assoc, Rinv_l by lra. lra.
Qed.

Lemma fl_at_pos w l :
  (4 ≤ w)%Z → (2 ≤ l)%Z → (l ^ 2 * (l + 1) ^ 2 < 2 ^ (w - 1))%Z →
  (0 < fl_at w l)%R.
Proof.
  intros Hw Hl Hd. rewrite fl_at_closed by (done || lia).
  assert (2 <= IZR l)%R as H1 by (apply IZR_le; lia).
  assert (6 <= IZR l * (IZR l + 1))%R as H2 by nra.
  assert (2 / (IZR l * (IZR l + 1)) < 1)%R; [|lra].
  apply (Rmult_lt_reg_r (IZR l * (IZR l + 1))); [lra|].
  unfold Rdiv. rewrite Rmult_assoc, Rinv_l by lra. lra.
Qed.

Lemma fl_at_increasing w l :
  (4 ≤ w)%Z → (1 ≤ l)%Z →
  ((l + 1) ^ 2 * (l + 1 + 1) ^ 2 < 2 ^ (w - 1))%Z →
  (fl_at w l < fl_at w (l + 1))%R.
Proof.
  intros Hw Hl Hd.
  pose proof (fl_den_mono l (l + 1) ltac:(lia)) as Hm.
  rewrite !fl_at_closed by (done || lia). rewrite plus_IZR.
  assert (1 <= IZR l)%R as H1 by (apply IZR_le; lia).
  set (x := IZR l) in *.
  assert (2 / ((x + 1) * (x + 1 + 1)) < 2 / (x * (x + 1)))%R; [|lra].
  unfold Rdiv. apply Rmult_lt_compat_l; [lra|].
  apply Rinv_lt_contravar; nra.
Qed.
End factor_facts.

Section mixing_facts.
Implicit Types (v : list R) (N : R) (i j k n lmax npix : nat).

(** The entries of the mixing matrix. *)
Lemma mm_rows (nbar : R) npix lmax :
  (nbar * INR npix ≠ 0)%R →
  mm nbar npix lmax =
  Some ((λ i, (λ j, if decide (j < 2) then 0%R
                    else if decide (i < 2) then 0%R
                    else ((1 - 1 / (nbar * INR npix)) *
                            (if decide (i = j) then 1 else 0) +
                          (INR j + 1 / 2) / (nbar * INR npix))%R)
                <$> seq 0 (S lmax))
          <$> seq 0 (S lmax)).
Proof.
  intros HN. unfold mm. rewrite truediv_Some by done.
  cbn [mbind option_bind]. f_equal.
  apply list_eq. intros i. unfold zero_cols, zero_rows, np.eye.
  rewrite !list_lookup_fmap, list_lookup_imap, !list_lookup_fmap.
  destruct (seq 0 (S lmax) !! i) as [i'|] eqn:Hi; [|done].
  apply lookup_seq in Hi as [-> Hi]. cbn [fmap option_fmap option_map].
  f_equal. apply list_eq. intros j. rewrite list_lookup_imap.
  destruct (decide (i < 2)) as [Hi2|Hi2].
  - rewrite !list_lookup_fmap, lookup_zip_with, !list_lookup_fmap.
    destruct (seq 0 (S lmax) !! j) as [j'|] eqn:Hj; [|done].
    apply lookup_seq in Hj as [-> Hj]. simpl.
    rewrite lookup_arange by done. simpl.
    destruct (decide (j < 2)); [done|]. by rewrite decide_True.
  - rewrite lookup_zip_with, !list_lookup_fmap.
    destruct (seq 0 (S lmax) !! j) as [j'|] eqn:Hj; [|done].
    apply lookup_seq in Hj as [-> Hj]. simpl.
    rewrite lookup_arange by done. simpl.
    destruct (decide (j < 2)); [done|].
    rewrite (decide_False (P:=i < 2)) by done. rewrite <-INR_IZR_INZ.
    reflexivity.
Qed.
End mixing_facts.

(** ** Tomographic bins *)

Section edge_facts.
Implicit Types (a e es : list R) (x y phz : R) (i j b : nat).

Lemma StronglySorted_lookup {A} (R : relation A) (l : list A) i j (x y : A) :
  StronglySorted R l → i < j → l !! i = Some x → l !! j = Some y → R x y.
Proof.
  intros Hs. revert i j. induction Hs as [|z l Hs IH Hall]; intros i j Hij Hi Hj;
    [done|].
  destruct j as [|j]; [lia|]. simpl in Hj. destruct i as [|i]; simpl in Hi.
  - injection Hi as ->. rewrite Forall_forall in Hall.
    by eapply Hall, list_elem_of_lookup_2.
  - apply (IH i j); [lia|done..].
Qed.

Lemma StronglySorted_Rlt_NoDup a : StronglySorted Rlt a → NoDup a.
Proof.
  induction 1 as [|x a Hs IH Hall]; constructor; [|done].
  intros Hin. rewrite Forall_forall in Hall. specialize (Hall _ Hin). lra.
Qed.

Lemma remove_dups_sorted_R a :
  StronglySorted Rle a → StronglySorted Rlt (remove_dups a).
Proof.
  induction a as [|x a IH]; [constructor|].
  intros [Hs Hall]%StronglySorted_inv. simpl.
  destruct (decide_rel _ x a) as [Hin|Hin]; [by apply IH|].
  constructor; [by apply IH|].
  apply Forall_forall. intros y Hy. rewrite elem_of_remove_dups in Hy.
  rewrite Forall_forall in Hall. specialize (Hall _ Hy).
  assert (y ≠ x) by congruence. lra.
Qed.

(** [np.unique] returns strictly increasing values, the values of its
    argument. *)
Lemma unique_values_sorted a :
  StronglySorted Rlt (np.unique_values (le:=Rle) a).
Proof.
  unfold np.unique_values. apply remove_dups_sorted_R.
  apply StronglySorted_merge_sort; apply _.
Qed.

Lemma elem_of_unique_values a x :
  x ∈ np.unique_values (le:=Rle) a ↔ x ∈ a.
Proof.
  unfold np.unique_values.
  by rewrite elem_of_remove_dups, merge_sort_Permutation.
Qed.

Lemma unique_values_of_sorted es :
  StronglySorted Rlt es → np.unique_values (le:=Rle) es = es.
Proof.
  intros Hs. apply (StronglySorted_unique Rlt); [apply unique_values_sorted|done|].
  apply NoDup_Permutation.
  - apply StronglySorted_Rlt_NoDup, unique_values_sorted.
  - by apply StronglySorted_Rlt_NoDup.
  - intros x. apply elem_of_unique_values.
Qed.

(** The bin found by [np.digitize] on increasing edges. *)
Lemma digitize_spec e phz b lo :
  StronglySorted Rlt e → e !! b = Some lo →
  np.digitize (le:=Rle) phz e = S b ↔
  (lo <= phz)%R ∧ ∀ hi, e !! S b = Some hi → (phz < hi)%R.
Proof.
  intros Hs Hb. unfold np.digitize.
  destruct (searchsorted_spec (lt:=Rle) e phz) as [Hlow Hhigh]. split.
  - intros Hk. rewrite Hk in Hlow, Hhigh. split.
    + by apply (Hlow b); [lia|].
    + intros hi Hhi. specialize (Hhigh _ Hhi). lra.
  - intros [Hlo Hhi].
    assert (∀ j y, j < S b → e !! j = Some y → (y <= phz)%R) as Hbelow.
    { intros j y Hj Hy. destruct (decide (j = b)) as [->|Hne].
      - assert (y = lo) as -> by congruence. done.
      - pose proof (StronglySorted_lookup Rlt e j b y lo Hs ltac:(lia) Hy Hb).
        lra. }
    destruct (e !! S b) as [hi|] eqn:Hsb.
    + apply (searchsorted_unique _ _ _ hi); [done..|].
      specialize (Hhi hi eq_refl). lra.
    + apply lookup_ge_None in Hsb. apply lookup_lt_Some in Hb as Hlt.
      assert (length e = S b) as <- by lia.
      apply searchsorted_all, Forall_lookup. intros j y Hy.
      apply (Hbelow j); [|done]. apply lookup_lt_Some in Hy. lia.
Qed.

Lemma digitize_zero e phz :
  np.digitize (le:=Rle) phz e = 0 ↔ ∀ lo, e !! 0 = Some lo → (phz < lo)%R.
Proof.
  unfold np.digitize. destruct e as [|x e]; simpl.
  - split; [|done]. intros _ lo. done.
  - destruct (decide (x <= phz)%R) as [Hx|Hx].
    + split; [done|]. intros Hlo. specialize (Hlo x eq_refl). lra.
    + split; [|done]. intros _ lo [= <-]. lra.
Qed.
End edge_facts.

Section consecutive_bins.
Import Tomography.

Implicit Types (es : list R) (x phz : R) (i : nat).

Lemma lookup_consecutive es i (z1 z2 : R) :
  zip es (tail es) !! i = Some (z1, z2) ↔
  es !! i = Some z1 ∧ es !! S i = Some z2.
Proof. by rewrite lookup_zip_Some, lookup_tail. Qed.

Lemma elem_of_consecutive es x :
  2 ≤ length es →
  x ∈ (zip es (tail es) ≫= λ b, [b.1; b.2]) ↔ x ∈ es.
Proof.
  intros Hlen. rewrite list_elem_of_bind. split.
  - intros ([z1 z2] & Hx & Hb). apply list_elem_of_lookup_1 in Hb as [i Hi].
    apply lookup_consecutive in Hi as [H1 H2]. simpl in Hx.
    apply elem_of_cons in Hx as [->|Hx]; [by eapply list_elem_of_lookup_2|].
    apply list_elem_of_singleton in Hx as ->.
    by eapply list_elem_of_lookup_2.
  - intros Hx. apply list_elem_of_lookup_1 in Hx as [i Hi].
    apply lookup_lt_Some in Hi as Hlt.
    destruct (decide (S i < length es)) as [Hs|Hs].
    + destruct (lookup_lt_is_Some_2 es (S i) Hs) as [y Hy].
      exists (x, y). split; [apply list_elem_of_here|].
      apply (list_elem_of_lookup_2 _ i). by apply lookup_consecutive.
    + destruct i as [|i]; [lia|].
      destruct (lookup_lt_is_Some_2 es i ltac:(lia)) as [y Hy].
      exists (y, x). split; [apply list_elem_of_further, list_elem_of_here|].
      apply (list_elem_of_lookup_2 _ i). by apply lookup_consecutive.
Qed.

(** For bins that are the consecutive pairs of increasing edges,
    [np.unique(zbins)] gives the edges back. *)
Lemma edges_consecutive es :
  StronglySorted Rlt es → 2 ≤ length es → edges (zip es (tail es)) = es.
Proof.
  intros Hs Hlen. unfold edges.
  apply (StronglySorted_unique Rlt); [apply unique_values_sorted|done|].
  apply NoDup_Permutation.
  - apply StronglySorted_Rlt_NoDup, unique_values_sorted.
  - by apply StronglySorted_Rlt_NoDup.
  - intros x. by rewrite elem_of_unique_values, elem_of_consecutive.
Qed.
End consecutive_bins.

(** ** The catalogue *)

Section broadcast_facts.
Context {A : Type}.

Implicit Types (l : list A) (n : nat).

Lemma broadcast_to_length n l l' :
  np.broadcast_to n l = Some l' → length l' = n.
Proof.
  unfold np.broadcast_to. destruct (decide (length l = n)) as [<-|_].
  - by intros [= <-].
  - destruct l as [|x [|??]]; [done| |done].
    intros [= <-]. apply length_replicate.
Qed.

Lemma broadcast_to_fmap {B} (f : A → B) n l :
  np.broadcast_to n (f <$> l) = fmap (M:=list) f <$> np.broadcast_to n l.
Proof.
  unfold np.broadcast_to. rewrite length_fmap.
  destruct (decide (length l = n)); [done|].
  destruct l as [|x [|??]]; [done| |done].
  simpl. by rewrite fmap_replicate.
Qed.
End broadcast_facts.

Section mask_facts.
Context {A B : Type}.

(** Selection by a mask that is computed row by row. *)
Lemma getitem_mask_fmap (f : A → B) (P : A → Prop) `{∀ x, Decision (P x)}
    (l : list A) :
  np.getitem_mask (f <$> l) ((λ x, bool_decide (P x)) <$> l) =
  Some (f <$> filter P l).
Proof.
  unfold np.getitem_mask. rewrite !length_fmap, decide_True by done.
  f_equal. induction l as [|x l IH]; [done|].
  rewrite !fmap_cons. cbn [zip zip_with]. rewrite !filter_cons. simpl.
  destruct (decide (P x)) as [HP|HP].
  - rewrite bool_decide_eq_true_2 by done. rewrite decide_True by done.
    rewrite !fmap_cons. simpl. by rewrite <-IH.
  - rewrite bool_decide_eq_false_2 by done. by rewrite decide_False.
Qed.

Lemma filter_ext_Forall (P Q : A → Prop) `{∀ x, Decision (P x)}
    `{∀ x, Decision (Q x)} (l : list A) :
  Forall (λ x, P x ↔ Q x) l → filter P l = filter Q l.
Proof.
  induction 1 as [|x l Hx _ IH]; [done|]. rewrite !filter_cons.
  destruct (decide (P x)), (decide (Q x)); [by rewrite IH|tauto..|done].
Qed.

Lemma getitem_mask_length (arr : list A) (mask : list bool) :
  length mask ≠ length arr → np.getitem_mask arr mask = None.
Proof. intros Hne. unfold np.getitem_mask. by rewrite decide_False. Qed.
End mask_facts.

Section catalogue_facts.
Import Tomography.

Implicit Types (zbins : list (R * R)) (b : batch) (cat rows : list row).

(** The new rows are as many as the galaxies of the pass, and the bin id of
    each row is the one of its photometric redshift. *)
Lemma new_rows_spec zbins b rows :
  new_rows zbins b = Some rows →
  length rows = gal_count b ∧
  Forall (λ r, ZBIN r = zbin_of zbins (PHZ r)) rows.
Proof.
  unfold new_rows, gal_zbin. rewrite (broadcast_to_fmap (zbin_of zbins)).
  destruct (np.broadcast_to (gal_count b) (gal_lon b)) as [ra|] eqn:Hra;
    cbn [mbind option_bind]; [|done].
  destruct (np.broadcast_to (gal_count b) (gal_lat b)) as [dec|] eqn:Hdec;
    cbn [mbind option_bind]; [|done].
  destruct (np.broadcast_to (gal_count b) (gal_z b)) as [zt|] eqn:Hzt;
    cbn [mbind option_bind]; [|done].
  destruct (np.broadcast_to (gal_count b) (gal_phz b)) as [phz|] eqn:Hphz;
    cbn [mbind option_bind]; [|done].
  change (fmap (M:=list) (zbin_of zbins) <$> Some phz)
    with (Some (zbin_of zbins <$> phz)).
  cbn [mbind option_bind].
  destruct (np.broadcast_to (gal_count b) (gal_she b).*1) as [g1|] eqn:Hg1;
    cbn [mbind option_bind]; [|done].
  destruct (np.broadcast_to (gal_count b) (gal_she b).*2) as [g2|] eqn:Hg2;
    cbn [mbind option_bind]; [|done].
  intros [= <-].
  apply broadcast_to_length in Hra, Hdec, Hzt, Hphz, Hg1, Hg2.
  split.
  - rewrite !length_zip_with, length_fmap. lia.
  - apply Forall_lookup. intros i r Hr.
    apply lookup_zip_with_Some in Hr as (f6 & x7 & -> & Hr & _).
    apply lookup_zip_with_Some in Hr as (f5 & x6 & -> & Hr & _).
    apply lookup_zip_with_Some in Hr as (f4 & x5 & -> & Hr & H5).
    apply lookup_zip_with_Some in Hr as (f3 & x4 & -> & Hr & H4).
    apply lookup_zip_with_Some in Hr as (f2 & x3 & -> & Hr & _).
    apply lookup_zip_with_Some in Hr as (x1 & x2 & -> & _ & _).
    simpl. rewrite list_lookup_fmap, H4 in H5. simpl in H5. congruence.
Qed.

Lemma new_rows_is_Some zbins b :
  length (gal_lon b) = gal_count b → length (gal_lat b) = gal_count b →
  length (gal_z b) = gal_count b → length (gal_phz b) = gal_count b →
  length (gal_she b) = gal_count b →
  is_Some (new_rows zbins b).
Proof.
  intros Hlon Hlat Hz Hphz Hshe. unfold new_rows, gal_zbin.
  rewrite !broadcast_to_same by by rewrite ?length_fmap.
  by eexists.
Qed.

Lemma build_spec zbins cat batches cat' :
  build zbins cat batches = Some cat' →
  Forall (λ r, ZBIN r = zbin_of zbins (PHZ r)) cat →
  length cat' = length cat + sum_list (gal_count <$> batches) ∧
  Forall (λ r, ZBIN r = zbin_of zbins (PHZ r)) cat'.
Proof.
  revert cat. induction batches as [|b bs IH]; intros cat E Hcat; simpl in E.
  - injection E as <-. simpl. split; [lia|done].
  - destruct (new_rows zbins b) as [rows|] eqn:Hrows; [|done]. simpl in E.
    destruct (new_rows_spec _ _ _ Hrows) as [Hlen Hall].
    destruct (IH _ E) as [Hlen' Hall'].
    + apply Forall_app. by split.
    + split; [|done]. rewrite Hlen', length_app, Hlen, fmap_cons.
      cbn [sum_list_with].
      change (Datatypes.id (gal_count b)) with (gal_count b). lia.
Qed.

Lemma build_is_Some zbins cat batches :
  Forall (λ b, length (gal_lon b) = gal_count b ∧
               length (gal_lat b) = gal_count b ∧
               length (gal_z b) = gal_count b ∧
               length (gal_phz b) = gal_count b ∧
               length (gal_she b) = gal_count b) batches →
  is_Some (build zbins cat batches).
Proof.
  intros Hall. revert cat.
  induction Hall as [|b bs (?&?&?&?&?) _ IH]; intros cat; [by eexists|].
  simpl. destruct (new_rows_is_Some zbins b) as [rows ->]; [done..|].
  simpl. apply IH.
Qed.
End catalogue_facts.

(** ** The histograms of the photometric-redshift notebook *)

Section histogram_facts.
Import Tomography.

Implicit Types (es : list R) (gals : list (R * R)) (z : R).

(** The sample of a bin, for galaxies given as pairs of true and
    photometric redshift. *)
Lemma bin_sample_pairs (z1 z2 : R) gals :
  bin_sample z1 z2 gals.*1 gals.*2 =
  Some (filter (λ g, (z1 <= g.2)%R ∧ (g.2 < z2)%R) gals).*1.
Proof.
  unfold bin_sample, bin_mask. rewrite <-list_fmap_compose.
  rewrite <-(getitem_mask_fmap fst (λ g, (z1 <= g.2)%R ∧ (g.2 < z2)%R)).
  f_equal. apply list_fmap_ext. intros i g _. simpl.
  by rewrite bool_decide_and.
Qed.

Lemma filter_split {A} (P P1 P2 : A → Prop) `{∀ x, Decision (P x)}
    `{∀ x, Decision (P1 x)} `{∀ x, Decision (P2 x)} (l : list A) :
  (∀ x, P x ↔ P1 x ∨ P2 x) → (∀ x, P1 x → ¬ P2 x) →
  filter P l ≡ₚ filter P1 l ++ filter P2 l.
Proof.
  intros Hor Hdisj. induction l as [|x l IH]; [done|].
  rewrite !filter_cons. specialize (Hor x). specialize (Hdisj x).
  destruct (decide (P x)), (decide (P1 x)), (decide (P2 x));
    try tauto; simpl.
  - by rewrite IH.
  - rewrite IH. apply Permutation_middle.
Qed.

Lemma last_sorted_ge (e : R) es :
  StronglySorted Rlt (e :: es) → (e <= default 0 (last (e :: es)))%R.
Proof.
  intros [_ Hall]%StronglySorted_inv. rewrite last_cons.
  destruct (last es) as [y|] eqn:Hy; simpl; [|lra].
  apply last_Some in Hy as [l' ->]. rewrite Forall_forall in Hall.
  assert (e < y)%R; [|lra]. apply Hall, elem_of_app. right.
  apply list_elem_of_here.
Qed.

(** Consecutive half-open bins split the galaxies between the first and
    the last edge. *)
Lemma consecutive_partition es gals :
  StronglySorted Rlt es →
  concat ((λ b, (filter (λ g, (b.1 <= g.2)%R ∧ (g.2 < b.2)%R) gals).*1)
            <$> zip es (tail es)) ≡ₚ
  (filter (λ g, (default 0 (head es) <= g.2)%R ∧
                (g.2 < default 0 (last es))%R) gals).*1.
Proof.
  induction es as [|e0 es IH]; intros Hs.
  - simpl. rewrite filter_none; [done|].
    apply Forall_forall. intros g _ [??]. lra.
  - destruct es as [|e1 es].
    + simpl. rewrite filter_none; [done|].
      apply Forall_forall. intros g _ [??]. lra.
    + pose proof Hs as [Hs' Hall]%StronglySorted_inv.
      apply Forall_cons in Hall as [H01 _].
      pose proof (last_sorted_ge e1 es Hs') as Hlast.
      change (zip (e0 :: e1 :: es) (tail (e0 :: e1 :: es)))
        with ((e0, e1) :: zip (e1 :: es) (tail (e1 :: es))).
      rewrite fmap_cons. cbn [concat]. rewrite (IH Hs').
      rewrite last_cons_cons.
      cbn [head default from_option fst snd] in Hlast |- *.
      unfold Datatypes.id in Hlast |- *. rewrite <-fmap_app. apply fmap_Permutation. symmetry.
      apply filter_split.
      * intros g. split.
        -- intros [??]. destruct (Rlt_dec g.2 e1); [left|right]; lra.
        -- intros [[??]|[??]]; lra.
      * intros g [??] [??]. lra.
Qed.

Lemma mapM_Some_fmap {A B} (g : A → B) (l : list A) :
  mapM (λ x, Some (g x)) l = Some (g <$> l).
Proof.
  induction l as [|x l IH]; [done|]. cbn [mapM]. by rewrite IH.
Qed.
End histogram_facts.

(** ** The mean fields *)

Section mean_facts.
Import MeanField.
Context {V : Type} `{ArithLaws V}.

Implicit Types (bar ks r : list V) (shells : list (V * list V))
  (c w lo hi W : V).

Lemma iadd_array_length bar x bar' :
  iadd_array bar x = Some bar' → length bar' = length bar.
Proof.
  unfold iadd_array.
  destruct (np.broadcast_to (length bar) x) as [vs|] eqn:Hvs; [|done].
  intros [= <-]. apply broadcast_to_length in Hvs.
  rewrite length_zip_with. lia.
Qed.

Lemma accumulate_length bar shells r :
  accumulate bar shells = Some r → length r = length bar.
Proof.
  revert bar. induction shells as [|s shells IH]; intros bar E; simpl in E.
  - by injection E as <-.
  - destruct (iadd_array bar _) as [bar'|] eqn:E1; [|done]. simpl in E.
    rewrite (IH _ E). by eapply iadd_array_length.
Qed.

(** Every entry of a broadcast array is an entry of the array. *)
Lemma broadcast_to_Forall {A} (P : A → Prop) n (l l' : list A) :
  np.broadcast_to n l = Some l' → Forall P l → Forall P l'.
Proof.
  unfold np.broadcast_to. destruct (decide (length l = n)).
  - by intros [= <-].
  - destruct l as [|x [|??]]; [done| |done].
    intros [= <-] Hx. apply Forall_cons in Hx as [Hx _].
    by apply Forall_replicate.
Qed.

Lemma Forall_zip_with_2 {A B C} (P : A → Prop) (Q : B → Prop) (S : C → Prop)
    (f : A → B → C) (l : list A) (k : list B) :
  (∀ x y, P x → Q y → S (f x y)) →
  Forall P l → Forall Q k → Forall S (zip_with f l k).
Proof.
  intros Hf Hl. revert k. induction Hl as [|x l Hx _ IH]; intros k Hk;
    [constructor|].
  destruct Hk as [|y k Hy Hk]; [constructor|].
  simpl. constructor; [by apply Hf|by apply IH].
Qed.

(** The running sums stay between the bounds of the fields, weighted by
    the densities added so far. *)
Lemma accumulate_bounds lo hi W bar shells r :
  Forall (λ x, ale (amul lo W) x ∧ ale x (amul hi W)) bar →
  Forall (λ s, ale azero s.1 ∧ Forall (λ k, ale lo k ∧ ale k hi) s.2)
    shells →
  accumulate bar shells = Some r →
  Forall (λ x, ale (amul lo (aadd W (foldr aadd azero shells.*1))) x ∧
               ale x (amul hi (aadd W (foldr aadd azero shells.*1)))) r.
Proof.
  intros Hbar Hsh. revert W bar Hbar.
  induction Hsh as [|[w ks] shells [Hw Hks] _ IH]; intros W bar Hbar E;
    simpl in E.
  - injection E as <-. simpl. eapply Forall_impl; [exact Hbar|].
    simpl. intros x. by rewrite aadd_zero_r.
  - destruct (iadd_array bar _) as [bar'|] eqn:E1; [|done]. simpl in E.
    simpl in Hw, Hks. specialize (IH (aadd W w) bar').
    rewrite fmap_cons. cbn [foldr fst].
    eapply Forall_impl; [apply IH; [|done]|].
    + unfold iadd_array in E1.
      destruct (np.broadcast_to (length bar) _) as [vs|] eqn:Hvs; [|done].
      injection E1 as <-.
      apply (Forall_zip_with_2
               (λ x, ale (amul lo W) x ∧ ale x (amul hi W))
               (λ v, ale (amul lo w) v ∧ ale v (amul hi w))); [|done|].
      * intros x v [??] [??]. rewrite !amul_aadd_distr.
        split; by apply ale_aadd.
      * eapply broadcast_to_Forall; [exact Hvs|].
        apply Forall_fmap. eapply Forall_impl; [exact Hks|].
        simpl. intros k [??]. rewrite (amul_comm lo w), (amul_comm hi w).
        split; by apply ale_amul.
    + simpl. intros x. by rewrite aadd_assoc.
Qed.

Lemma zip_with_aadd_scale c bar (vs : list V) :
  zip_with aadd (amul c <$> bar) (amul c <$> vs) =
  amul c <$> zip_with aadd bar vs.
Proof.
  revert vs. induction bar as [|x bar IH]; intros [|v vs]; [done..|].
  rewrite !fmap_cons. cbn [zip_with]. rewrite IH, fmap_cons.
  f_equal. by rewrite amul_aadd_distr.
Qed.

(** Scaling the running sums and all densities by [c] scales the result. *)
Lemma accumulate_scale c bar shells :
  accumulate (amul c <$> bar) ((λ s, (amul c s.1, s.2)) <$> shells) =
  fmap (M:=list) (amul c) <$> accumulate bar shells.
Proof.
  revert bar. induction shells as [|[w ks] shells IH]; intros bar; [done|].
  rewrite fmap_cons. cbn [accumulate fst snd].
  assert (iadd_array (amul c <$> bar) ((λ k, amul (amul c w) k) <$> ks) =
          fmap (M:=list) (amul c) <$>
            iadd_array bar ((λ k, amul w k) <$> ks)) as ->.
  { unfold iadd_array. rewrite length_fmap.
    rewrite (list_fmap_ext _ (amul c ∘ amul w) ks) by
      (intros; simpl; by rewrite amul_assoc).
    rewrite (list_fmap_compose (amul w) (amul c)), broadcast_to_fmap.
    change ((λ k : V, amul w k) <$> ks) with (amul w <$> ks).
    destruct (np.broadcast_to (length bar) (amul w <$> ks)); [|done].
    simpl. by rewrite zip_with_aadd_scale. }
  destruct (iadd_array bar _) as [bar'|]; [|done]. simpl. apply IH.
Qed.

(** A field has no zero divisors, and a common factor of the dividend and
    the divisor cancels. *)
Lemma adiv_azero (y : V) : y ≠ azero → adiv azero y = azero.
Proof.
  intros Hy. rewrite <-(amul_azero y) at 1.
  rewrite (amul_comm y azero). by apply adiv_amul.
Qed.

Lemma amul_nonzero (x y : V) : x ≠ azero → y ≠ azero → amul x y ≠ azero.
Proof.
  intros Hx Hy E. apply Hx.
  rewrite <-(adiv_amul x y Hy), E. by apply adiv_azero.
Qed.

Lemma adiv_cancel c (x n : V) :
  c ≠ azero → n ≠ azero → adiv (amul c x) (amul c n) = adiv x n.
Proof.
  intros Hc Hn.
  rewrite <-(amul_adiv x n Hn) at 1.
  rewrite (amul_comm c), <-amul_assoc, (amul_comm n c).
  apply adiv_amul. by apply amul_nonzero.
Qed.
End mean_facts.

(** * The claims *)

(** ** Reduction of the catalogue into pixels *)

(** X1.  Four points that all map to pixel 7, with values 1, 2, 3 and 4,
    reduced into zero maps of 8 pixels: pixel 7 holds count 4 and sum 10,
    every other pixel count 0 and sum 0. *)
Example four_points_in_pixel_7 :
  reduce_points (V:=Z * Z) (zeros 8)
    [(7, (1, 0)%Z); (7, (2, 0)%Z); (7, (3, 0)%Z); (7, (4, 0)%Z)] =
  Some {| num := [0; 0; 0; 0; 0; 0; 0; 4]%Z;
          she := replicate 7 (0, 0)%Z ++ [(10, 0)%Z] |}.
Proof. reflexivity. Qed.

(** C2 (amended).  For every batch of (pixel, value) points, whatever the
    value type: the per-pixel counts of the argsort / unique / split
    reduction, run with any permutation that sorts the pixel ids, are those
    of the naive linear scan, are the same for every permutation of the
    points, and are the same whether the points come as one batch or as two
    sub-batches reduced one after the other.  When the values are added
    exactly (associative and commutative addition with zero as unit), the
    same three statements hold for the maps as a whole, counts and value
    sums, and the result is the per-pixel aggregate of the batch added to the
    maps. *)
Theorem reduction_order_independent {V} `{Accum V}
    (m : maps V) (pts : list (nat * V)) :
  ((∀ s, np.sorts pts.*1 s →
      num <$> reduce_with s m pts.*1 pts.*2 = num <$> linear_scan m pts) ∧
   (∀ pts', pts ≡ₚ pts' →
      num <$> reduce_points m pts = num <$> reduce_points m pts') ∧
   (∀ b1 b2, pts = b1 ++ b2 →
      num <$> reduce_points m pts =
      num <$> (m' ← reduce_points m b1; reduce_points m' b2))) ∧
  (AccumLaws V →
   (∀ s, np.sorts pts.*1 s →
      reduce_with s m pts.*1 pts.*2 = linear_scan m pts) ∧
   (in_range m pts → reduce_points m pts = Some (add_aggregate m pts)) ∧
   (∀ pts', pts ≡ₚ pts' → reduce_points m pts = reduce_points m pts') ∧
   (∀ b1 b2, pts = b1 ++ b2 →
      reduce_points m pts = m' ← reduce_points m b1; reduce_points m' b2)).
Proof.
  split; [split_and!|intros Hlaws; split_and!].
  - intros s Hs. by apply reduce_with_counts.
  - intros pts' Hp. by apply reduce_points_counts_permutation.
  - intros b1 b2 ->. apply reduce_points_counts_app.
  - intros s Hs. by apply reduce_with_linear_scan.
  - intros Hr. rewrite reduce_points_linear_scan, linear_scan_aggregate.
    by rewrite decide_True.
  - intros pts' Hp. rewrite !reduce_points_linear_scan.
    by apply linear_scan_permutation.
  - intros b1 b2 ->. rewrite !reduce_points_linear_scan, linear_scan_app.
    destruct (linear_scan m b1) as [m1|]; simpl; [|done].
    by rewrite reduce_points_linear_scan.
Qed.

Lemma reduction_order_independent_witness :
  let m := zeros (V:=Z * Z) 8 in
  let pts := [(7, (1, 0)%Z); (2, (2, 0)%Z); (7, (3, 0)%Z); (7, (4, 0)%Z)] in
  in_range m pts ∧
  reduce_points m pts = Some (add_aggregate m pts) ∧
  reduce_points m pts = linear_scan m pts ∧
  (∀ pts', pts ≡ₚ pts' → reduce_points m pts = reduce_points m pts') ∧
  (∀ b1 b2, pts = b1 ++ b2 →
     reduce_points m pts = m' ← reduce_points m b1; reduce_points m' b2).
Proof.
  intros m pts.
  assert (in_range m pts) as Hr by (repeat constructor; simpl; lia).
  destruct (reduction_order_independent m pts) as [_ Hexact].
  destruct (Hexact (complex_accum_laws (V:=Z))) as (Hscan & Hagg & Hperm & Happ).
  split_and!; [exact Hr|exact (Hagg Hr)| |exact Hperm|exact Happ].
  apply Hscan, argsort_sorts.
Defined.

(** C2 as stated fails on binary64 values.  Three points of pixel 7 with
    shears 0.1, 0.2 and 0.3: reduced as the sub-batches [0.1] and
    [0.2, 0.3] the pixel holds 0.1 + (0.2 + 0.3) = 0.6, the linear scan holds
    (0.1 + 0.2) + 0.3 = 0.6000000000000001.  The two differ, so the
    reduction of the three points as one batch cannot agree with both.  The
    sub-batches have at most two points per pixel, so their sums do not
    depend on how argsort orders equal pixels. *)
Lemma reduction_binary64_not_identical :
  let p1 := (7, (f01, 0%float)) in
  let p2 := (7, (f02, 0%float)) in
  let p3 := (7, (f03, 0%float)) in
  let one_batch := reduce_points (zeros 8) [p1; p2; p3] in
  let sub_batches := m ← reduce_points (zeros 8) [p1]; reduce_points m [p2; p3] in
  let scan := linear_scan (zeros 8) [p1; p2; p3] in
  sub_batches ≠ scan ∧ ¬ (one_batch = sub_batches ∧ one_batch = scan).
Proof.
  intros p1 p2 p3 one_batch sub_batches scan.
  assert (sub_batches ≠ scan) as Hne.
  { intros E.
    apply (f_equal (λ r : option (maps (float * float)),
             match r with
             | Some m => match she m !! 7 with
                         | Some x => PrimFloat.eqb x.1 0x1.3333333333333p-1
                         | None => false
                         end
             | None => false
             end)) in E.
    vm_compute in E. discriminate. }
  split; [exact Hne|]. intros [E1 E2]. apply Hne. by rewrite <-E1.
Qed.

(** X2.  The simulation loop never raises when every galaxy falls in a pixel
    of the maps: all batches are reduced, and both maps keep their [npix]
    pixels. *)
Theorem reduce_all_total {V} `{Accum V} (npix : nat)
    (batches : list (list (nat * V))) :
  Forall (Forall (λ pt, pt.1 < npix)) batches →
  ∃ m, reduce_all (zeros npix) batches = Some m ∧
       length (num m) = npix ∧ length (she m) = npix.
Proof.
  assert (∀ m0 : maps V,
    length (num m0) = npix → length (she m0) = npix →
    Forall (Forall (λ pt, pt.1 < npix)) batches →
    ∃ m, reduce_all m0 batches = Some m ∧
         length (num m) = npix ∧ length (she m) = npix) as Hgen.
  { induction batches as [|b bs IH]; intros m0 Hn Hs Hall.
    - by exists m0.
    - apply Forall_cons in Hall as [Hb Hbs].
      destruct (reduce_points_in_range m0 b) as [m1 E1].
      { unfold in_range. rewrite Hn, Hs.
        eapply Forall_impl; [exact Hb|]. simpl. intros; lia. }
      destruct (reduce_points_lengths m0 b m1 E1) as [Hn1 Hs1].
      destruct (IH m1) as (m & E & Hlen); [congruence..|done|].
      exists m. simpl. rewrite E1. simpl. by split. }
  intros Hall. apply Hgen; [..|done]; simpl; by rewrite length_replicate.
Qed.

Lemma reduce_all_total_witness :
  let batches := [[(7, (f01, f02)); (2, (f03, f01))]; []; [(7, (f02, f02))]] in
  Forall (Forall (λ pt : nat * (float * float), pt.1 < 8)) batches ∧
  ∃ m, reduce_all (zeros 8) batches = Some m ∧
       length (num m) = 8 ∧ length (she m) = 8.
Proof.
  intros batches.
  assert (Forall (Forall (λ pt : nat * (float * float), pt.1 < 8)) batches)
    as Hall by (repeat constructor; simpl; lia).
  split; [exact Hall|]. exact (reduce_all_total 8 batches Hall).
Defined.

(** C10.  After any number of batches reduced into maps that started at zero,
    a pixel whose count is zero has a shear sum that is exactly zero.  No
    property of the addition is used: the statement holds for binary64 values
    as well. *)
Theorem count_zero_shear_zero {V} `{Accum V} (npix : nat)
    (batches : list (list (nat * V))) (m : maps V) :
  reduce_all (zeros npix) batches = Some m →
  ∀ p, num m !! p = Some 0%Z → she m !! p = Some azero.
Proof.
  intros E p Hp.
  destruct (coupled_reduce_all _ _ _ (coupled_zeros npix) E) as [_ Hinv].
  by destruct (Hinv p 0%Z Hp) as [_ ->].
Qed.

Lemma count_zero_shear_zero_witness :
  let batches := [[(7, (f01, f02)); (2, (f03, f01))]; []; [(7, (f02, f02))]] in
  let m := {| num := [0; 0; 1; 0; 0; 0; 0; 2]%Z;
              she := [(0, 0); (0, 0); (f03, f01); (0, 0); (0, 0); (0, 0); (0, 0);
                      (0x1.3333333333334p-2, 0x1.999999999999ap-2)]%float |} in
  reduce_all (zeros 8) batches = Some m ∧
  num m !! 3 = Some 0%Z ∧
  she m !! 3 = Some (0, 0)%float.
Proof.
  intros batches m.
  assert (reduce_all (zeros 8) batches = Some m) as E by (vm_compute; reflexivity).
  split; [exact E|]. split; [reflexivity|].
  apply (count_zero_shear_zero 8 batches m E 3). reflexivity.
Defined.

(** ** Comparison with the theory spectrum *)

(** C4.  When the observed spectrum is the theory spectrum, the noise level
    is zero and the mixing matrix is the identity, both sides of the
    comparison are the theory spectrum: subtracting the noise leaves it
    unchanged, and so does the product with the mixing matrix (also inside
    the plotted expression, with unit pixel window and unit shear factor). *)
Theorem debias_identity (theory : list R) :
  let n := length theory in
  simulation theory (replicate n 0%R) = Some theory ∧
  np.matvec (np.eye n n) theory = Some theory ∧
  expectation (replicate n 1%R) (np.eye n n) (replicate n 1%R) theory =
    Some theory.
Proof.
  intros n. subst n. split_and!.
  - unfold simulation.
    rewrite elementwise_same_length by (by rewrite length_replicate).
    by rewrite zip_with_minus_zeros.
  - apply matvec_eye.
  - unfold expectation.
    set (n := length theory).
    assert (mapM (np.elementwise Rmult ((λ x, (x ^ 2)%R) <$> replicate n 1%R))
              (np.eye n n) = Some (np.eye n n)) as ->.
    { apply mapM_Some_2, Forall_Forall2_diag, Forall_forall.
      intros row Hrow%eye_rows.
      rewrite elementwise_same_length
        by (by rewrite length_fmap, length_replicate).
      f_equal. rewrite fmap_replicate.
      replace (1 ^ 2)%R with 1%R by lra.
      rewrite <-Hrow at 1. apply zip_with_mult_ones. }
    subst n. cbn [mbind option_bind].
    rewrite elementwise_same_length by (by rewrite length_replicate).
    cbn [mbind option_bind]. rewrite zip_with_mult_ones. apply matvec_eye.
Qed.

(** C5.  Whenever the expected total number of galaxies [nbar*npix] is not
    zero, the noise level and the mixing matrix are computed without an
    error.  The noise level has one entry per multipole and is zero at l = 0
    and l = 1 (so it is nonzero only for l >= 2); the mixing matrix is square
    over the multipoles, and every entry in a row or in a column with
    l < 2 is zero.  (At [nbar*npix = 0] both quotients of the cell raise
    ZeroDivisionError and neither array exists.) *)
Theorem degenerate_multipoles (nbar : R) (npix : nat) (sigma_e : R) (lmax : nat) :
  (nbar * INR npix ≠ 0)%R →
  ∃ nlv mmv,
    nl nbar npix sigma_e lmax = Some nlv ∧
    mm nbar npix lmax = Some mmv ∧
    length nlv = S lmax ∧
    (∀ l x, nlv !! l = Some x → l < 2 → x = 0%R) ∧
    (∀ l x, nlv !! l = Some x → x ≠ 0%R → 2 ≤ l) ∧
    length mmv = S lmax ∧
    Forall (λ row, length row = S lmax) mmv ∧
    (∀ i j row x, mmv !! i = Some row → row !! j = Some x →
       i < 2 ∨ j < 2 → x = 0%R).
Proof.
  intros HN. unfold nl, mm. rewrite !truediv_Some by done.
  cbn [mbind option_bind]. eexists _, _.
  split; [reflexivity|]. split; [reflexivity|].
  set (q := (4 * PI / (nbar * INR npix))%R).
  set (inv := (1 / (nbar * INR npix))%R).
  assert (∀ l x, (nl_at q sigma_e <$> np.arange (S lmax)) !! l = Some x →
                 l < 2 → x = 0%R) as Hnl.
  { intros l x Hx Hl. rewrite list_lookup_fmap in Hx.
    destruct (np.arange (S lmax) !! l) as [z|] eqn:Ez; simpl in Hx; [|done].
    apply lookup_arange_Some in Ez as ->. injection Hx as <-.
    apply nl_at_low. lia. }
  split_and!.
  - unfold np.arange. by rewrite !length_fmap, length_seq.
  - exact Hnl.
  - intros l x Hx Hne. destruct (decide (l < 2)) as [Hl|]; [|lia].
    destruct Hne. by eapply Hnl.
  - unfold zero_cols, zero_rows, np.eye.
    by rewrite !length_fmap, length_imap, !length_fmap, length_seq.
  - unfold zero_cols. apply Forall_fmap, Forall_forall.
    intros row Hrow. simpl. rewrite length_imap.
    unfold zero_rows in Hrow.
    apply elem_of_lookup_imap_1 in Hrow as (i & r & -> & Hr).
    assert (length r = S lmax) as Hlen.
    { unfold np.eye in Hr. rewrite !list_lookup_fmap in Hr.
      destruct (seq 0 (S lmax) !! i); simpl in Hr; [|done].
      injection Hr as <-. simpl. f_equal.
      rewrite length_zip_with_l_eq; by rewrite !length_fmap, ?length_seq. }
    destruct (decide (i < 2)); by rewrite ?length_fmap.
  - intros i j row x Hrow Hx Hij.
    destruct (zero_cols_lookup _ _ _ _ _ _ Hrow Hx) as [Hlow Hhigh].
    destruct (decide (j < 2)) as [Hj|Hj]; [by apply Hlow|].
    destruct Hhigh as (r & Hr & Hrx); [lia|].
    eapply zero_rows_lookup; [exact Hr|exact Hrx|lia].
Qed.

Lemma degenerate_multipoles_witness :
  (5 * INR 12 ≠ 0)%R ∧
  ∃ nlv mmv,
    nl 5 12 (1 / 4) 3 = Some nlv ∧ mm 5 12 3 = Some mmv ∧
    length nlv = 4 ∧ length mmv = 4 ∧
    (∀ x, nlv !! 1 = Some x → x = 0%R) ∧
    (∀ row x, mmv !! 3 = Some row → row !! 0 = Some x → x = 0%R).
Proof.
  assert (5 * INR 12 ≠ 0)%R as HN by (simpl; lra).
  split; [exact HN|].
  destruct (degenerate_multipoles 5 12 (1 / 4) 3 HN)
    as (nlv & mmv & Hnl & Hmm & Hlen & Hlow & _ & Hlen' & _ & Hz).
  exists nlv, mmv. split_and!; [done..| |].
  - intros x Hx. apply (Hlow 1 x Hx). lia.
  - intros row x Hrow Hx. apply (Hz 3 0 row x Hrow Hx). lia.
Defined.

(** ** Normalisation of the maps *)

(** C6 as stated fails: a pixel that received no galaxy is read back from the
    normalised maps as the ordinary value zero, not as an error.  Here with
    no galaxy at all and [nbar = 1]. *)
Lemma empty_pixel_read_is_a_value :
  let m := zeros (V:=R * R) 2 in
  num m !! 0 = Some 0%Z ∧
  (normalise 1 m).1 !! 0 = Some 0%R ∧
  (normalise 1 m).2 !! 0 = Some (0, 0)%R ∧
  (normalise 1 m).1 !! 0 ≠ None.
Proof.
  simpl. split_and!; try done.
  - f_equal. lra.
  - f_equal. f_equal; lra.
Qed.

(** C6 (amended).  The maps are divided by the constant [nbar], never by a
    pixel's own count: for a nonzero [nbar], a pixel whose accumulated count
    is zero reads as count 0 and shear 0 after normalisation, as ordinary
    values. *)
Theorem empty_pixel_normalises_to_zero (nbar : R) (npix : nat)
    (batches : list (list (nat * (R * R)))) (m : maps (R * R)) (p : nat) :
  nbar ≠ 0%R →
  reduce_all (zeros npix) batches = Some m →
  num m !! p = Some 0%Z →
  (normalise nbar m).1 !! p = Some 0%R ∧
  (normalise nbar m).2 !! p = Some (0, 0)%R.
Proof.
  intros Hnbar E Hp.
  destruct (coupled_reduce_all _ _ _ (coupled_zeros npix) E) as [_ Hinv].
  destruct (Hinv p 0%Z Hp) as [_ Hshe]. specialize (Hshe eq_refl).
  unfold normalise. simpl. rewrite !list_lookup_fmap, Hp, Hshe. simpl.
  split; f_equal; [|f_equal]; unfold Rdiv; apply Rmult_0_l.
Qed.

Lemma empty_pixel_normalises_to_zero_witness :
  let batches := [[(1, (1, 2)%R)]] in
  let m := {| num := [0; 1]%Z;
              she := [(0, 0); (0 + (0 + 1), 0 + (0 + 2))]%R |} in
  (1 ≠ 0)%R ∧
  reduce_all (zeros 2) batches = Some m ∧
  num m !! 0 = Some 0%Z ∧
  (normalise 1 m).1 !! 0 = Some 0%R ∧
  (normalise 1 m).2 !! 0 = Some (0, 0)%R.
Proof.
  intros batches m.
  assert (1 ≠ 0)%R as H1 by lra.
  assert (reduce_all (zeros 2) batches = Some m) as E by (vm_compute; reflexivity).
  split; [exact H1|]. split; [exact E|]. split; [reflexivity|].
  exact (empty_pixel_normalises_to_zero 1 2 batches m 0 H1 E eq_refl).
Defined.

(** ** Binning into the cube *)

(** C7 as stated fails.  With [zb[-1] = 1] the edges are -1, -0.9, ..., 1;
    a galaxy at latitude 0 has [z3 = 0], which is edge 10: the upper edge of
    bin 9 and the lower edge of bin 10.  Binning by
    [coordinate < upper_edge] would put it in bin 10; the code puts it in
    bin 9. *)
Lemma boundary_point_not_in_next_bin :
  let g : GalaxyDensity.galaxy := (1 / 2, 0, 0)%R in
  (GalaxyDensity.cartesian g).2 = 0%R ∧
  GalaxyDensity.zcub 1 !! 9 = Some (- (1 / 10))%R ∧
  GalaxyDensity.zcub 1 !! 10 = Some 0%R ∧
  (GalaxyDensity.cell 1 g).2 = 9 ∧
  (GalaxyDensity.cell 1 g).2 ≠ 10.
Proof.
  assert (GalaxyDensity.zcub 1 !! 10 = Some 0%R) as E10.
  { rewrite zcub_lookup by lia. f_equal. simpl. lra. }
  assert ((1 / 2 * sin (GalaxyDensity.deg2rad 0))%R = 0%R) as Ez3.
  { unfold GalaxyDensity.deg2rad. rewrite Rmult_0_l, sin_0. lra. }
  assert ((GalaxyDensity.cell 1 (1 / 2, 0, 0)%R).2 = 9) as E.
  { unfold GalaxyDensity.cell, GalaxyDensity.cartesian. cbn [snd]. rewrite Ez3.
    apply (searchsorted_at_edge (lt:=Rlt)).
    - apply StronglySorted_tail, zcub_increasing. lra.
    - by rewrite lookup_tail. }
  intros g. subst g. split_and!.
  - exact Ez3.
  - rewrite zcub_lookup by lia. f_equal. simpl. lra.
  - exact E10.
  - exact E.
  - rewrite E. lia.
Qed.

(** C7 (amended).  The bin of a coordinate is found by
    [np.searchsorted(zcub[1:], .)] with the default [side='left']: bin [b]
    holds the coordinates [v] with [upper_edge(b-1) < v <= upper_edge(b)].
    So a point equal to the upper edge of a bin belongs to that bin, not to
    the next one, and this holds for all 20 bins. *)
Theorem boundary_point_bin (zmax : R) :
  (0 < zmax)%R →
  (∀ b e, b < 20 → GalaxyDensity.zcub zmax !! S b = Some e →
     np.searchsorted (lt:=Rlt) (tail (GalaxyDensity.zcub zmax)) e = b) ∧
  (∀ v j e, j < np.searchsorted (lt:=Rlt) (tail (GalaxyDensity.zcub zmax)) v →
     tail (GalaxyDensity.zcub zmax) !! j = Some e → (e < v)%R) ∧
  (∀ v e, tail (GalaxyDensity.zcub zmax)
            !! np.searchsorted (lt:=Rlt) (tail (GalaxyDensity.zcub zmax)) v
          = Some e → (v <= e)%R).
Proof.
  intros Hz. split_and!.
  - intros b e _ He. apply (searchsorted_at_edge (lt:=Rlt)).
    + by apply StronglySorted_tail, zcub_increasing.
    + by rewrite lookup_tail.
  - intros v j e Hj He.
    by apply (proj1 (searchsorted_spec (lt:=Rlt)
                       (tail (GalaxyDensity.zcub zmax)) v) j e).
  - intros v e He.
    apply Rnot_lt_le.
    by apply (proj2 (searchsorted_spec (lt:=Rlt)
                       (tail (GalaxyDensity.zcub zmax)) v) e).
Qed.

Lemma boundary_point_bin_witness :
  (0 < 1)%R ∧
  (∀ b e, b < 20 → GalaxyDensity.zcub 1 !! S b = Some e →
     np.searchsorted (lt:=Rlt) (tail (GalaxyDensity.zcub 1)) e = b) ∧
  (∀ v j e, j < np.searchsorted (lt:=Rlt) (tail (GalaxyDensity.zcub 1)) v →
     tail (GalaxyDensity.zcub 1) !! j = Some e → (e < v)%R) ∧
  (∀ v e, tail (GalaxyDensity.zcub 1)
            !! np.searchsorted (lt:=Rlt) (tail (GalaxyDensity.zcub 1)) v
          = Some e → (v <= e)%R).
Proof.
  assert (0 < 1)%R as H by lra.
  split; [exact H|]. exact (boundary_point_bin 1 H).
Defined.

(** C9.  The grid has 21 edges and the cube 20 cells along each axis.  For
    galaxies with [0 <= gal_z <= zb[-1]], each Cartesian coordinate lies in
    [[-zb[-1], zb[-1]]], each bin index is below 20, and
    [cube[i, j, k] += c] does not raise; the cube keeps its shape, so the
    same holds in the next pass. *)
Theorem cube_update_in_bounds (zmax : R) (cube : list (list (list Z)))
    (gals : list GalaxyDensity.galaxy) :
  GalaxyDensity.cubic 20 cube →
  Forall (λ g : GalaxyDensity.galaxy, (0 <= g.1.1 <= zmax)%R) gals →
  length (GalaxyDensity.zcub zmax) = 21 ∧
  GalaxyDensity.cubic 20 (GalaxyDensity.cube_zeros zmax) ∧
  Forall (λ g, let '(z1, z2, z3) := GalaxyDensity.cartesian g in
               (- zmax <= z1 <= zmax)%R ∧ (- zmax <= z2 <= zmax)%R ∧
               (- zmax <= z3 <= zmax)%R) gals ∧
  Forall (λ g, GalaxyDensity.in_cube 20 (GalaxyDensity.cell zmax g)) gals ∧
  ∃ cube', GalaxyDensity.add_to_cube zmax cube gals = Some cube' ∧
           GalaxyDensity.cubic 20 cube'.
Proof.
  intros Hc Hz.
  assert (Forall (λ g, let '(z1, z2, z3) := GalaxyDensity.cartesian g in
               (- zmax <= z1 <= zmax)%R ∧ (- zmax <= z2 <= zmax)%R ∧
               (- zmax <= z3 <= zmax)%R) gals) as Hcart.
  { eapply Forall_impl; [exact Hz|]. intros [[gal_z gal_lon] gal_lat] Hg.
    by apply cartesian_bounds. }
  assert (Forall (λ g, GalaxyDensity.in_cube 20 (GalaxyDensity.cell zmax g))
            gals) as Hcell.
  { eapply Forall_impl; [exact Hcart|]. intros g Hg.
    unfold GalaxyDensity.cell. cbv beta in Hg. revert Hg.
    destruct (GalaxyDensity.cartesian g) as [[z1 z2] z3].
    intros ([_ H1] & [_ H2] & [_ H3]).
    split_and!; simpl; by apply searchsorted_upper_edges. }
  split_and!; [apply zcub_length|apply cubic_zeros|done|done|].
  by apply add_to_cube_in_cube.
Qed.

Lemma cube_update_in_bounds_witness :
  let gals : list GalaxyDensity.galaxy := [(1 / 2, 30, 45); (1, 0, 0)]%R in
  GalaxyDensity.cubic 20 (GalaxyDensity.cube_zeros 1) ∧
  Forall (λ g : GalaxyDensity.galaxy, (0 <= g.1.1 <= 1)%R) gals ∧
  Forall (λ g, GalaxyDensity.in_cube 20 (GalaxyDensity.cell 1 g)) gals ∧
  ∃ cube', GalaxyDensity.add_to_cube 1 (GalaxyDensity.cube_zeros 1) gals
             = Some cube' ∧
           GalaxyDensity.cubic 20 cube'.
Proof.
  intros gals.
  assert (Forall (λ g : GalaxyDensity.galaxy, (0 <= g.1.1 <= 1)%R) gals) as Hz.
  { repeat constructor; simpl; lra. }
  split; [exact (cubic_zeros 1)|]. split; [exact Hz|].
  exact (proj2 (proj2 (proj2
    (cube_update_in_bounds 1 (GalaxyDensity.cube_zeros 1) gals
       (cubic_zeros 1) Hz)))).
Defined.

(** * Further properties of the notebooks' code *)

(** ** Totals of the pixel maps *)

(** X3.  No galaxy is lost or counted twice by the reduction: after any
    number of batches, the entries of the count map add up to what they added
    up to before plus the number of galaxies of all batches; from zero maps,
    to the number of galaxies.  This holds for every value type, binary64
    shears included, since counts are integers. *)
Theorem galaxy_count_conserved {V} `{Accum V} (m0 : maps V)
    (batches : list (list (nat * V))) (m : maps V) :
  reduce_all m0 batches = Some m →
  np.sum (num m) = (np.sum (num m0) + Z.of_nat (length (concat batches)))%Z ∧
  (∀ npix, m0 = zeros npix →
     np.sum (num m) = Z.of_nat (length (concat batches))).
Proof.
  intros E. pose proof (reduce_all_count_total _ _ _ E) as Ht.
  split; [done|]. intros npix ->. rewrite Ht. simpl.
  by rewrite np_sum_replicate_zero.
Qed.

Lemma galaxy_count_conserved_witness :
  let batches := [[(7, (f01, f02)); (2, (f03, f01))]; []; [(7, (f02, f02))]] in
  let m := {| num := [0; 0; 1; 0; 0; 0; 0; 2]%Z;
              she := [(0, 0); (0, 0); (f03, f01); (0, 0); (0, 0); (0, 0); (0, 0);
                      (0x1.3333333333334p-2, 0x1.999999999999ap-2)]%float |} in
  reduce_all (zeros 8) batches = Some m ∧
  np.sum (num m) = 3%Z.
Proof.
  intros batches m.
  assert (reduce_all (zeros 8) batches = Some m) as E by (vm_compute; reflexivity).
  split; [exact E|].
  exact (proj2 (galaxy_count_conserved (zeros 8) batches m E) 8 eq_refl).
Defined.

(** X4.  With exact addition of the values (associative, commutative, zero as
    unit) the shear map is conservative as well: after any number of batches
    its entries add up to what they added up to before plus the sum of the
    shears of all galaxies; from zero maps, to the sum of all shears. *)
Theorem shear_sum_conserved {V} `{AccumLaws V} (m0 : maps V)
    (batches : list (list (nat * V))) (m : maps V) :
  reduce_all m0 batches = Some m →
  np.sum (she m) = aadd (np.sum (she m0)) (np.sum (concat batches).*2) ∧
  (∀ npix, m0 = zeros npix → np.sum (she m) = np.sum (concat batches).*2).
Proof.
  intros E. pose proof (reduce_all_shear_total _ _ _ E) as Ht.
  split; [done|]. intros npix ->. rewrite Ht. simpl.
  by rewrite np_sum_replicate_azero, aadd_zero_l.
Qed.

Lemma shear_sum_conserved_witness :
  let batches := [[(3, (1, 2)%Z); (0, (5, -1)%Z)]; [(3, (-4, 7)%Z)]] in
  let m := {| num := [1; 0; 0; 2]%Z;
              she := [(5, -1); (0, 0); (0, 0); (-3, 9)]%Z |} in
  reduce_all (zeros 4) batches = Some m ∧
  np.sum (she m) = (2, 8)%Z.
Proof.
  intros batches m.
  assert (reduce_all (zeros 4) batches = Some m) as E by (vm_compute; reflexivity).
  split; [exact E|].
  exact (proj2 (shear_sum_conserved (zeros 4) batches m E) 4 eq_refl).
Defined.

(** ** When the reduction raises *)

(** X5.  The simulation loop raises (numpy's IndexError on [num[pix]] or
    [she[pix]]) exactly when some galaxy of some batch has a pixel index that
    is not below [npix]; a single such galaxy makes its whole batch fail.
    Pixel indices are natural numbers here, so numpy's wrap-around of
    negative indices is outside the statement. *)
Theorem pixel_out_of_range_raises {V} `{Accum V} (npix : nat)
    (batches : list (list (nat * V))) :
  reduce_all (zeros npix) batches = None ↔
  Exists (Exists (λ pt, npix ≤ pt.1)) batches.
Proof. apply reduce_all_None; simpl; apply length_replicate. Qed.

(** X6.  The pixel array and the shear array of a batch are indexed with the
    same permutation [s].  A shear array that is shorter than the pixel array
    makes [gal_she[s]] raise; one that is longer does not: its surplus
    entries are never read, and the batch is reduced as if they were not
    there. *)
Theorem shear_array_length_mismatch {V} `{Accum V} (m : maps V)
    (gal_pix : list nat) (gal_she : list V) :
  (length gal_she < length gal_pix → reduce m gal_pix gal_she = None) ∧
  (length gal_pix ≤ length gal_she →
   reduce m gal_pix gal_she =
   reduce m gal_pix (take (length gal_pix) gal_she)).
Proof.
  destruct (argsort_sorts gal_pix) as [Hperm _].
  assert (Forall (λ i, i < length gal_pix) (np.argsort gal_pix)) as Hlt.
  { apply Forall_forall. intros i Hi. rewrite Hperm in Hi.
    apply elem_of_seq in Hi. lia. }
  split; intros Hlen; unfold reduce, reduce_with.
  - destruct (getitem_permutation gal_pix _ Hperm) as (sp & -> & _). simpl.
    rewrite (getitem_out_of_range gal_she); [done|]. intros HF.
    assert (length gal_she ∈ np.argsort gal_pix) as Hin.
    { rewrite Hperm. apply elem_of_seq. lia. }
    apply (proj1 (Forall_forall _ _) HF) in Hin. lia.
  - by rewrite getitem_take.
Qed.

(** ** The cube of galaxy counts *)

(** X7.  The cube is a histogram of the galaxies: after all batches have been
    added without an error, every cell holds what it held before plus the
    number of galaxies, over all batches, whose three bin indices are those
    of the cell; starting from the zero cube, every cell holds exactly that
    number.  Galaxies that share a cell within one batch are counted through
    [np.unique(..., return_counts=True)], so none is lost in the fancy-indexed
    [+=]. *)
Theorem cube_counts_galaxies (zmax : R) (cube : list (list (list Z)))
    (batches : list (list GalaxyDensity.galaxy)) (cube' : list (list (list Z))) :
  GalaxyDensity.add_all zmax cube batches = Some cube' →
  (∀ ijk, np.lookup3 cube' ijk =
     (λ c, (c + Z.of_nat (GalaxyDensity.cell_count zmax ijk (concat batches)))%Z)
       <$> np.lookup3 cube ijk) ∧
  (cube = GalaxyDensity.cube_zeros zmax →
   ∀ ijk, GalaxyDensity.in_cube 20 ijk →
     np.lookup3 cube' ijk =
     Some (Z.of_nat (GalaxyDensity.cell_count zmax ijk (concat batches)))).
Proof.
  intros E. split.
  - intros ijk. by apply add_all_lookup.
  - intros -> ijk Hin. rewrite (add_all_lookup _ _ _ _ ijk E).
    by rewrite lookup3_cube_zeros.
Qed.

Lemma cube_counts_galaxies_witness :
  let batches : list (list GalaxyDensity.galaxy) :=
    [[(1 / 2, 30, 45); (1, 0, 0)]; [(1 / 2, 30, 45)]]%R in
  ∃ cube', GalaxyDensity.add_all 1 (GalaxyDensity.cube_zeros 1) batches
             = Some cube' ∧
    ∀ ijk, GalaxyDensity.in_cube 20 ijk →
      np.lookup3 cube' ijk =
      Some (Z.of_nat (GalaxyDensity.cell_count 1 ijk (concat batches))).
Proof.
  intros batches.
  destruct (add_all_in_cube 1 (GalaxyDensity.cube_zeros 1) batches
              (cubic_zeros 1)) as (cube' & E & _).
  { repeat constructor; simpl; lra. }
  exists cube'. split; [exact E|].
  exact (proj2 (cube_counts_galaxies 1 _ batches cube' E) eq_refl).
Defined.

(** X8.  The two ends of the grid are treated differently.  A coordinate
    above the last edge [zb[-1]] gets bin index 20, which is not a cell of
    the cube, and [cube[i, j, k] += c] raises for the whole batch; a
    coordinate at or below the first edge [-zb[-1]] gets bin index 0 and is
    counted in the first cell without an error.  In general the loop raises
    exactly when some galaxy has a bin index outside the cube. *)
Theorem cube_out_of_range (zmax : R) (cube : list (list (list Z)))
    (batches : list (list GalaxyDensity.galaxy)) :
  (0 < zmax)%R →
  GalaxyDensity.cubic 20 cube →
  (GalaxyDensity.add_all zmax cube batches = None ↔
   Exists (λ g, ¬ GalaxyDensity.in_cube 20 (GalaxyDensity.cell zmax g))
          (concat batches)) ∧
  (∀ g, g ∈ concat batches →
     (let '(z1, z2, z3) := GalaxyDensity.cartesian g in
      zmax < z1 ∨ zmax < z2 ∨ zmax < z3)%R →
     GalaxyDensity.add_all zmax cube batches = None) ∧
  (∀ v, (zmax < v)%R →
     np.searchsorted (lt:=Rlt) (tail (GalaxyDensity.zcub zmax)) v = 20) ∧
  (∀ v, (v <= - zmax)%R →
     np.searchsorted (lt:=Rlt) (tail (GalaxyDensity.zcub zmax)) v = 0).
Proof.
  intros Hz Hc.
  assert (GalaxyDensity.add_all zmax cube batches = None ↔
          Exists (λ g, ¬ GalaxyDensity.in_cube 20 (GalaxyDensity.cell zmax g))
                 (concat batches)) as Hiff.
  { rewrite add_all_None. split; intros Hex;
      (eapply Exists_impl; [exact Hex|]); intros g;
      by rewrite (lookup3_cubic_None 20). }
  split_and!.
  - exact Hiff.
  - intros g Hg Hbig. apply Hiff, Exists_exists. exists g. split; [done|].
    unfold GalaxyDensity.cell, GalaxyDensity.in_cube. revert Hbig.
    destruct (GalaxyDensity.cartesian g) as [[z1 z2] z3]. cbn [fst snd].
    intros [H1|[H2|H3]];
      [rewrite (searchsorted_beyond zmax z1) by done
      |rewrite (searchsorted_beyond zmax z2) by done
      |rewrite (searchsorted_beyond zmax z3) by done]; lia.
  - intros v Hv. by apply searchsorted_beyond.
  - intros v Hv. apply searchsorted_below. nra.
Qed.

Lemma cube_out_of_range_witness :
  (0 < 1)%R ∧
  GalaxyDensity.cubic 20 (GalaxyDensity.cube_zeros 1) ∧
  GalaxyDensity.add_all 1 (GalaxyDensity.cube_zeros 1)
    [[(1 / 2, 30, 45)%R]; [(2, 0, 0)%R]] = None.
Proof.
  assert (0 < 1)%R as Hz by lra.
  split; [exact Hz|]. split; [exact (cubic_zeros 1)|].
  apply (proj1 (proj2 (cube_out_of_range 1 (GalaxyDensity.cube_zeros 1)
           [[(1 / 2, 30, 45)%R]; [(2, 0, 0)%R]] Hz (cubic_zeros 1)))
         (2, 0, 0)%R).
  - simpl. apply list_elem_of_further, list_elem_of_here.
  - simpl. left. unfold GalaxyDensity.deg2rad.
    rewrite Rmult_0_l, cos_0. lra.
Defined.

(** X9.  The positions [z = (zcub[:-1] + zcub[1:])/2] at which the cells are
    drawn are the 20 midpoints of the cells: each lies strictly between the
    two edges of its cell, and the binning of the loop,
    [np.searchsorted(zcub[1:], .)], sends it back to the index of that
    cell. *)
Theorem centres_inside_cells (zmax : R) :
  (0 < zmax)%R →
  length (GalaxyDensity.centres zmax) = 20 ∧
  ∀ i c, GalaxyDensity.centres zmax !! i = Some c →
    ∃ lo hi, GalaxyDensity.zcub zmax !! i = Some lo ∧
             GalaxyDensity.zcub zmax !! S i = Some hi ∧
             (lo < c < hi)%R ∧ c = ((lo + hi) / 2)%R ∧
             np.searchsorted (lt:=Rlt) (tail (GalaxyDensity.zcub zmax)) c = i.
Proof.
  intros Hz. split; [apply centres_length|]. intros i c Hc.
  assert (i < 20) as Hi.
  { apply lookup_lt_Some in Hc. by rewrite centres_length in Hc. }
  rewrite centres_lookup in Hc by done.
  assert (c = ((zmax * (INR i / 10 - 1) + zmax * (INR (S i) / 10 - 1)) / 2)%R)
    as -> by congruence.
  exists (zmax * (INR i / 10 - 1))%R, (zmax * (INR (S i) / 10 - 1))%R.
  assert (INR (S i) = INR i + 1)%R as HS by apply S_INR.
  split_and!.
  - apply zcub_lookup. lia.
  - apply zcub_lookup. lia.
  - rewrite HS. nra.
  - rewrite HS. nra.
  - done.
  - apply (searchsorted_unique _ _ i (zmax * (INR (S i) / 10 - 1))%R).
    + intros j y Hj Hy. rewrite tail_zcub_lookup in Hy by lia.
      assert (y = zmax * (INR (S j) / 10 - 1))%R as -> by congruence.
      assert (INR (S j) <= INR i)%R as Hle by (apply le_INR; lia).
      rewrite HS. nra.
    + by apply tail_zcub_lookup.
    + rewrite HS. nra.
Qed.

Lemma centres_inside_cells_witness :
  (0 < 1)%R ∧
  length (GalaxyDensity.centres 1) = 20 ∧
  ∀ i c, GalaxyDensity.centres 1 !! i = Some c →
    ∃ lo hi, GalaxyDensity.zcub 1 !! i = Some lo ∧
             GalaxyDensity.zcub 1 !! S i = Some hi ∧
             (lo < c < hi)%R ∧ c = ((lo + hi) / 2)%R ∧
             np.searchsorted (lt:=Rlt) (tail (GalaxyDensity.zcub 1)) c = i.
Proof.
  assert (0 < 1)%R as Hz by lra.
  split; [exact Hz|]. exact (centres_inside_cells 1 Hz).
Defined.

(** X10.  The colour scale of the plot, [vmin=np.min(cube[cube > 0])] and
    [vmax=np.max(cube)], after the loop has run from the zero cube.  When no
    galaxy at all was sampled, no entry is positive and [np.min] raises on
    the empty selection; otherwise [vmin] is defined and at least 1 (the
    entries are counts), [vmax] is defined, [vmin <= vmax], and [vmax] is at
    most the number of galaxies. *)
Theorem colour_scale (zmax : R) (batches : list (list GalaxyDensity.galaxy))
    (cube' : list (list (list Z))) :
  GalaxyDensity.add_all zmax (GalaxyDensity.cube_zeros zmax) batches
    = Some cube' →
  (GalaxyDensity.vmin cube' = None ↔ concat batches = []) ∧
  (∀ v, GalaxyDensity.vmin cube' = Some v →
     (1 ≤ v)%Z ∧
     ∃ w, GalaxyDensity.vmax cube' = Some w ∧
          (v ≤ w ≤ Z.of_nat (length (concat batches)))%Z).
Proof.
  intros E. unfold GalaxyDensity.vmin, GalaxyDensity.vmax. split.
  - rewrite np_min_None. split.
    + intros Hnil. destruct (concat batches) as [|g gs] eqn:Hb; [done|].
      assert (g ∈ concat batches) as Hg by (rewrite Hb; apply list_elem_of_here).
      pose proof (flat_galaxy _ _ _ g E Hg) as Hin.
      pose proof (cell_count_pos zmax g _ Hg) as Hpos.
      exfalso. refine (filter_nil_not_elem_of _ _ _ Hnil _ Hin). lia.
    + intros Hb. apply filter_none, Forall_forall. intros x Hx.
      destruct (flat_counts _ _ _ x E Hx) as [ijk ->].
      pose proof (cell_count_le zmax ijk (concat batches)) as Hle.
      rewrite Hb in Hle |- *. simpl in Hle. lia.
  - intros v Hv. apply np_min_Some in Hv as [Hv _].
    apply list_elem_of_filter in Hv as [Hpos Hv]. split; [lia|].
    destruct (np.max (GalaxyDensity.flat cube')) as [w|] eqn:Hw.
    + exists w. split; [done|]. apply np_max_Some in Hw as [Hw Hall].
      split; [by apply (proj1 (Forall_forall _ _) Hall)|].
      destruct (flat_counts _ _ _ w E Hw) as [ijk ->].
      pose proof (cell_count_le zmax ijk (concat batches)). lia.
    + destruct (GalaxyDensity.flat cube'); [by apply elem_of_nil in Hv|done].
Qed.

Lemma colour_scale_witness :
  let batches : list (list GalaxyDensity.galaxy) :=
    [[(1 / 2, 30, 45); (1, 0, 0)]; [(1 / 2, 30, 45)]]%R in
  ∃ cube', GalaxyDensity.add_all 1 (GalaxyDensity.cube_zeros 1) batches
             = Some cube' ∧
    ∃ v w, GalaxyDensity.vmin cube' = Some v ∧
           GalaxyDensity.vmax cube' = Some w ∧ (1 ≤ v ≤ w)%Z ∧ (w ≤ 3)%Z.
Proof.
  intros batches.
  destruct (add_all_in_cube 1 (GalaxyDensity.cube_zeros 1) batches
              (cubic_zeros 1)) as (cube' & E & _).
  { repeat constructor; simpl; lra. }
  exists cube'. split; [exact E|].
  destruct (colour_scale 1 batches cube' E) as [Hnone Hsome].
  destruct (GalaxyDensity.vmin cube') as [v|] eqn:Hv.
  - destruct (Hsome v eq_refl) as (Hv1 & w & Hw & Hvw & Hw3).
    exists v, w. split_and!; done.
  - discriminate (proj1 Hnone eq_refl).
Defined.

(** ** Comparison with the theory spectrum *)

(** X13.  The factor [fl] that turns the convergence spectrum into the shear
    spectrum is computed from the integer array [l], in integers of the
    array's width [w] (64 bits, or 32).  As long as [lmax**2 * (lmax+1)**2],
    the largest value that occurs, fits that width, no operation wraps
    around: at every multipole the numerator is (l+2)(l+1)l(l-1) and the
    denominator is l^2 (l+1)^2, which [np.clip] replaces by 1 at l = 0 only.
    The factor then has one entry per multipole, each in [[0, 1)]; it is
    zero exactly at l = 0 and l = 1, and it increases strictly from l = 1
    on. *)
Theorem shear_factor_range (w : Z) (lmax : nat) :
  w = 32%Z ∨ w = 64%Z →
  (Z.of_nat lmax ^ 2 * (Z.of_nat lmax + 1) ^ 2 < 2 ^ (w - 1))%Z →
  length (fl w lmax) = S lmax ∧
  ∀ l x, fl w lmax !! l = Some x →
    fl_num w (Z.of_nat l) =
      ((Z.of_nat l + 2) * (Z.of_nat l + 1) * Z.of_nat l * (Z.of_nat l - 1))%Z ∧
    fl_den w (Z.of_nat l) =
      (if decide (l = 0) then 1%Z
       else (Z.of_nat l ^ 2 * (Z.of_nat l + 1) ^ 2)%Z) ∧
    (0 <= x < 1)%R ∧
    (x = 0%R ↔ l < 2) ∧
    (∀ y, 1 ≤ l → fl w lmax !! S l = Some y → (x < y)%R).
Proof.
  intros Hw Hmax. assert (4 ≤ w)%Z as Hw4 by lia.
  unfold fl. split.
  { unfold np.arange. by rewrite !length_fmap, length_seq. }
  intros l x Hx. rewrite list_lookup_fmap in Hx.
  destruct (np.arange (S lmax) !! l) as [z|] eqn:Hz; [|done].
  apply lookup_lt_Some in Hz as Hl.
  unfold np.arange in Hl. rewrite length_fmap, length_seq in Hl.
  apply lookup_arange_Some in Hz as ->. injection Hx as <-.
  assert (∀ k, k ≤ lmax →
            (Z.of_nat k ^ 2 * (Z.of_nat k + 1) ^ 2 < 2 ^ (w - 1))%Z) as Hfit.
  { intros k Hk.
    pose proof (fl_den_mono (Z.of_nat k) (Z.of_nat lmax) ltac:(lia)). lia. }
  assert (Z.of_nat l ^ 2 * (Z.of_nat l + 1) ^ 2 < 2 ^ (w - 1))%Z as Hd
    by (apply Hfit; lia).
  destruct (fl_no_wrap w (Z.of_nat l) Hw4 ltac:(lia) Hd) as [Hnum Hden].
  split; [exact Hnum|]. split; [|split; [|split]].
  - rewrite Hden. destruct (decide (l = 0)) as [->|Hne]; [done|].
    apply Z.max_l. nia.
  - apply fl_at_range; [done|lia|done].
  - split.
    + intros H0. destruct (decide (l < 2)) as [|Hge]; [done|].
      pose proof (fl_at_pos w (Z.of_nat l) Hw4 ltac:(lia) Hd). lra.
    + intros Hl2. assert (l = 0 ∨ l = 1) as [-> | ->] by lia.
      * apply fl_at_0.
      * apply fl_at_1.
  - intros y Hl1 Hy. rewrite list_lookup_fmap in Hy.
    destruct (np.arange (S lmax) !! S l) as [z|] eqn:Hz; [|done].
    apply lookup_lt_Some in Hz as Hl'.
    unfold np.arange in Hl'. rewrite length_fmap, length_seq in Hl'.
    apply lookup_arange_Some in Hz as ->. injection Hy as <-.
    replace (Z.of_nat (S l)) with (Z.of_nat l + 1)%Z by lia.
    apply fl_at_increasing; [done|lia|].
    replace (Z.of_nat l + 1)%Z with (Z.of_nat (S l)) by lia.
    apply Hfit. lia.
Qed.

Lemma shear_factor_range_witness :
  (64 = 32 ∨ 64 = 64)%Z ∧
  (Z.of_nat 256 ^ 2 * (Z.of_nat 256 + 1) ^ 2 < 2 ^ (64 - 1))%Z ∧
  length (fl 64 256) = 257 ∧
  (∀ x, fl 64 256 !! 1 = Some x → x = 0%R).
Proof.
  assert (64 = 32 ∨ 64 = 64)%Z as Hw by (right; reflexivity).
  assert (Z.of_nat 256 ^ 2 * (Z.of_nat 256 + 1) ^ 2 < 2 ^ (64 - 1))%Z as Hd
    by reflexivity.
  split; [exact Hw|]. split; [exact Hd|].
  destruct (shear_factor_range 64 256 Hw Hd) as [Hlen Hfl].
  split; [exact Hlen|].
  intros x Hx. destruct (Hfl 1 x Hx) as (_ & _ & _ & Hz & _).
  apply Hz. lia.
Defined.

(** X25.  Beyond that range [fl] is wrong without any error.  With 64-bit
    integers the bound is [lmax = 55108]: at l = 55109 the product
    (l+2)(l+1)l(l-1) and the argument of [np.clip] both exceed 2^63 and wrap
    around to negative numbers, the clip turns the denominator into 1, and
    the entry of [fl] is the numerator -9223028919275805496 as a float,
    below -9e18, instead of a number just below 1.  With 32-bit integers the
    same happens at l = 215, where the entry is -2138386576. *)
Theorem shear_factor_overflow :
  (55108 ^ 2 * (55108 + 1) ^ 2 < 2 ^ (64 - 1) ≤ 55109 ^ 2 * (55109 + 1) ^ 2)%Z ∧
  fl_num 64 55109 = (-9223028919275805496)%Z ∧
  fl_den 64 55109 = 1%Z ∧
  (fl_at 64 55109 < -9000000000000000000)%R ∧
  (214 ^ 2 * (214 + 1) ^ 2 < 2 ^ (32 - 1) ≤ 215 ^ 2 * (215 + 1) ^ 2)%Z ∧
  fl_num 32 215 = (-2138386576)%Z ∧
  fl_den 32 215 = 1%Z ∧
  (fl_at 32 215 < -2000000000)%R.
Proof.
  assert (fl_num 64 55109 = (-9223028919275805496)%Z) as Hn64
    by (vm_compute; reflexivity).
  assert (fl_den 64 55109 = 1%Z) as Hd64 by (vm_compute; reflexivity).
  assert (fl_num 32 215 = (-2138386576)%Z) as Hn32
    by (vm_compute; reflexivity).
  assert (fl_den 32 215 = 1%Z) as Hd32 by (vm_compute; reflexivity).
  split_and!; try done.
  - unfold fl_at. rewrite Hn64, Hd64. lra.
  - unfold fl_at. rewrite Hn32, Hd32. lra.
Qed.

(** X15.  The mixing matrix entry by entry.  Both it and the noise level
    raise (ZeroDivisionError) exactly when [nbar*npix] is zero.  Otherwise
    the matrix has one row per multipole, and its entry in row [i] and
    column [j] is zero when [i < 2] or [j < 2], is
    [(1 - 1/N) + (j + 1/2)/N] on the diagonal and [(j + 1/2)/N] off the
    diagonal, where [N = nbar*npix]: the one-dimensional term [(l+1/2)/N] is
    added along the columns.  So the rows from 2 on agree off their
    diagonals, and the matrix is not symmetric. *)
Theorem mixing_matrix_entries (nbar : R) (npix : nat) (sigma_e : R)
    (lmax : nat) :
  (nl nbar npix sigma_e lmax = None ↔ (nbar * INR npix = 0)%R) ∧
  (mm nbar npix lmax = None ↔ (nbar * INR npix = 0)%R) ∧
  ∀ m, mm nbar npix lmax = Some m →
    length m = S lmax ∧
    (∀ i j row x, m !! i = Some row → row !! j = Some x →
       x = if decide (i < 2 ∨ j < 2) then 0%R
           else if decide (i = j)
                then ((1 - 1 / (nbar * INR npix)) +
                      (INR j + 1 / 2) / (nbar * INR npix))%R
                else ((INR j + 1 / 2) / (nbar * INR npix))%R) ∧
    (∀ i j row row' x x', m !! i = Some row → row !! j = Some x →
       m !! j = Some row' → row' !! i = Some x' →
       2 ≤ i → 2 ≤ j → i ≠ j → x ≠ x').
Proof.
  split; [|split].
  - unfold nl. split.
    + intros E. destruct (Req_dec_T (nbar * INR npix) 0) as [|Hne]; [done|].
      by rewrite truediv_Some in E.
    + intros H0. by rewrite (proj2 (truediv_None _ _) H0).
  - unfold mm. split.
    + intros E. destruct (Req_dec_T (nbar * INR npix) 0) as [|Hne]; [done|].
      by rewrite truediv_Some in E.
    + intros H0. by rewrite (proj2 (truediv_None _ _) H0).
  - intros m Hm.
    assert (nbar * INR npix ≠ 0)%R as HN.
    { intros H0. assert (mm nbar npix lmax = None) as E; [|congruence].
      unfold mm. by rewrite (proj2 (truediv_None _ _) H0). }
    rewrite (mm_rows nbar npix lmax HN) in Hm.
    apply (inj Some) in Hm. subst m.
    assert (∀ i j row x,
      ((λ i : nat, (λ j : nat,
          if decide (j < 2) then 0%R
          else if decide (i < 2) then 0%R
          else ((1 - 1 / (nbar * INR npix)) *
                  (if decide (i = j) then 1 else 0) +
                (INR j + 1 / 2) / (nbar * INR npix))%R)
         <$> seq 0 (S lmax)) <$> seq 0 (S lmax)) !! i = Some row →
      row !! j = Some x →
      x = if decide (i < 2 ∨ j < 2) then 0%R
          else if decide (i = j)
               then ((1 - 1 / (nbar * INR npix)) +
                     (INR j + 1 / 2) / (nbar * INR npix))%R
               else ((INR j + 1 / 2) / (nbar * INR npix))%R) as Hentry.
    { intros i j row x Hrow Hx. rewrite list_lookup_fmap in Hrow.
      destruct (seq 0 (S lmax) !! i) as [i'|] eqn:Hi; [|done].
      apply lookup_seq in Hi as [-> Hi].
      apply (inj Some) in Hrow. subst row.
      cbv beta in Hx. rewrite list_lookup_fmap in Hx.
      destruct (seq 0 (S lmax) !! j) as [j'|] eqn:Hj; [|done].
      apply lookup_seq in Hj as [-> Hj]. injection Hx as <-.
      simpl.
      destruct (decide (j < 2)) as [Hj2|Hj2].
      { rewrite decide_True by lia. done. }
      destruct (decide (i < 2)) as [Hi2|Hi2].
      { rewrite decide_True by lia. done. }
      rewrite (decide_False (P:=i < 2 ∨ j < 2)) by lia.
      destruct (decide (i = j)); lra. }
    split; [by rewrite length_fmap, length_seq|]. split; [exact Hentry|].
    intros i j row row' x x' Hrow Hx Hrow' Hx' Hi Hj Hij.
    rewrite (Hentry _ _ _ _ Hrow Hx), (Hentry _ _ _ _ Hrow' Hx').
    rewrite !(decide_False (P:=_ ∨ _)) by lia.
    rewrite !(decide_False (P:=_ = _)) by lia.
    intros E. apply Hij.
    apply (f_equal (λ v, (v * (nbar * INR npix))%R)) in E.
    unfold Rdiv in E. rewrite !Rmult_assoc, Rinv_l in E by done.
    apply INR_eq. lra.
Qed.

(** ** Tomographic bins *)

(** X17.  The bin id that the Stage-IV notebook attaches to a galaxy,
    [np.digitize(gal_phz, np.unique(zbins)) - 1].  The edges
    [np.unique(zbins)] are strictly increasing whatever [zbins] is; the id
    is between -1 and the number of edges minus one; it is [b] exactly when
    the photometric redshift is at or above edge [b] and below edge [b+1]
    (if there is one), and -1 exactly when it is below the first edge.  So a
    galaxy at or above the last edge gets the id of the last edge, one more
    than the last bin, and a galaxy below the first edge gets -1: neither is
    selected by [ZBIN == i] for a bin [i]. *)
Theorem tomographic_bin_id (zbins : list (R * R)) (phz : R) :
  StronglySorted Rlt (Tomography.edges zbins) ∧
  (-1 ≤ Tomography.zbin_of zbins phz < Z.of_nat (length (Tomography.edges zbins)))%Z ∧
  (Tomography.zbin_of zbins phz = (-1)%Z ↔
   ∀ lo, Tomography.edges zbins !! 0 = Some lo → (phz < lo)%R) ∧
  (∀ b lo, Tomography.edges zbins !! b = Some lo →
     Tomography.zbin_of zbins phz = Z.of_nat b ↔
     (lo <= phz)%R ∧
     ∀ hi, Tomography.edges zbins !! S b = Some hi → (phz < hi)%R).
Proof.
  pose proof (unique_values_sorted (zbins ≫= λ b, [b.1; b.2])) as Hs.
  fold (Tomography.edges zbins) in Hs.
  unfold Tomography.zbin_of. split_and!.
  - exact Hs.
  - lia.
  - pose proof (searchsorted_le_length (lt:=Rle) (Tomography.edges zbins) phz).
    unfold np.digitize. lia.
  - rewrite <-digitize_zero. lia.
  - intros b lo Hb. rewrite <-(digitize_spec _ _ _ _ Hs Hb). lia.
Qed.

(** X18.  When the bins are the consecutive pairs [(e0, e1), (e1, e2), ...]
    of strictly increasing edges, [np.unique(zbins)] is the list of edges
    again, and the two notebooks bin alike: the id computed by the Stage-IV
    notebook is [i] exactly for the galaxies that the mask
    [(z1 <= zphot) & (zphot < z2)] of the photometric-redshift notebook
    selects for bin [i]. *)
Theorem bin_id_agrees_with_mask (es : list R) (i : nat) (z1 z2 phz : R) :
  StronglySorted Rlt es →
  zip es (tail es) !! i = Some (z1, z2) →
  Tomography.edges (zip es (tail es)) = es ∧
  (Tomography.zbin_of (zip es (tail es)) phz = Z.of_nat i ↔
   (z1 <= phz)%R ∧ (phz < z2)%R) ∧
  Tomography.bin_mask z1 z2 [phz] =
    [bool_decide (Tomography.zbin_of (zip es (tail es)) phz = Z.of_nat i)].
Proof.
  intros Hs Hi. apply lookup_consecutive in Hi as [H1 H2].
  assert (2 ≤ length es) as Hlen by (apply lookup_lt_Some in H2; lia).
  pose proof (edges_consecutive es Hs Hlen) as He.
  assert (Tomography.zbin_of (zip es (tail es)) phz = Z.of_nat i ↔
          (z1 <= phz)%R ∧ (phz < z2)%R) as Hiff.
  { unfold Tomography.zbin_of. rewrite He.
    transitivity (np.digitize (le:=Rle) phz es = S i); [lia|].
    rewrite (digitize_spec es phz i z1 Hs H1). split.
    - intros [Hlo Hhi]. split; [done|]. by apply Hhi.
    - intros [Hlo Hhi]. split; [done|]. intros hi Hhi'.
      assert (hi = z2) as -> by congruence. done. }
  split_and!; [done..|].
  unfold Tomography.bin_mask. simpl. f_equal.
  apply eq_bool_prop_intro.
  rewrite andb_True, !bool_decide_spec. by rewrite Hiff.
Qed.

Lemma bin_id_agrees_with_mask_witness :
  StronglySorted Rlt [0; 1; 2]%R ∧
  zip [0; 1; 2]%R (tail [0; 1; 2]%R) !! 1 = Some (1, 2)%R ∧
  (Tomography.zbin_of [(0, 1); (1, 2)]%R (3 / 2) = 1%Z ↔
   (1 <= 3 / 2)%R ∧ (3 / 2 < 2)%R).
Proof.
  assert (StronglySorted Rlt [0; 1; 2]%R) as Hs by (repeat constructor; lra).
  split; [exact Hs|]. split; [reflexivity|].
  exact (proj1 (proj2 (bin_id_agrees_with_mask [0; 1; 2]%R 1 1 2 (3 / 2)
                         Hs eq_refl))).
Defined.

(** X19.  The catalogue of the Stage-IV notebook.  When the loop finishes
    without an error (every column of every pass could be broadcast to
    [gal_count] rows), the catalogue has one row per sampled galaxy, the
    number printed at the end; in every row the bin id is the one that
    belongs to the photometric redshift of the same row, also where a column
    was broadcast from a single value; and the histogram sample
    [catalogue['Z_TRUE'][catalogue['ZBIN'] == i]] consists, in catalogue
    order, of the true redshifts of exactly the galaxies whose photometric
    redshift has bin id [i]. *)
Theorem catalogue_bins (zbins : list (R * R)) (batches : list Tomography.batch)
    (catalogue : list Tomography.row) :
  Tomography.build zbins [] batches = Some catalogue →
  length catalogue = sum_list (Tomography.gal_count <$> batches) ∧
  Forall (λ r, Tomography.ZBIN r =
               Tomography.zbin_of zbins (Tomography.PHZ r)) catalogue ∧
  ∀ i, Tomography.bin_ztrue i catalogue =
       Some (Tomography.Z_TRUE <$>
               filter (λ r, Tomography.zbin_of zbins (Tomography.PHZ r)
                            = Z.of_nat i) catalogue).
Proof.
  intros E. destruct (build_spec _ _ _ _ E) as [Hlen Hall]; [done|].
  split_and!; [done..|]. intros i. unfold Tomography.bin_ztrue, Tomography.in_bin.
  rewrite (getitem_mask_fmap Tomography.Z_TRUE
             (λ r, Tomography.ZBIN r = Z.of_nat i)).
  do 2 f_equal. apply filter_ext_Forall.
  eapply Forall_impl; [exact Hall|]. simpl. by intros r ->.
Qed.

Lemma catalogue_bins_witness :
  let zbins := [(0, 1); (1, 2)]%R in
  let batches :=
    [Tomography.Batch 2 [10; 20]%R [0; 5]%R [1 / 2; 3 / 2]%R [2 / 5; 8 / 5]%R
       [(0, 0); (0, 0)]%R;
     Tomography.Batch 1 [30]%R [-5]%R [1]%R [9 / 10]%R [(0, 0)]%R] in
  ∃ catalogue, Tomography.build zbins [] batches = Some catalogue ∧
               length catalogue = 3.
Proof.
  intros zbins batches.
  destruct (build_is_Some zbins [] batches) as [catalogue E].
  { repeat constructor. }
  exists catalogue. split; [exact E|].
  exact (proj1 (catalogue_bins zbins batches catalogue E)).
Defined.

(** X20.  The histograms of the photometric-redshift notebook, for bins that
    are the consecutive pairs of strictly increasing edges and one curve of
    [tomo_nz] per bin.  The masks [(z1 <= zphot) & (zphot < z2)] are
    half-open, so the samples of the bins, taken together, are a
    rearrangement of the true redshifts of exactly the galaxies whose
    photometric redshift lies in [[first edge, last edge)]: every such
    galaxy is in one histogram and in one only, a galaxy outside is in
    none.  If [ztrue] and [zphot] differ in length the mask does not fit and
    the first histogram raises. *)
Theorem photoz_histograms_partition (es : list R) (tomo_nz : list (list R))
    (gals : list (R * R)) :
  StronglySorted Rlt es →
  length tomo_nz = length es - 1 →
  (∃ samples,
     Tomography.histograms (zip es (tail es)) tomo_nz gals.*1 gals.*2
       = Some samples ∧
     length samples = length es - 1 ∧
     concat samples ≡ₚ
       (filter (λ g, (default 0 (head es) <= g.2)%R ∧
                     (g.2 < default 0 (last es))%R) gals).*1) ∧
  (∀ ztrue zphot, length ztrue ≠ length zphot → 2 ≤ length es →
     Tomography.histograms (zip es (tail es)) tomo_nz ztrue zphot = None).
Proof.
  intros Hs Hlen.
  assert (length (zip es (tail es)) = length es - 1) as Hzip.
  { rewrite length_zip_with. destruct es; cbn [length tail]; lia. }
  split.
  - eexists. unfold Tomography.histograms. split_and!.
    + rewrite (mapM_ext _ (λ b, Some
        (filter (λ g, (b.1.1 <= g.2)%R ∧ (g.2 < b.1.2)%R) gals).*1)).
      * apply mapM_Some_fmap.
      * intros b. apply bin_sample_pairs.
    + rewrite length_fmap, length_zip_with. lia.
    + rewrite <-(consecutive_partition es gals Hs).
      rewrite <-(fst_zip (zip es (tail es)) tomo_nz) at 2 by lia.
      by rewrite <-list_fmap_compose.
  - intros ztrue zphot Hne H2. unfold Tomography.histograms.
    destruct (zip es (tail es)) as [|b bs] eqn:Hb; [simpl in Hzip; lia|].
    destruct tomo_nz as [|nz tomo_nz]; [simpl in *; lia|].
    cbn [zip zip_with mapM]. unfold Tomography.bin_sample.
    rewrite getitem_mask_length; [done|].
    unfold Tomography.bin_mask. rewrite length_fmap. done.
Qed.

Lemma photoz_histograms_partition_witness :
  let gals := [(1 / 2, 2 / 5); (3 / 2, 8 / 5); (1, 5 / 2)]%R in
  StronglySorted Rlt [0; 1; 2]%R ∧
  length [[1; 1]; [2; 2]]%R = length [0; 1; 2]%R - 1 ∧
  ∃ samples,
    Tomography.histograms [(0, 1); (1, 2)]%R [[1; 1]; [2; 2]]%R
      gals.*1 gals.*2 = Some samples ∧
    length samples = 2.
Proof.
  intros gals.
  assert (StronglySorted Rlt [0; 1; 2]%R) as Hs by (repeat constructor; lra).
  split; [exact Hs|]. split; [reflexivity|].
  destruct (proj1 (photoz_histograms_partition [0; 1; 2]%R
                     [[1; 1]; [2; 2]]%R gals Hs eq_refl))
    as (samples & E & Hlen & _).
  exists samples. by split.
Defined.

(** ** The mean fields of the lensing notebook *)

(** X21.  The mean convergence (and each mean shear component, which the
    notebook accumulates in the same way) is a weighted sum of the fields of
    the shells.  When the loop and the normalisation finish without an error,
    the result has [npix] pixels.  With exact arithmetic of the values (the
    laws of an ordered field), when moreover the densities of the shells are
    not negative, every field stays within [[lo, hi]] and the overall
    density [ngal] is positive, every pixel of the mean lies within
    [[lo W / ngal, hi W / ngal]], where [W] is the sum of the shell
    densities; so within [[lo, hi]] when the shell densities add up to the
    overall density. *)
Theorem mean_field_between {V} `{ArithLaws V} (npix : nat)
    (shells : list (V * list V)) (ngal lo hi : V) (mean : list V) :
  MeanField.mean_field npix shells ngal = Some mean →
  Forall (λ s, ale azero s.1 ∧ Forall (λ k, ale lo k ∧ ale k hi) s.2) shells →
  ale azero ngal → ngal ≠ azero →
  length mean = npix ∧
  Forall (λ x, ale (adiv (amul lo (np.sum shells.*1)) ngal) x ∧
               ale x (adiv (amul hi (np.sum shells.*1)) ngal)) mean ∧
  (np.sum shells.*1 = ngal → Forall (λ x, ale lo x ∧ ale x hi) mean).
Proof.
  unfold MeanField.mean_field. intros E Hsh Hngal Hn0.
  destruct (MeanField.accumulate _ shells) as [bar|] eqn:Hacc; [|done].
  injection E as <-.
  pose proof (accumulate_length _ _ _ Hacc) as Hlen.
  rewrite length_replicate in Hlen.
  assert (Forall (λ x, ale (amul lo (np.sum shells.*1)) x ∧
                       ale x (amul hi (np.sum shells.*1))) bar) as Hb.
  { rewrite np_sum_foldr.
    assert (Forall (λ x : V, ale (amul lo azero) x ∧ ale x (amul hi azero))
              (replicate npix azero)) as H0'.
    { apply Forall_replicate. rewrite !amul_azero. split; apply ale_refl. }
    pose proof (accumulate_bounds lo hi azero _ _ _ H0' Hsh Hacc) as Hb.
    eapply Forall_impl; [exact Hb|]. simpl. intros x.
    by rewrite aadd_zero_l. }
  assert (Forall (λ x, ale (adiv (amul lo (np.sum shells.*1)) ngal) x ∧
                       ale x (adiv (amul hi (np.sum shells.*1)) ngal))
            ((λ x, adiv x ngal) <$> bar)) as Hm.
  { apply Forall_fmap. eapply Forall_impl; [exact Hb|]. simpl.
    intros x [Hlo Hhi]. split; by apply ale_adiv. }
  split_and!; [by rewrite length_fmap|exact Hm|].
  intros Hsum. rewrite Hsum in Hm. eapply Forall_impl; [exact Hm|].
  simpl. intros x. by rewrite !adiv_amul.
Qed.

Lemma mean_field_between_witness :
  let shells := [(1, [2; 4]); (3, [6; 0])]%R in
  ∃ mean, MeanField.mean_field 2 shells 4%R = Some mean ∧
          Forall (λ x, (0 <= x <= 6)%R) mean.
Proof.
  intros shells. eexists. split; [reflexivity|].
  assert (Forall (λ s : R * list R,
            ale azero s.1 ∧ Forall (λ k, ale 0%R k ∧ ale k 6%R) s.2) shells)
    as Hsh.
  { apply Forall_cons. split; [simpl; split; [lra|]|].
    - apply Forall_cons. split; [simpl; lra|].
      apply Forall_singleton. simpl. lra.
    - apply Forall_singleton. simpl. split; [lra|].
      apply Forall_cons. split; [simpl; lra|].
      apply Forall_singleton. simpl. lra. }
  assert (ale azero 4%R) as H4 by (simpl; lra).
  assert (4%R ≠ azero) as H4' by (simpl; lra).
  apply (proj2 (proj2 (mean_field_between 2 shells 4%R 0%R 6%R _ eq_refl
                         Hsh H4 H4'))).
  unfold np.sum. simpl. lra.
Defined.

(** In binary64 the products, the sums and the quotient are rounded and the
    bound can be missed by the last digits.  Two shells with the densities
    0.1 and 0.2 and a field that is 0.7 in both: the overall density is
    their sum 0.1 + 0.2, and the mean is 0.6999999999999997, below 0.7. *)
Lemma mean_field_binary64_below_bound :
  let f07 := 0x1.6666666666666p-1%float in
  let shells := [(f01, [f07]); (f02, [f07])] in
  let ngal := np.sum shells.*1 in
  MeanField.mean_field 1 shells ngal = Some [0x1.6666666666664p-1%float] ∧
  PrimFloat.ltb 0x1.6666666666664p-1 f07 = true.
Proof. split; vm_compute; reflexivity. Qed.

(** X22.  Only the ratios of the shell densities to the overall density
    enter the mean fields: with exact arithmetic of the values (the laws of
    a field), multiplying every shell density and the overall density by the
    same non-zero factor leaves the result unchanged, error cases included.
    (The notebook remarks that the actual density per arcmin2 does not
    matter.) *)
Theorem mean_field_scale_free {V} `{ArithLaws V} (npix : nat)
    (shells : list (V * list V)) (ngal c : V) :
  c ≠ azero → ngal ≠ azero →
  MeanField.mean_field npix ((λ s, (amul c s.1, s.2)) <$> shells)
    (amul c ngal) =
  MeanField.mean_field npix shells ngal.
Proof.
  intros Hc Hn. unfold MeanField.mean_field.
  replace (replicate npix (azero : V))
    with (amul c <$> replicate npix (azero : V)) at 1.
  2:{ rewrite fmap_replicate. f_equal. apply amul_azero. }
  rewrite accumulate_scale.
  destruct (MeanField.accumulate _ shells) as [bar|]; [|done].
  simpl. f_equal. rewrite <-list_fmap_compose.
  apply list_fmap_ext. intros i x _. simpl. by apply adiv_cancel.
Qed.

Lemma mean_field_scale_free_witness :
  (3 ≠ 0)%R ∧ (4 ≠ 0)%R ∧
  MeanField.mean_field 2 [(3 * 1, [2; 4]); (3 * 3, [6; 0])]%R (3 * 4)%R =
  MeanField.mean_field 2 [(1, [2; 4]); (3, [6; 0])]%R 4%R.
Proof.
  assert (3 ≠ 0)%R as H3 by lra. assert (4 ≠ 0)%R as H4 by lra.
  split; [exact H3|]. split; [exact H4|].
  exact (mean_field_scale_free 2 [(1, [2; 4]); (3, [6; 0])]%R 4%R 3%R H3 H4).
Defined.

(** In binary64 the result changes in the last digits under a factor that
    is not a power of two.  One shell with density 0.1 and field 0.7,
    overall density 0.3: the mean is 0.2333333333333333; with both
    densities multiplied by 3 it is 0.23333333333333336. *)
Lemma mean_field_binary64_scale :
  let f07 := 0x1.6666666666666p-1%float in
  let c := 0x1.8p+1%float in
  MeanField.mean_field 1 [(f01, [f07])] f03 =
    Some [0x1.dddddddddddddp-3%float] ∧
  MeanField.mean_field 1 [(amul c f01, [f07])] (amul c f03) =
    Some [0x1.ddddddddddddfp-3%float] ∧
  PrimFloat.eqb 0x1.dddddddddddddp-3 0x1.ddddddddddddfp-3 = false.
Proof. split_and!; vm_compute; reflexivity. Qed.

(** X23.  In the lensing notebook the mean fields are divided by the overall
    galaxy density [ngal = np.trapz(dndz, z)] of the Gaussian [dndz] on
    [z = np.linspace(0, 1, 101)].  That grid has 101 points from 0 to 1 and
    is strictly increasing, the integral does not raise, and it is positive:
    the division is never a division by zero. *)
Theorem lensing_density_positive :
  length MeanField.z = 101 ∧
  head MeanField.z = Some 0%R ∧ last MeanField.z = Some 1%R ∧
  StronglySorted Rlt MeanField.z ∧
  ∃ t, MeanField.ngal = Some t ∧ (0 < t)%R.
Proof.
  assert (StronglySorted Rlt MeanField.z) as Hs.
  { apply linspace_increasing; [lia|lra]. }
  assert (length MeanField.z = 101) as Hlen by apply linspace_length.
  split_and!; [done|by apply linspace_head; lia|
               by apply linspace_last; lia|done|].
  eexists. split.
  - apply trapz_same_length. unfold MeanField.dndz, dndz.
    by rewrite length_fmap.
  - unfold MeanField.dndz, dndz.
    apply trapz_sum_pos; [by rewrite length_fmap|rewrite Hlen; lia|done|].
    apply Forall_fmap, Forall_true. intros x. apply exp_pos.
Qed.
